(** * ArrayMD: the indexing and layout engine of [array_md] and [multiarray]

    A shallow embedding of
    - [boost/utility/slice.hpp]            ([slice], [checked_slice]),
    - [boost/container/array_md.hpp]       ([array_md<T>], [array_md<T,M,N...>],
                                            creation, conversion, comparisons),
    - [boost/container/multiarray.hpp]     ([multiarray_storage_base],
                                            [multiarray_indexed_base], [multiarray]),
    together with the properties of the coordinate-to-offset mapping.

    Conventions.  A value of an unsigned [size_type] is a [Z] in
    [0 .. size_max]; arithmetic on it wraps modulo [2 ^ digits].  A call
    either returns normally, throws one of the four standard exceptions the
    headers use, or has undefined behaviour (an out-of-bounds built-in
    indexing, a division by zero). *)

From stdpp Require Import base list list_numbers.
From Stdlib Require Import ZArith Lia.

Set Warnings "-register-all".

#[local] Open Scope Z_scope.

(** ** Outcomes of a call *)

Inductive exception : Set :=
  | length_error
  | out_of_range
  | overflow_error
  | invalid_argument.

Inductive outcome (A : Type) : Type :=
  | Normal (a : A)
  | Throw (e : exception)
  | Undefined.

Arguments Normal {A} a.
Arguments Throw {A} e.
Arguments Undefined {A}.

#[global] Instance outcome_ret : MRet outcome := fun A a => Normal a.

#[global] Instance outcome_bind : MBind outcome := fun A B f m =>
  match m with
  | Normal a => f a
  | Throw e => Throw e
  | Undefined => Undefined
  end.

(** A mutating member function leaves a state behind on both exits: [Done]
    when it returns, [Raised] when an exception leaves it. *)
Inductive effect (S : Type) : Type :=
  | Done (s : S)
  | Raised (e : exception) (s : S)
  | Undef.

Arguments Done {S} s.
Arguments Raised {S} e s.
Arguments Undef {S}.

Definition and_then {S} (m : effect S) (k : S → effect S) : effect S :=
  match m with
  | Done s => k s
  | Raised e s => Raised e s
  | Undef => Undef
  end.

Notation "'do' s <- m ; k" := (and_then m (fun s => k))
  (at level 10, s name, m at level 100, k at level 200).

(** A value computed without touching the state, then used at state [s]. *)
Definition with_value {A S} (o : outcome A) (s : S) (k : A → effect S)
  : effect S :=
  match o with
  | Normal a => k a
  | Throw e => Raised e s
  | Undefined => Undef
  end.

(** [try { m } catch (...) { h; throw; }] *)
Definition catch_rethrow {S} (m : effect S) (h : S → effect S) : effect S :=
  match m with
  | Raised e s => do s' <- h s; Raised e s'
  | other => other
  end.

(** Monadic left fold: the body of a [for] loop run over the listed values. *)
Fixpoint for_each {A S} (body : S → A → outcome S) (s : S) (l : list A)
  : outcome S :=
  match l with
  | [] => Normal s
  | a :: l' => s' ← body s a; for_each body s' l'
  end.

Definition prod_list (l : list Z) : Z := foldr Z.mul 1 l.
Arguments prod_list : simpl never.

Definition b2z (b : bool) : Z := if b then 1 else 0.

(** ** Unsigned [size_type] arithmetic *)

Module SizeType.
Section size_type.
(** [std::numeric_limits<size_type>::digits] *)
Context (digits : positive).

Definition modulus : Z := 2 ^ Z.pos digits.
Definition size_max : Z := modulus - 1.
Definition wrap (x : Z) : Z := x mod modulus.
Definition add (a b : Z) : Z := wrap (a + b).
Definition mul (a b : Z) : Z := wrap (a * b).
Definition is_size (x : Z) : Prop := 0 ≤ x ≤ size_max.

(** [std::accumulate( b, e, size_type(1), std::multiplies<size_type>{} )] *)
Definition accumulate_mul (l : list Z) : Z := foldl mul 1 l.
End size_type.
End SizeType.

(** ** Built-in array rows *)

(** [row[i]] read; outside the row the behaviour is undefined. *)
Definition row_get (row : list Z) (i : Z) : outcome Z :=
  if i <? 0 then Undefined else
  match row !! Z.to_nat i with
  | Some v => Normal v
  | None => Undefined
  end.

(** [row[i] = v]; outside the row the behaviour is undefined. *)
Definition row_set (row : list Z) (i v : Z) : outcome (list Z) :=
  if i <? 0 then Undefined else
  if bool_decide (Z.to_nat i < length row)%nat
  then Normal (<[Z.to_nat i := v]> row)
  else Undefined.

(** [std::copy( b, e, std::begin(row) )]: the source overwrites a prefix. *)
Definition copy_into (src row : list Z) : list Z :=
  src ++ drop (length src) row.

(** ** [boost/utility/slice.hpp] *)

Module Slice.
Section slice.
Context {T : Type}.

(** An object of type [T] or of a built-in array type over it:
    [Elem x] is a non-array object, [Arr items] is [U[N]] with
    [N = length items]. *)
Inductive carray : Type :=
  | Elem (x : T)
  | Arr (items : list carray).

(** The built-in [t[u]]; [u] is any integer.  Outside the bound of the
    array, and on an object that is no array, nothing is defined. *)
Definition subscript (t : carray) (u : Z) : outcome carray :=
  match t with
  | Elem _ => Undefined
  | Arr items =>
      if u <? 0 then Undefined else
      match items !! Z.to_nat u with
      | Some t' => Normal t'
      | None => Undefined
      end
  end.

(** [slice( t, u, v... )]: [slice( t[u], v... )], and [slice( t )] is [t]. *)
Fixpoint slice (t : carray) (indices : list Z) : outcome carray :=
  match indices with
  | [] => Normal t
  | u :: v => t' ← subscript t u; slice t' v
  end.

(** [checked_slice( e, t, u, v... )] on a built-in array [T (&t)[N]]:
    [( u < u_type{} ) || ( cmp_type(u) >= cmp_type(N) ) ? throw e, CS : CS].
    The second test is only reached with [u] non-negative, where the
    conversions to [cmp_type] keep the values, so it compares the
    integers themselves. *)
Fixpoint checked_slice (e : exception) (t : carray) (indices : list Z)
  : outcome carray :=
  match indices with
  | [] => Normal t
  | u :: v =>
      match t with
      | Elem _ => Undefined
      | Arr items =>
          if (u <? 0) || (u >=? Z.of_nat (length items)) then Throw e
          else t' ← subscript t u; checked_slice e t' v
      end
  end.

(** The object a chain of subscripts refers to, assigned [x]: the effect
    of [slice( t, indices... ) = x] on [t]. *)
Fixpoint assign_through (t : carray) (indices : list Z) (x : T)
  : outcome carray :=
  match indices with
  | [] =>
      match t with
      | Elem _ => Normal (Elem x)
      | Arr _ => Undefined
      end
  | u :: v =>
      match t with
      | Elem _ => Undefined
      | Arr items =>
          t' ← subscript t u;
          t'' ← assign_through t' v x;
          Normal (Arr (<[Z.to_nat u := t'']> items))
      end
  end.

(** The elements in storage order: nested built-in arrays are laid out
    contiguously, row after row. *)
Fixpoint flatten (t : carray) : list T :=
  match t with
  | Elem x => [x]
  | Arr items => concat (map flatten items)
  end.

(** [t] has the type [T[n0][n1]...] for [shape = [n0; n1; ...]]. *)
Fixpoint has_shape (shape : list nat) (t : carray) : Prop :=
  match shape, t with
  | [], Elem _ => True
  | n :: rest, Arr items => length items = n ∧ Forall (has_shape rest) items
  | _, _ => False
  end.

(** Indices for the outermost dimensions, each inside its extent. *)
Fixpoint within (shape : list nat) (indices : list Z) : Prop :=
  match indices, shape with
  | [], _ => True
  | i :: indices', n :: shape' =>
      0 ≤ i < Z.of_nat n ∧ within shape' indices'
  | _ :: _, [] => False
  end.

(** [t] after its elements, taken in storage order, were assigned the
    values of [l] one after the other; elements beyond [l] keep theirs. *)
Fixpoint refill (t : carray) (l : list T) : carray :=
  match t with
  | Elem x => Elem (default x (head l))
  | Arr items =>
      Arr ((fix rows (items : list carray) (l : list T) : list carray :=
              match items with
              | [] => []
              | item :: items' =>
                  refill item l
                  :: rows items' (drop (length (flatten item)) l)
              end) items l)
  end.
End slice.
Arguments carray T : clear implicits.

(** The number of elements of [T[n0][n1]...]. *)
Definition extent_product (shape : list nat) : Z :=
  prod_list (map Z.of_nat shape).
End Slice.

(** ** [boost::container::array_md<T, Extents...>] *)

Module ArrayMD.
Import Slice.
Section array_md.
(** [std::numeric_limits<std::size_t>::digits] *)
Context (digits : positive).
Context {T : Type}.

#[local] Abbreviation mul := (SizeType.mul digits).

(** An object of [array_md<T, Extents...>]: the template arguments and
    the public member [data_block]. *)
Record array_md : Type := mk_array_md {
  Extents : list nat;
  data_block : carray T;
}.

(** [dimensionality]: [0u] in the base case, [1u + sizeof...( N )]. *)
Definition dimensionality (a : array_md) : nat := length (Extents a).

(** [static_sizes[] = { M, N... }] *)
Definition static_sizes (a : array_md) : list Z := map Z.of_nat (Extents a).

(** [static_size]: [1u] in the base case; otherwise
    [std::extent<data_type>::value *
     ( sizeof(direct_element_type) / sizeof(value_type) )]. *)
Definition static_size (a : array_md) : Z :=
  match static_sizes a with
  | [] => 1
  | M :: N => M * prod_list N
  end.

(** [size() const] *)
Definition size (a : array_md) : Z := static_size a.

(** [max_size() const] *)
Definition max_size (a : array_md) : Z := size a.

(** [empty() const]: [!size()] *)
Definition empty (a : array_md) : bool := size a =? 0.

(** [data()]: the [size()] elements, first to last. *)
Definition data (a : array_md) : list T := flatten (data_block a).

(** [*p] for [p = data() + start] *)
Definition deref (a : array_md) (start : Z) : outcome T :=
  if start <? 0 then Undefined else
  match data a !! Z.to_nat start with
  | Some x => Normal x
  | None => Undefined
  end.

(** [start += delta] on a pointer into [data()]: defined up to one past
    the last element. *)
Definition pointer_add (a : array_md) (start delta : Z) : outcome Z :=
  let p := start + delta in
  if (0 <=? p) && (p <=? static_size a) then Normal p else Undefined.

(** [operator []( size_type i )] of the recursive case. *)
Definition subscript_one (a : array_md) (i : Z) : outcome (carray T) :=
  subscript (data_block a) i.

(** The loop of [operator []( std::initializer_list<size_type> i ) const]:
    [stride /= *pfraction++; start += stride * ii;] *)
Fixpoint subscript_loop (a : array_md) (start stride : Z)
  (pfraction i : list Z) : outcome Z :=
  match i with
  | [] => Normal start
  | ii :: i' =>
      match pfraction with
      | [] => Undefined
      | n :: pfraction' =>
          if n =? 0 then Undefined else
          let stride := stride / n in
          start ← pointer_add a start (mul stride ii);
          subscript_loop a start stride pfraction' i'
      end
  end.

(** [operator []( std::initializer_list<size_type> i ) const] *)
Definition subscript_list (a : array_md) (i : list Z) : outcome T :=
  start ← subscript_loop a 0 (static_size a) (static_sizes a) i;
  deref a start.

(** [operator ()( std::initializer_list<size_type> i )]: the base case
    returns [data_block] whatever the list holds; the recursive case is
    [operator []( i )]. *)
Definition call_list (a : array_md) (i : list Z) : outcome T :=
  match Extents a with
  | [] =>
      match data_block a with
      | Elem x => Normal x
      | Arr _ => Undefined
      end
  | _ :: _ => subscript_list a i
  end.

(** Whether [data_block] has the type [data_type]:
    [std::conditional<static_size, data_type, std::aligned_storage<...>::type>].
    In an array without elements it is a placeholder instead, which can
    neither be indexed, nor returned as [data_type &], nor handed to
    [detail::array_apply]. *)
Definition has_data_type (a : array_md) : bool := negb (static_size a =? 0).

(** [operator ()( Indices &&...i )]; [None] when the call does not
    compile ([static_assert( sizeof...(i) <= dimensionality )], the
    base case only has [operator ()()], and [boost::slice] does not apply
    to the placeholder of an array without elements). *)
Definition call (a : array_md) (i : list Z) : option (outcome (carray T)) :=
  if bool_decide (length i ≤ dimensionality a)%nat && has_data_type a
  then Some (slice (data_block a) i)
  else None.

(** The loop of [at( std::initializer_list<size_type> i ) const]:
    [stride /= *pfraction;
     if ( ii >= *pfraction++ ) throw std::out_of_range{ ... };
     start += stride * ii;] *)
Fixpoint at_loop (a : array_md) (start stride : Z) (pfraction i : list Z)
  : outcome Z :=
  match i with
  | [] => Normal start
  | ii :: i' =>
      match pfraction with
      | [] => Undefined
      | n :: pfraction' =>
          if n =? 0 then Undefined else
          let stride := stride / n in
          if ii >=? n then Throw out_of_range else
          start ← pointer_add a start (mul stride ii);
          at_loop a start stride pfraction' i'
      end
  end.

(** [at( std::initializer_list<size_type> i ) const], both cases. *)
Definition at_list (a : array_md) (i : list Z) : outcome T :=
  match Extents a with
  | [] =>
      if negb (length i =? 0)%nat then Throw length_error else
      match data_block a with
      | Elem x => Normal x
      | Arr _ => Undefined
      end
  | _ :: _ =>
      if negb (length i =? dimensionality a)%nat then Throw length_error else
      start ← at_loop a 0 (static_size a) (static_sizes a) i;
      deref a start
  end.

(** [at( Indices &&...i )]; [None] when the call does not compile, which
    is when [operator ()( i... )] does not. *)
Definition at_ (a : array_md) (i : list Z) : option (outcome (carray T)) :=
  if bool_decide (length i ≤ dimensionality a)%nat && has_data_type a
  then Some (checked_slice out_of_range (data_block a) i)
  else None.

(** [arr( i... ) = x] *)
Definition assign (a : array_md) (i : list Z) (x : T) : outcome array_md :=
  t ← assign_through (data_block a) i x;
  Normal (mk_array_md (Extents a) t).

(** [front()]: [*begin()] *)
Definition front (a : array_md) : outcome T := deref a 0.

(** [back()]: [*(end() - 1)], with [end()] being [data() + size()]. *)
Definition back (a : array_md) : outcome T := deref a (size a - 1).

(** Aggregate initialisation with brace elision: the listed values fill
    the elements in storage order, the rest are value-initialised. *)
Fixpoint initialised (zero : T) (shape : list nat) (values : list T)
  : carray T :=
  match shape with
  | [] => Elem (default zero (head values))
  | n :: rest =>
      let width := fold_right Nat.mul 1%nat rest in
      Arr (map (fun k => initialised zero rest (drop (k * width) values))
               (seq 0 n))
  end.

Definition aggregate (zero : T) (shape : list nat) (values : list T)
  : array_md :=
  mk_array_md shape (initialised zero shape values).

(** An object of the class: the data block has the declared type, every
    extent after the first is positive, and the object fits in memory. *)
Definition well_formed (a : array_md) : Prop :=
  has_shape (Extents a) (data_block a)
  ∧ Forall (fun n => (0 < n)%nat) (tail (Extents a))
  ∧ static_size a ≤ SizeType.size_max digits.

(** *** Row-major offsets, in the words of the specification *)

(** The stride of a dimension: the product of the extents after it. *)
Fixpoint row_major_strides (shape : list Z) : list Z :=
  match shape with
  | [] => []
  | _ :: rest => prod_list rest :: row_major_strides rest
  end.

(** [offset = Σ i_k * stride_k] *)
Definition row_major_offset (shape indices : list Z) : Z :=
  foldr Z.add 0 (zip_with Z.mul indices (row_major_strides shape)).

(** Column-major strides: the stride of a dimension is the product of the
    extents before it ([acc] is the product so far). *)
Fixpoint column_major_strides (acc : Z) (shape : list Z) : list Z :=
  match shape with
  | [] => []
  | n :: rest => acc :: column_major_strides (acc * n) rest
  end.

Definition column_major_offset (shape indices : list Z) : Z :=
  foldr Z.add 0 (zip_with Z.mul indices (column_major_strides 1 shape)).

(** *** Flat access, [fill] and [apply] *)

(** [get<I>( a )]: [a.data()[ I ]]; [None] when the call does not compile
    ([static_assert( I < static_size )]). *)
Definition get (I : nat) (a : array_md) : option (outcome T) :=
  if bool_decide (Z.of_nat I < static_size a)
  then Some (deref a (Z.of_nat I))
  else None.

(** The object after its elements, in storage order, were assigned [l]. *)
Definition with_data (a : array_md) (l : list T) : array_md :=
  mk_array_md (Extents a) (refill (data_block a) l).

(** [fill( v )]: [for (value_type &x : *this) detail::deep_assign(x, v);] *)
Definition fill (a : array_md) (v : T) : array_md :=
  with_data a (map (fun _ => v) (data a)).

Section apply.
Context {St : Type}.
(** The visitor receives an element and its coordinates; it may change the
    element it was handed and its own state. *)
Context (f : T → list Z → St → T * St).

(** [for ( size_t i = 0u ; i < N ; ++i ) body( t[i], i );] *)
Fixpoint apply_rows (body : carray T → Z → St → outcome (carray T * St))
    (items : list (carray T)) (i : Z) (acc : St)
  : outcome (list (carray T) * St) :=
  match items with
  | [] => Normal ([], acc)
  | item :: rest =>
      r1 ← body item i acc;
      r2 ← apply_rows body rest (i + 1) r1.2;
      Normal (r1.1 :: r2.1, r2.2)
  end.

(** [detail::array_apply( std::integral_constant<std::size_t, L>{}, f, t,
    args... )]: at level 0 it calls [f( t, args... )], above it loops over
    [t[i]] with [i] appended to the arguments.  An object whose nesting is
    not [L] deep does not have the type the call was compiled for. *)
Fixpoint array_apply (L : nat) (t : carray T) (args : list Z) (acc : St)
  : outcome (carray T * St) :=
  match L with
  | O =>
      match t with
      | Elem x => let '(x', acc') := f x args acc in Normal (Elem x', acc')
      | Arr _ => Undefined
      end
  | S L' =>
      match t with
      | Arr items =>
          r ← apply_rows (fun item i => array_apply L' item (args ++ [i]))
                items 0 acc;
          Normal (Arr r.1, r.2)
      | Elem _ => Undefined
      end
  end.

(** [apply( f )]; [None] when the call does not compile: no overload of
    [detail::array_apply] takes the placeholder of an array without
    elements. *)
Definition apply (a : array_md) (acc : St)
  : option (outcome (array_md * St)) :=
  if has_data_type a
  then Some (r ← array_apply (dimensionality a) (data_block a) [] acc;
             Normal (mk_array_md (Extents a) r.1, r.2))
  else None.
End apply.

(** All index tuples of a shape, in lexicographic order. *)
Fixpoint index_tuples (shape : list nat) : list (list Z) :=
  match shape with
  | [] => [[]]
  | n :: rest =>
      flat_map (fun i => map (cons (Z.of_nat i)) (index_tuples rest))
               (seq 0 n)
  end.

(** *** Comparisons *)

(** The first place where two element sequences differ: they agree on the
    [k] elements before it and hold [x] and [y] there. *)
Definition first_difference (l r : list T) (k : nat) (x y : T) : Prop :=
  take k l = take k r ∧ l !! k = Some x ∧ r !! k = Some y ∧ x ≠ y.

Section comparisons.
(** [x == y] and [x < y] on elements; both arrays are taken with the same
    element type. *)
Context (eqb ltb : T → T → bool).

(** [std::equal( first1, last1, first2 )]; the second range is read as far
    as the first one goes. *)
Fixpoint equal_range (l r : list T) : outcome bool :=
  match l with
  | [] => Normal true
  | x :: l' =>
      match r with
      | [] => Undefined
      | y :: r' => if eqb x y then equal_range l' r' else Normal false
      end
  end.

(** [std::mismatch( first1, last1, first2 )]: the first pair of elements
    that differ, [None] for [last1]. *)
Fixpoint mismatch (l r : list T) : outcome (option (T * T)) :=
  match l with
  | [] => Normal None
  | x :: l' =>
      match r with
      | [] => Undefined
      | y :: r' => if eqb x y then mismatch l' r' else Normal (Some (x, y))
      end
  end.

(** [operator ==( l, r )] *)
Definition equal (l r : array_md) : outcome bool :=
  equal_range (data l) (data r).

(** [operator !=( l, r )]: [!(l == r)] *)
Definition not_equal (l r : array_md) : outcome bool :=
  b ← equal l r; Normal (negb b).

(** [operator <( l, r )]:
    [( s.first != l.end() ) && ( *s.first < *s.second )] *)
Definition less (l r : array_md) : outcome bool :=
  s ← mismatch (data l) (data r);
  Normal (match s with
          | Some (x, y) => ltb x y
          | None => false
          end).

(** [operator >( l, r )]: [operator <( r, l )] *)
Definition greater (l r : array_md) : outcome bool := less r l.

(** [operator >=( l, r )]: [not operator <( l, r )] *)
Definition greater_equal (l r : array_md) : outcome bool :=
  b ← less l r; Normal (negb b).

(** [operator <=( l, r )]: [not operator >( l, r )] *)
Definition less_equal (l r : array_md) : outcome bool :=
  b ← greater l r; Normal (negb b).
End comparisons.

(** *** Creation *)


End array_md.
Arguments array_md T : clear implicits.

(** [detail::convert_array<U>( t, seq<I...> )], the body of the conversion
    operator: [array_md<U, N...>{ {static_cast<U>( *(t.data() + I) )...} }]
    with [I...] being [0, ..., static_size - 1].  The base case converts
    its sole element the same way: [{static_cast<U>( data_block )}]. *)
Definition convert_array {T U : Type} (cast : T → U) (zero : U)
    (t : array_md T) : outcome (array_md U) :=
  values ← for_each (fun acc I => x ← deref t I; Normal (acc ++ [cast x]))
             [] (seqZ 0 (static_size t));
  Normal (aggregate zero (Extents t) values).

(** [remake_array<T, N...>( source )]:
    [array_md<T, N...> result{};
     std::transform( source.begin(), source.begin() +
       std::min(source.size(), result.size()), result.begin(), cast );] *)
Definition remake_array {T U : Type} (cast : U → T) (zero : T)
    (shape : list nat) (source : array_md U) : array_md T :=
  let result := aggregate zero shape [] in
  let n := Z.to_nat (Z.min (size source) (size result)) in
  with_data result (map cast (take n (data source))).
End ArrayMD.

(** ** [detail::multiarray_indexed_base<SizeType, Rank>] *)

Module MultiArray.
Section indexed_base.
Context (digits : positive).
(** The template parameter [Rank]. *)
Context (Rank : nat).

#[local] Abbreviation size_max := (SizeType.size_max digits).
#[local] Abbreviation wrap := (SizeType.wrap digits).
#[local] Abbreviation mul := (SizeType.mul digits).
#[local] Abbreviation add := (SizeType.add digits).
#[local] Abbreviation is_size := (SizeType.is_size digits).

Definition dimensionality : Z := Z.of_nat Rank.

(** Row length of [stats]: [dimensionality + !dimensionality]. *)
Definition slots : nat := (Rank + (if Rank is O then 1 else 0))%nat.

(** [size_type stats[3][dimensionality + !dimensionality]], one field per
    row ([extents_i], [priorities_i], [strides_i]). *)
Record indexed_base : Type := mk_indexed_base {
  stats_extents : list Z;
  stats_priorities : list Z;
  stats_strides : list Z;
}.

Definition set_extents (r : list Z) (s : indexed_base) : indexed_base :=
  mk_indexed_base r (stats_priorities s) (stats_strides s).
Definition set_priorities (r : list Z) (s : indexed_base) : indexed_base :=
  mk_indexed_base (stats_extents s) r (stats_strides s).
Definition set_strides (r : list Z) (s : indexed_base) : indexed_base :=
  mk_indexed_base (stats_extents s) (stats_priorities s) r.

(** [std::iota( b, e, size_type(0) )] over [n] places; [n] never exceeds
    [Rank], itself a [size_type] constant, so no value wraps. *)
Definition iota (n : nat) : list Z := seqZ 0 (Z.of_nat n).

(** [required_size() const] *)
Definition required_size (s : indexed_base) : outcome Z :=
  major_index ← row_get (stats_priorities s) 0;
  e ← row_get (stats_extents s) major_index;
  st ← row_get (stats_strides s) major_index;
  Normal (mul e st).

(** [extents() const]: [std::copy_n] of the first [dimensionality] places. *)
Definition extents (s : indexed_base) : list Z := take Rank (stats_extents s).

(** [priorities() const] *)
Definition priorities (s : indexed_base) : list Z :=
  take Rank (stats_priorities s).

(** The overflow loop of [update_extents]:
    [if ( *i > max / limit ) throw ...; else limit *= *i;]
    (dividing by a zero [limit] would be undefined). *)
Fixpoint overflow_loop (limit : Z) (e : list Z) : outcome Z :=
  match e with
  | [] => Normal limit
  | x :: e' =>
      if limit =? 0 then Undefined
      else if x >? size_max / limit then Throw overflow_error
      else overflow_loop (mul limit x) e'
  end.

(** [update_extents( eb, ee )] *)
Definition update_extents (e : list Z) (s : indexed_base)
  : effect indexed_base :=
  if existsb (fun x => x =? 0) e then Raised out_of_range s else
  with_value (overflow_loop 1 e) s (fun _ =>
  Done (set_extents (copy_into e (stats_extents s)) s)).

(** [std::is_permutation( b, e, d )] of the standard library, by its
    contract: whether some reordering of the [e - b] places starting at
    [d] equals the first range. *)
Definition is_permutation (l d : list Z) : bool :=
  bool_decide (l ≡ₚ take (length l) d).

(** [update_priorities( pb, pe )] *)
Definition update_priorities (p : list Z) (s : indexed_base)
  : effect indexed_base :=
  if existsb (fun x => x >=? dimensionality) p then Raised out_of_range s else
  let row_major_order := iota Rank in
  if negb (is_permutation p row_major_order)
  then Raised invalid_argument s
  else Done (set_priorities (copy_into p (stats_priorities s)) s).

(** One turn of the loop of [recalculate_strides]. *)
Definition strides_body (st : Z * indexed_base) (i : nat)
  : outcome (Z * indexed_base) :=
  let '(product, s) := st in
  which_index ← row_get (stats_priorities s) (Z.of_nat i);
  e ← row_get (stats_extents s) which_index;
  if e =? 0 then Undefined else
  let product := product / e in
  r ← row_set (stats_strides s) which_index product;
  Normal (product, set_strides r s).

(** [recalculate_strides()] *)
Definition recalculate_strides (s : indexed_base) : effect indexed_base :=
  let product := SizeType.accumulate_mul digits (stats_extents s) in
  with_value (for_each strides_body (product, s) (seq 0 Rank)) s
    (fun st => Done st.2).

(** [extents( stats_type const &e )] *)
Definition extents_set (e : list Z) (s : indexed_base)
  : effect indexed_base :=
  do s1 <- update_extents e s; recalculate_strides s1.

(** [priorities( stats_type const &p )] *)
Definition priorities_set (p : list Z) (s : indexed_base)
  : effect indexed_base :=
  do s1 <- update_priorities p s; recalculate_strides s1.

(** [use_row_major_order()] *)
Definition use_row_major_order (s : indexed_base) : effect indexed_base :=
  priorities_set (iota Rank) s.

(** [use_column_major_order()]: [x = dimensionality - 1u - i++]. *)
Definition use_column_major_order (s : indexed_base)
  : effect indexed_base :=
  priorities_set
    (map (fun i => wrap (wrap (dimensionality - 1) - Z.of_nat i)) (seq 0 Rank))
    s.

(** [extents_and_priorities( e, p )] *)
Definition extents_and_priorities (e p : list Z) (s : indexed_base)
  : effect indexed_base :=
  let save := extents s in
  do s1 <- update_extents e s;
  do s2 <- catch_rethrow (update_priorities p s1) (update_extents save);
  recalculate_strides s2.

(** The default constructor of the base: all extents 1, row-major
    priorities, all strides 1. *)
Definition indexed_base_default : indexed_base :=
  mk_indexed_base (replicate slots 1) (iota slots) (replicate slots 1).

(** [multiarray::resize_to_fit()], run by every constructor of
    [multiarray]; [csize] is [c.size()]. *)
Definition resize_to_fit (csize : Z) (s : indexed_base)
  : effect indexed_base :=
  let new_size :=
    if negb (dimensionality =? 0) && negb (csize =? 0) then csize else 1 in
  let e := replicate Rank 1 in
  let e := if bool_decide (e = []) then e else <[0%nat := new_size]> e in
  extents_set e s.

(** [multiarray( cc )] as far as the index state goes. *)
Definition construct (csize : Z) : effect indexed_base :=
  resize_to_fit csize indexed_base_default.

(** [indexes_to_offset( ib, ie )]:
    [std::inner_product( ib, ie, std::begin(stats[strides_i]), size_type(0) )];
    the second range is read as far as the first one goes. *)
Fixpoint inner_product_from (acc : Z) (indexes strides : list Z)
  : outcome Z :=
  match indexes with
  | [] => Normal acc
  | i :: indexes' =>
      match strides with
      | [] => Undefined
      | st :: strides' =>
          inner_product_from (add acc (mul i st)) indexes' strides'
      end
  end.

Definition indexes_to_offset (s : indexed_base) (indexes : list Z)
  : outcome Z :=
  inner_product_from 0 indexes (stats_strides s).

(** [throw_for_bad_indexes( ib, ie )] *)
Definition throw_for_bad_indexes (s : indexed_base) (indexes : list Z)
  : outcome unit :=
  if negb (length indexes =? Rank)%nat then Throw length_error else
  if existsb (fun '(i, e) => i >=? e) (zip indexes (stats_extents s))
  then Throw out_of_range
  else Normal tt.

(** [multiarray::get_offset( index_begin, index_end, throw_on_bad_input )] *)
Definition get_offset (s : indexed_base) (indexes : list Z)
  (throw_on_bad_input : bool) : outcome Z :=
  _ ← (if throw_on_bad_input then throw_for_bad_indexes s indexes
       else Normal tt);
  indexes_to_offset s indexes.

(** [first_index_pack() const]: a value-initialised [stats_type]. *)
Definition first_index_pack : list Z := replicate Rank 0.

(** One turn of the loop of [advance_index_pack]:
    [indexes[index] += turnover;
     turnover = indexes[index] >= stats[extents_i][index];
     indexes[index] *= !turnover;] *)
Definition advance_body (s : indexed_base) (st : bool * list Z) (i : nat)
  : outcome (bool * list Z) :=
  let '(turnover, indexes) := st in
  index ← row_get (stats_priorities s) (Z.of_nat i);
  v ← row_get indexes index;
  indexes ← row_set indexes index (add v (b2z turnover));
  v ← row_get indexes index;
  e ← row_get (stats_extents s) index;
  let turnover := v >=? e in
  indexes ← row_set indexes index (mul v (b2z (negb turnover)));
  Normal (turnover, indexes).

(** [advance_index_pack( indexes ) const]: [for ( auto i = dimensionality ;
    i-- ; )] runs the body for [Rank - 1] down to [0]. *)
Definition advance_index_pack (s : indexed_base) (indexes : list Z)
  : outcome (bool * list Z) :=
  for_each (advance_body s) (true, indexes) (reverse (seq 0 Rank)).

(** *** [multiarray::apply]

    The visitor [f] receives an element and its coordinates; it may change
    the element it was handed and its own state. *)
Section apply.
Context {A St : Type}.
Context (f : A → list Z → St → A * St).

(** [while ( limit-- ) { f( *current++, indexes... );
                         advance_index_pack( indexes ); }] *)
Fixpoint apply_loop (s : indexed_base) (limit current : nat)
  (indexes : list Z) (c : list A) (acc : St) : outcome (list A * St) :=
  match limit with
  | O => Normal (c, acc)
  | S limit' =>
      match c !! current with
      | None => Undefined
      | Some x =>
          let '(x', acc') := f x indexes acc in
          adv ← advance_index_pack s indexes;
          apply_loop s limit' (S current) adv.2
            (<[current := x']> c) acc'
      end
  end.

(** [apply( f )]; [c] is the wrapped container. *)
Definition apply (s : indexed_base) (c : list A) (acc : St)
  : outcome (list A * St) :=
  rs ← required_size s;
  let limit := Z.min rs (Z.of_nat (length c)) in
  apply_loop s (Z.to_nat limit) 0 first_index_pack c acc.

(** The visitor run over a list of calls, in order. *)
Fixpoint visit (calls : list (A * list Z)) (acc : St) : list A * St :=
  match calls with
  | [] => ([], acc)
  | (x, idx) :: rest =>
      let '(x', acc') := f x idx acc in
      let '(xs, acc'') := visit rest acc' in
      (x' :: xs, acc'')
  end.
End apply.

(** *** [detail::multiarray_storage_base]: element access and [fill] *)

Section storage.
Context {A : Type}.

(** [auto ci = c.begin(); std::advance( ci, offset ); return *ci;]:
    beyond the last element of the container nothing is defined. *)
Definition container_ref (c : list A) (offset : Z) : outcome A :=
  if offset <? 0 then Undefined else
  match c !! Z.to_nat offset with
  | Some x => Normal x
  | None => Undefined
  end.

(** [operator ()( std::initializer_list<size_type> i ) const], which
    [operator []( i )] and the variadic form forward to. *)
Definition element (s : indexed_base) (c : list A) (i : list Z) : outcome A :=
  offset ← get_offset s i false; container_ref c offset.

(** [at( std::initializer_list<size_type> i ) const], and its variadic
    form. *)
Definition element_checked (s : indexed_base) (c : list A) (i : list Z)
  : outcome A :=
  offset ← get_offset s i true; container_ref c offset.

(** [fill( v )]:
    [std::fill_n( std::begin(c), std::min(required_size(), size()), v )] *)
Definition fill (s : indexed_base) (c : list A) (v : A) : outcome (list A) :=
  rs ← required_size s;
  let n := Z.to_nat (Z.min rs (Z.of_nat (length c))) in
  Normal (replicate n v ++ drop n c).
End storage.

(** *** The odometer, in the words of the specification

    Starting from the least-major dimension, increment its coordinate; if
    it now equals its extent, reset it to zero and carry into the next
    more-major dimension; otherwise stop.  [order] lists the dimensions
    least-major first. *)
Fixpoint odometer_advance (order ext coords : list Z) : list Z :=
  match order with
  | [] => coords
  | d :: more_major =>
      let v := default 0 (coords !! Z.to_nat d) + 1 in
      if v =? default 0 (ext !! Z.to_nat d)
      then odometer_advance more_major ext (<[Z.to_nat d := 0]> coords)
      else <[Z.to_nat d := v]> coords
  end.

(** The [j]-th tuple of the counting sequence that starts at all zeros. *)
Definition odometer_tuple (s : indexed_base) (j : nat) : list Z :=
  Nat.iter j (odometer_advance (reverse (priorities s)) (extents s))
    (replicate Rank 0).

(** *** The class invariant *)

Definition extent_of (s : indexed_base) (d : Z) : Z :=
  default 0 (stats_extents s !! Z.to_nat d).

(** Product of the extents of the dimensions less major than the one at
    place [k] of the priority list. *)
Definition less_major_product (s : indexed_base) (k : nat) : Z :=
  prod_list (map (extent_of s) (drop (S k) (priorities s))).

(** Product of the extents of the dimensions from place [m] of the
    priority list on. *)
Definition places_product (s : indexed_base) (m : nat) : Z :=
  prod_list (map (extent_of s) (drop m (priorities s))).

Definition stride_of (s : indexed_base) (d : Z) : Z :=
  default 0 (stats_strides s !! Z.to_nat d).

(** What the coordinates of the dimensions [ds] add to the offset:
    the sum of [indexes[d] * strides[d]] over [ds]. *)
Definition place_value (s : indexed_base) (indexes ds : list Z) : Z :=
  foldr (fun d acc => default 0 (indexes !! Z.to_nat d) * stride_of s d + acc)
        0 ds.

Definition strides_cached (s : indexed_base) : Prop :=
  ∀ (k : nat) (d : Z), priorities s !! k = Some d →
    stats_strides s !! Z.to_nat d = Some (less_major_product s k).

(** What the setters validate and the constructors establish. *)
Record shape_ok (s : indexed_base) : Prop := mk_shape_ok {
  shape_extents_len : length (stats_extents s) = slots;
  shape_priorities_len : length (stats_priorities s) = slots;
  shape_strides_len : length (stats_strides s) = slots;
  shape_extents_pos : Forall (fun x => 0 < x) (extents s);
  shape_extents_fit : prod_list (extents s) ≤ size_max;
  shape_priorities_perm : priorities s ≡ₚ iota Rank;
  shape_rank0 : Rank = 0%nat →
    stats_extents s = [1] ∧ stats_priorities s = [0] ∧ stats_strides s = [1];
}.

Definition invariant (s : indexed_base) : Prop :=
  shape_ok s ∧ strides_cached s.

(** An index pack that [throw_for_bad_indexes] accepts: one coordinate per
    dimension, each below its extent. *)
Definition valid_pack (s : indexed_base) (indexes : list Z) : Prop :=
  Forall2 (fun v e => 0 ≤ v < e) indexes (extents s).

(** A [stats_type] argument: [Rank] values of [size_type]. *)
Definition stats_type (l : list Z) : Prop :=
  length l = Rank ∧ Forall is_size l.

(** The state a call leaves behind, whether it returned or threw. *)
Definition leaves (m : effect indexed_base) (s' : indexed_base) : Prop :=
  m = Done s' ∨ ∃ x, m = Raised x s'.

(** The index states a [multiarray] object can be in: built by a
    constructor, then changed only through the public setters. *)
Inductive reachable : indexed_base → Prop :=
  | reach_construct csize s :
      is_size csize → construct csize = Done s → reachable s
  | reach_extents e s s' :
      reachable s → stats_type e → leaves (extents_set e s) s' →
      reachable s'
  | reach_priorities p s s' :
      reachable s → stats_type p → leaves (priorities_set p s) s' →
      reachable s'
  | reach_extents_and_priorities e p s s' :
      reachable s → stats_type e → stats_type p →
      leaves (extents_and_priorities e p s) s' → reachable s'.

End indexed_base.
End MultiArray.

(** ** Sample objects *)

Module Samples.
(** [array_md<int, 2, 3> arr{ 2, 3, 5, 7, 11, 13 }] *)
Definition arr_2x3 : ArrayMD.array_md Z :=
  ArrayMD.aggregate 0 [2; 3]%nat [2; 3; 5; 7; 11; 13].

(** [array_md<int> single{ 5 }] *)
Definition single : ArrayMD.array_md Z :=
  ArrayMD.mk_array_md [] (Slice.Elem 5).

(** The index state of a [multiarray<int, 2>] built from a vector of ten
    elements, with an 8-bit [size_type]. *)
Definition ten_by_one : MultiArray.indexed_base :=
  MultiArray.mk_indexed_base [10; 1] [0; 1] [1; 1].

(** The index state of a [multiarray<int, 2>] after [extents( 3, 4 )]:
    row-major, strides [{ 4, 1 }]. *)
Definition three_by_four : MultiArray.indexed_base :=
  MultiArray.mk_indexed_base [3; 4] [0; 1] [4; 1].

(** A container of twelve elements, each holding its own position. *)
Definition twelve : list Z := [0; 1; 2; 3; 4; 5; 6; 7; 8; 9; 10; 11].

(** [array_md<int, 2, 3> other{ 2, 3, 5, 7, 11, 17 }] *)
Definition other_2x3 : ArrayMD.array_md Z :=
  ArrayMD.aggregate 0 [2; 3]%nat [2; 3; 5; 7; 11; 17].

(** A visitor that leaves the element alone and logs the call. *)
Definition log_call (x : Z) (idx : list Z) (log : list (Z * list Z))
  : Z * list (Z * list Z) :=
  (x, log ++ [(x, idx)]).
End Samples.

(** * Properties *)

(** ** Arithmetic helpers *)

Lemma prod_list_app (l1 l2 : list Z) :
  prod_list (l1 ++ l2) = prod_list l1 * prod_list l2.
Proof.
  induction l1 as [|x l1 IH].
  - change (prod_list []) with 1. simpl. lia.
  - change (prod_list ((x :: l1) ++ l2)) with (x * prod_list (l1 ++ l2)).
    change (prod_list (x :: l1)) with (x * prod_list l1).
    rewrite IH. lia.
Qed.

Lemma prod_list_cons (x : Z) (l : list Z) : prod_list (x :: l) = x * prod_list l.
Proof. reflexivity. Qed.

Lemma prod_list_pos (l : list Z) : Forall (fun x => 0 < x) l → 0 < prod_list l.
Proof.
  induction 1 as [|x l Hx _ IH]; [reflexivity|].
  rewrite prod_list_cons. lia.
Qed.

Lemma prod_list_perm (l1 l2 : list Z) : l1 ≡ₚ l2 → prod_list l1 = prod_list l2.
Proof.
  induction 1 as [|x l1 l2 _ IH|x y l|l1 l2 l3 _ IH1 _ IH2];
    rewrite ?prod_list_cons; try lia; congruence.
Qed.

Lemma existsb_eq_zero (e : list Z) : existsb (fun x => x =? 0) e = true ↔ 0 ∈ e.
Proof.
  rewrite existsb_exists. split.
  - intros (x & Hin & Hx). apply Z.eqb_eq in Hx. subst x.
    by apply list_elem_of_In.
  - intros Hin. exists 0. split; [by apply list_elem_of_In | reflexivity].
Qed.

Lemma nonzero_sizes_pos (digits : positive) (e : list Z) :
  Forall (SizeType.is_size digits) e → 0 ∉ e → Forall (fun x => 0 < x) e.
Proof.
  intros Hsz Hnz. apply Forall_forall. intros x Hx.
  rewrite Forall_forall in Hsz. destruct (Hsz x Hx) as [H0 _].
  assert (x ≠ 0) by (intros ->; contradiction). lia.
Qed.

Module SizeTypeFacts.
Section facts.
Context (digits : positive).

Lemma modulus_pos : 0 < SizeType.modulus digits.
Proof. unfold SizeType.modulus. apply Z.pow_pos_nonneg; lia. Qed.

Lemma size_max_pos : 1 ≤ SizeType.size_max digits.
Proof.
  unfold SizeType.size_max, SizeType.modulus.
  assert (2 ^ 1 ≤ 2 ^ Z.pos digits) by (apply Z.pow_le_mono_r; lia).
  lia.
Qed.

Lemma wrap_small (x : Z) :
  0 ≤ x ≤ SizeType.size_max digits → SizeType.wrap digits x = x.
Proof.
  unfold SizeType.wrap, SizeType.size_max. intros H.
  apply Z.mod_small. lia.
Qed.

Lemma mul_small (a b : Z) :
  0 ≤ a → 0 ≤ b → a * b ≤ SizeType.size_max digits →
  SizeType.mul digits a b = a * b.
Proof. intros. unfold SizeType.mul. apply wrap_small. nia. Qed.

(** A wrapping product of positive factors is exact while the exact
    product fits. *)
Lemma accumulate_mul_exact (l : list Z) (acc : Z) :
  0 < acc → Forall (fun x => 0 < x) l →
  acc * prod_list l ≤ SizeType.size_max digits →
  foldl (SizeType.mul digits) acc l = acc * prod_list l.
Proof.
  intros Hacc Hl. revert acc Hacc.
  induction Hl as [|x l Hx Hl IH]; intros acc Hacc Hfit; simpl.
  - unfold prod_list. simpl. lia.
  - rewrite prod_list_cons in *.
    pose proof (prod_list_pos l Hl) as Hp.
    rewrite mul_small by nia.
    rewrite IH by nia. lia.
Qed.
End facts.
End SizeTypeFacts.

(** ** Rows *)

Lemma row_get_lookup (row : list Z) (i : nat) (v : Z) :
  row !! i = Some v → row_get row (Z.of_nat i) = Normal v.
Proof.
  intros H. unfold row_get.
  destruct (Z.ltb_spec (Z.of_nat i) 0) as [?|_]; [lia|].
  by rewrite Nat2Z.id, H.
Qed.

Lemma row_get_lookup_Z (row : list Z) (d v : Z) :
  0 ≤ d → row !! Z.to_nat d = Some v → row_get row d = Normal v.
Proof.
  intros Hd H. rewrite <- (Z2Nat.id d) by done. by apply row_get_lookup.
Qed.

Lemma row_set_insert (row : list Z) (d v : Z) :
  0 ≤ d → (Z.to_nat d < length row)%nat →
  row_set row d v = Normal (<[Z.to_nat d := v]> row).
Proof.
  intros Hd Hlt. unfold row_set.
  destruct (Z.ltb_spec d 0) as [?|_]; [lia|].
  by rewrite bool_decide_eq_true_2.
Qed.

Lemma copy_into_length (src row : list Z) :
  (length src ≤ length row)%nat → length (copy_into src row) = length row.
Proof. intros H. unfold copy_into. rewrite length_app, length_drop. lia. Qed.

Lemma copy_into_take (src row : list Z) :
  take (length src) (copy_into src row) = src.
Proof. unfold copy_into. apply take_app_length. Qed.

Lemma copy_into_take_same (n : nat) (row : list Z) :
  copy_into (take n row) row = row.
Proof.
  unfold copy_into. rewrite length_take.
  destruct (Nat.le_gt_cases n (length row)) as [H|H].
  - rewrite Nat.min_l by done. apply take_drop.
  - rewrite Nat.min_r by lia. rewrite take_ge, drop_all by lia.
    apply app_nil_r.
Qed.

Lemma copy_into_twice (a b row : list Z) :
  length a = length b → copy_into a (copy_into b row) = copy_into a row.
Proof.
  intros Hlen. unfold copy_into. f_equal.
  rewrite Hlen. by rewrite drop_app_length.
Qed.

Lemma prod_list_ge_elem (l : list Z) (x : Z) :
  Forall (fun y => 0 < y) l → x ∈ l → x ≤ prod_list l.
Proof.
  induction 1 as [|y l Hy Hl IH]; intros Hin.
  - by apply elem_of_nil in Hin.
  - rewrite prod_list_cons. pose proof (prod_list_pos l Hl).
    apply elem_of_cons in Hin as [->|Hin]; [nia|].
    specialize (IH Hin). nia.
Qed.

(** ** Storage of uniform rows *)

Lemma concat_uniform_length {A} (ls : list (list A)) (w : nat) :
  Forall (fun l => length l = w) ls → length (concat ls) = (length ls * w)%nat.
Proof.
  induction 1 as [|l ls Hl _ IH]; [done|].
  cbn [concat length]. rewrite length_app, IH, Hl. lia.
Qed.

Lemma concat_uniform_lookup {A} (ls : list (list A)) (w : nat) :
  Forall (fun l => length l = w) ls →
  ∀ (i j : nat) (l : list A), ls !! i = Some l → (j < w)%nat →
    concat ls !! (i * w + j)%nat = l !! j.
Proof.
  induction 1 as [|l0 ls Hl0 _ IH]; intros i j l Hi Hj; [done|].
  cbn [concat]. destruct i as [|i].
  - injection Hi as ->. rewrite lookup_app_l by lia. done.
  - rewrite lookup_app_r by lia.
    replace (S i * w + j - length l0)%nat with (i * w + j)%nat by lia.
    by apply IH.
Qed.

Lemma concat_uniform_insert {A} (ls : list (list A)) (w : nat) (x : A) :
  Forall (fun l => length l = w) ls →
  ∀ (i j : nat) (l : list A), ls !! i = Some l → (j < w)%nat →
    <[(i * w + j)%nat := x]> (concat ls) = concat (<[i := <[j := x]> l]> ls).
Proof.
  induction 1 as [|l0 ls Hl0 _ IH]; intros i j l Hi Hj; [done|].
  cbn [concat]. destruct i as [|i].
  - injection Hi as ->. cbn [insert list_insert concat].
    rewrite insert_app_l by lia. done.
  - cbn [insert list_insert concat].
    replace (S i * w + j)%nat with (length l0 + (i * w + j))%nat by lia.
    rewrite insert_app_r. f_equal. by apply IH.
Qed.

(** ** Chains of subscripts *)

Module SliceFacts.
Import Slice.
Section facts.
Context {T : Type}.
Implicit Types (t : carray T) (shape : list nat) (indices : list Z).

Lemma extent_product_cons (n : nat) shape :
  extent_product (n :: shape) = Z.of_nat n * extent_product shape.
Proof. reflexivity. Qed.

Lemma extent_product_nonneg shape : 0 ≤ extent_product shape.
Proof.
  induction shape as [|n shape IH]; [unfold extent_product; simpl; done|].
  rewrite extent_product_cons. lia.
Qed.

Lemma flatten_length shape : ∀ t,
  has_shape shape t →
  Z.of_nat (length (flatten t)) = extent_product shape.
Proof.
  induction shape as [|n shape IH]; intros [x|items] Hsh; try done.
  destruct Hsh as [Hlen Hall]. cbn [flatten].
  rewrite extent_product_cons.
  rewrite (concat_uniform_length _ (Z.to_nat (extent_product shape))).
  - rewrite length_map, Hlen.
    pose proof (extent_product_nonneg shape). lia.
  - apply Forall_map. eapply Forall_impl; [exact Hall|].
    intros t Ht. cbn. specialize (IH t Ht). lia.
Qed.

(** Inside the extents the checked chain is the unchecked chain, and it
    yields the sub-array with the remaining extents. *)
Lemma slice_within (e : exception) shape : ∀ t indices,
  has_shape shape t → within shape indices →
  ∃ t', slice t indices = Normal t'
        ∧ checked_slice e t indices = Normal t'
        ∧ has_shape (drop (length indices) shape) t'.
Proof.
  induction shape as [|n shape IH]; intros t [|u v] Hsh Hin;
    try (by exists t); try done.
  destruct t as [x|items]; [done|]. destruct Hsh as [Hlen Hall].
  destruct Hin as [Hu Hv].
  destruct (lookup_lt_is_Some_2 items (Z.to_nat u)) as [t' Ht']; [lia|].
  rewrite Forall_lookup in Hall.
  destruct (IH t' v (Hall _ _ Ht') Hv) as (t'' & Hs & Hc & Hsh').
  exists t''. cbn [slice checked_slice subscript].
  destruct (Z.ltb_spec u 0) as [?|_]; [lia|].
  destruct (Z.geb_spec u (Z.of_nat (length items))) as [?|_]; [lia|].
  rewrite Ht'. cbn [orb mbind outcome_bind]. done.
Qed.
(** Outside the extents the checked chain throws the exception it was
    given, before any subscript out of bounds is evaluated. *)
Lemma checked_slice_outside (e : exception) shape : ∀ t indices,
  has_shape shape t → (length indices ≤ length shape)%nat →
  ¬ within shape indices → checked_slice e t indices = Throw e.
Proof.
  induction shape as [|n shape IH]; intros t [|u v] Hsh Hlen Hout;
    cbn [length] in Hlen; try lia; try (by destruct Hout).
  destruct t as [x|items]; [done|]. destruct Hsh as [Hn Hall].
  cbn [checked_slice subscript].
  destruct (Z.ltb_spec u 0) as [?|Hu0]; [done|].
  destruct (Z.geb_spec u (Z.of_nat (length items))) as [?|Hun]; [done|].
  cbn [orb].
  destruct (lookup_lt_is_Some_2 items (Z.to_nat u)) as [t' Ht']; [lia|].
  rewrite Ht'. cbn [mbind outcome_bind].
  rewrite Forall_lookup in Hall.
  apply (IH t' v (Hall _ _ Ht')); [lia|].
  intros Hv. apply Hout. split; [lia|done].
Qed.

Lemma row_major_offset_cons (n i : Z) (shape indices : list Z) :
  ArrayMD.row_major_offset (n :: shape) (i :: indices) =
  i * prod_list shape + ArrayMD.row_major_offset shape indices.
Proof. reflexivity. Qed.

Lemma row_major_offset_nil (shape : list Z) :
  ArrayMD.row_major_offset shape [] = 0.
Proof. reflexivity. Qed.

(** The offset of an in-range prefix stays inside the array, with room
    for the sub-array it selects. *)
Lemma row_major_offset_bound shape : ∀ indices,
  within shape indices →
  0 ≤ ArrayMD.row_major_offset (map Z.of_nat shape) indices
  ∧ ArrayMD.row_major_offset (map Z.of_nat shape) indices
    + extent_product (drop (length indices) shape)
    ≤ extent_product shape.
Proof.
  induction shape as [|n shape IH]; intros [|u v] Hin; try done.
  destruct Hin as [Hu Hv]. specialize (IH v Hv).
  cbn [map length drop]. rewrite row_major_offset_cons.
  rewrite extent_product_cons. fold (extent_product shape).
  pose proof (extent_product_nonneg shape).
  pose proof (extent_product_nonneg (drop (length v) shape)). nia.
Qed.

(** A full in-range tuple selects the element stored at its row-major
    offset. *)
Lemma slice_full shape : ∀ t indices,
  has_shape shape t → length indices = length shape →
  within shape indices →
  let off := ArrayMD.row_major_offset (map Z.of_nat shape) indices in
  0 ≤ off < extent_product shape
  ∧ ∃ x, slice t indices = Normal (Elem x)
         ∧ flatten t !! Z.to_nat off = Some x.
Proof.
  induction shape as [|n shape IH]; intros t [|u v] Hsh Hlen Hin;
    try done.
  - destruct t as [x|]; [|done]. split; [done|]. by exists x.
  - destruct t as [x|items]; [done|]. destruct Hsh as [Hn Hall].
    destruct Hin as [Hu Hv]. cbn [length] in Hlen.
    destruct (lookup_lt_is_Some_2 items (Z.to_nat u)) as [t' Ht']; [lia|].
    pose proof Hall as Hall'. rewrite Forall_lookup in Hall'.
    destruct (IH t' v (Hall' _ _ Ht') ltac:(lia) Hv) as (Hoff & x & Hs & Hx).
    cbv zeta. cbn [map]. rewrite row_major_offset_cons.
    fold (extent_product shape). rewrite extent_product_cons.
    set (off := ArrayMD.row_major_offset (map Z.of_nat shape) v) in *.
    set (P := extent_product shape) in *.
    split; [nia|]. exists x. split.
    + cbn [slice subscript].
      destruct (Z.ltb_spec u 0) as [?|_]; [lia|].
      rewrite Ht'. cbn [mbind outcome_bind]. done.
    + cbn [flatten].
      replace (Z.to_nat (u * P + off))
        with (Z.to_nat u * Z.to_nat P + Z.to_nat off)%nat by nia.
      assert (Forall (fun l => length l = Z.to_nat P) (map flatten items))
        as Huni.
      { apply Forall_map. eapply Forall_impl; [exact Hall|].
        intros t0 Ht0. cbn. pose proof (flatten_length shape t0 Ht0).
        unfold P. lia. }
      rewrite (concat_uniform_lookup _ _ Huni _ _ (flatten t')).
      * done.
      * change (map flatten items) with (flatten <$> items).
        by rewrite list_lookup_fmap, Ht'.
      * lia.
Qed.

(** Assigning through a full in-range tuple changes the one element at
    the row-major offset and nothing else. *)
Lemma assign_full (x : T) shape : ∀ t indices,
  has_shape shape t → length indices = length shape →
  within shape indices →
  let off := ArrayMD.row_major_offset (map Z.of_nat shape) indices in
  ∃ t', assign_through t indices x = Normal t'
        ∧ has_shape shape t'
        ∧ flatten t' = <[Z.to_nat off := x]> (flatten t).
Proof.
  induction shape as [|n shape IH]; intros t [|u v] Hsh Hlen Hin;
    try done.
  - destruct t as [y|]; [|done]. by exists (Elem x).
  - destruct t as [y|items]; [done|]. destruct Hsh as [Hn Hall].
    destruct Hin as [Hu Hv]. cbn [length] in Hlen.
    destruct (lookup_lt_is_Some_2 items (Z.to_nat u)) as [t' Ht']; [lia|].
    pose proof Hall as Hall'. rewrite Forall_lookup in Hall'.
    destruct (IH t' v (Hall' _ _ Ht') ltac:(lia) Hv) as (t'' & Ha & Hsh' & Hfl).
    destruct (slice_full shape t' v (Hall' _ _ Ht') ltac:(lia) Hv)
      as (Hoff & _).
    cbv zeta in *. cbn [map]. rewrite row_major_offset_cons.
    fold (extent_product shape).
    set (off := ArrayMD.row_major_offset (map Z.of_nat shape) v) in *.
    set (P := extent_product shape) in *.
    exists (Arr (<[Z.to_nat u := t'']> items)). split; [|split].
    + cbn [assign_through subscript].
      destruct (Z.ltb_spec u 0) as [?|_]; [lia|].
      rewrite Ht'. cbn [mbind outcome_bind]. rewrite Ha. done.
    + split; [by rewrite length_insert|]. by apply Forall_insert.
    + cbn [flatten].
      replace (Z.to_nat (u * P + off))
        with (Z.to_nat u * Z.to_nat P + Z.to_nat off)%nat by nia.
      assert (Forall (fun l => length l = Z.to_nat P) (map flatten items))
        as Huni.
      { apply Forall_map. eapply Forall_impl; [exact Hall|].
        intros t0 Ht0. cbn. pose proof (flatten_length shape t0 Ht0).
        unfold P. lia. }
      rewrite (concat_uniform_insert _ _ x Huni _ _ (flatten t')).
      * rewrite <- Hfl.
        change (map flatten ?l) with (flatten <$> l).
        by rewrite list_fmap_insert.
      * change (map flatten items) with (flatten <$> items).
        by rewrite list_lookup_fmap, Ht'.
      * lia.
Qed.
End facts.
End SliceFacts.

(** ** The fixed-shape array *)

Module ArrayMDFacts.
Import Slice ArrayMD SliceFacts.
Section facts.
Context (digits : positive) {T : Type}.
Implicit Types (a : array_md T) (i : list Z).

#[local] Abbreviation size_max := (SizeType.size_max digits).

Lemma static_size_product a : static_size a = extent_product (Extents a).
Proof.
  unfold static_size, static_sizes, extent_product.
  by destruct (Extents a).
Qed.

(** When the variadic accessors compile. *)
Lemma call_compiles a i :
  (length i ≤ dimensionality a)%nat → 0 < static_size a →
  call a i = Some (slice (data_block a) i).
Proof.
  intros Hlen Hsz. unfold call, has_data_type.
  rewrite bool_decide_eq_true_2 by done.
  by destruct (Z.eqb_spec (static_size a) 0); [lia|].
Qed.

Lemma at_compiles a i :
  (length i ≤ dimensionality a)%nat → 0 < static_size a →
  at_ a i = Some (checked_slice out_of_range (data_block a) i).
Proof.
  intros Hlen Hsz. unfold at_, has_data_type.
  rewrite bool_decide_eq_true_2 by done.
  by destruct (Z.eqb_spec (static_size a) 0); [lia|].
Qed.

Lemma placeholder_no_access a i :
  static_size a = 0 → call a i = None ∧ at_ a i = None.
Proof.
  intros H0. unfold call, at_, has_data_type. rewrite H0. cbn [Z.eqb negb].
  by rewrite andb_false_r.
Qed.

Lemma data_length a :
  has_shape (Extents a) (data_block a) →
  Z.of_nat (length (data a)) = static_size a.
Proof.
  intros Hsh. rewrite static_size_product. by apply flatten_length.
Qed.

(** Both list loops on in-range indices: no bound is hit and the
    pointer ends at the row-major offset. *)
Lemma loops_within a (shape : list nat) : ∀ i (start : Z),
  within shape i → 0 ≤ start →
  start + extent_product shape ≤ static_size a →
  static_size a ≤ size_max →
  let off := row_major_offset (map Z.of_nat shape) i in
  subscript_loop digits a start (extent_product shape)
    (map Z.of_nat shape) i = Normal (start + off)
  ∧ at_loop digits a start (extent_product shape)
      (map Z.of_nat shape) i = Normal (start + off).
Proof.
  induction shape as [|n shape IH]; intros [|u v] start Hin H0 Hroom Hfit;
    try done.
  { cbv zeta. rewrite row_major_offset_nil, Z.add_0_r. done. }
  { cbv zeta. rewrite row_major_offset_nil, Z.add_0_r. done. }
  destruct Hin as [Hu Hv]. cbv zeta. cbn [map].
  rewrite row_major_offset_cons. fold (extent_product shape).
  rewrite extent_product_cons in *.
  pose proof (extent_product_nonneg shape) as HP.
  set (P := extent_product shape) in *.
  cbn [subscript_loop at_loop].
  destruct (Z.eqb_spec (Z.of_nat n) 0) as [?|_]; [lia|].
  destruct (Z.geb_spec u (Z.of_nat n)) as [?|_]; [lia|].
  rewrite Z.mul_comm, Z.div_mul by lia.
  rewrite SizeTypeFacts.mul_small by nia.
  unfold pointer_add.
  replace ((0 <=? start + P * u) && (start + P * u <=? static_size a))
    with true.
  2:{ symmetry. apply andb_true_iff. split; apply Z.leb_le; nia. }
  cbn [mbind outcome_bind].
  destruct (IH v (start + P * u) Hv) as [Hs Ha]; [nia|nia|done|].
  cbv zeta in Hs, Ha. rewrite Hs, Ha.
  replace (start + P * u + row_major_offset (map Z.of_nat shape) v)
    with (start + (u * P + row_major_offset (map Z.of_nat shape) v)) by lia.
  done.
Qed.

(** The loop of [at] when no extent is zero: it throws exactly on an
    index that is not below its extent. *)
Lemma at_loop_cases a (shape : list nat) : ∀ i (start : Z),
  Forall (fun n => (0 < n)%nat) shape → length i = length shape →
  Forall (fun u => 0 ≤ u) i → 0 ≤ start →
  start + extent_product shape ≤ static_size a →
  static_size a ≤ size_max →
  (within shape i ∨
   at_loop digits a start (extent_product shape) (map Z.of_nat shape) i
     = Throw out_of_range)
  ∧ (within shape i →
     at_loop digits a start (extent_product shape) (map Z.of_nat shape) i
       ≠ Throw out_of_range).
Proof.
  intros i start Hpos Hlen Hnn H0 Hroom Hfit. split.
  2:{ intros Hin. destruct (loops_within a shape i start) as [_ ->]; done. }
  revert i start Hlen Hnn H0 Hroom.
  induction Hpos as [|n shape Hn Hpos IH]; intros [|u v] start Hlen Hnn H0 Hroom;
    try done; [by left|].
  apply Forall_cons in Hnn as [Hu Hnn].
  rewrite extent_product_cons in *.
  pose proof (extent_product_nonneg shape) as HP.
  set (P := extent_product shape) in *.
  cbn [map at_loop within].
  destruct (Z.eqb_spec (Z.of_nat n) 0) as [?|_]; [lia|].
  destruct (Z.geb_spec u (Z.of_nat n)) as [?|Hlt]; [by right|].
  rewrite Z.mul_comm, Z.div_mul by lia.
  rewrite SizeTypeFacts.mul_small by nia.
  unfold pointer_add.
  replace ((0 <=? start + P * u) && (start + P * u <=? static_size a))
    with true.
  2:{ symmetry. apply andb_true_iff. split; apply Z.leb_le; nia. }
  cbn [mbind outcome_bind].
  destruct (IH v (start + P * u)) as [Hin|Hthrow];
    [by injection Hlen|done|nia|nia| |].
  - left. split; [lia|done].
  - by right.
Qed.

(** Reading at the offset of a full in-range tuple. *)
Lemma element_at_offset a i :
  well_formed digits a → length i = dimensionality a →
  within (Extents a) i →
  let off := row_major_offset (static_sizes a) i in
  0 ≤ off < size a
  ∧ ∃ x, call a i = Some (Normal (Elem x))
         ∧ at_ a i = Some (Normal (Elem x))
         ∧ call_list digits a i = Normal x
         ∧ at_list digits a i = Normal x
         ∧ data a !! Z.to_nat off = Some x.
Proof.
  intros (Hsh & Hpos & Hfit) Hlen Hin. cbv zeta.
  destruct (slice_full _ _ _ Hsh Hlen Hin) as (Hoff & x & Hs & Hx).
  destruct (slice_within out_of_range _ _ _ Hsh Hin) as (t' & Hs' & Hc & _).
  cbv zeta in Hoff, Hx. fold (static_sizes a) in Hoff, Hx.
  unfold size. rewrite static_size_product. split; [done|].
  exists x.
  assert (deref a (row_major_offset (static_sizes a) i) = Normal x) as Hd.
  { unfold deref. destruct (Z.ltb_spec (row_major_offset (static_sizes a) i) 0);
      [lia|]. unfold data. by rewrite Hx. }
  destruct (loops_within a (Extents a) i 0 Hin) as [Hsl Hal];
    [done|rewrite static_size_product; lia|done|].
  cbv zeta in Hsl, Hal. fold (static_sizes a) in Hsl, Hal.
  rewrite <- static_size_product, Z.add_0_l in Hsl, Hal.
  split; [|split; [|split; [|split; [|done]]]].
  - rewrite call_compiles by (rewrite ?static_size_product; lia).
    by rewrite Hs.
  - rewrite at_compiles by (rewrite ?static_size_product; lia).
    rewrite Hc. congruence.
  - unfold call_list. destruct (Extents a) as [|M N] eqn:HE.
    + destruct i; [|done]. cbn in Hs. by destruct (data_block a); simplify_eq.
    + unfold subscript_list. rewrite Hsl. cbn [mbind outcome_bind]. done.
  - unfold at_list. destruct (Extents a) as [|M N] eqn:HE.
    + destruct i; [|done]. cbn in Hs.
      cbn [length Nat.eqb negb]. by destruct (data_block a); simplify_eq.
    + rewrite (proj2 (Nat.eqb_eq _ _) Hlen). cbn [negb].
      rewrite Hal. cbn [mbind outcome_bind]. done.
Qed.
Lemma within_length (shape : list nat) : ∀ i,
  within shape i → (length i ≤ length shape)%nat.
Proof.
  induction shape as [|n shape IH]; intros [|u v] Hin; cbn [length];
    try done; try lia.
  destruct Hin as [_ Hv]. specialize (IH v Hv). lia.
Qed.

Lemma within_dec (shape : list nat) : ∀ i,
  within shape i ∨ ¬ within shape i.
Proof.
  induction shape as [|n shape IH]; intros [|u v]; cbn [within];
    try (by left); try (right; tauto).
  destruct (IH v) as [?|?]; [|right; tauto].
  destruct (decide (0 ≤ u < Z.of_nat n)); [by left|right; tauto].
Qed.

(** Assignment through a full in-range tuple. *)
Lemma assign_at_offset a i (v : T) :
  well_formed digits a → length i = dimensionality a →
  within (Extents a) i →
  ∃ a', assign a i v = Normal a'
        ∧ well_formed digits a' ∧ Extents a' = Extents a
        ∧ data a' = <[Z.to_nat (row_major_offset (static_sizes a) i) := v]>
                      (data a).
Proof.
  intros (Hsh & Hpos & Hfit) Hlen Hin.
  destruct (assign_full v _ _ _ Hsh Hlen Hin) as (t' & Ha & Hsh' & Hfl).
  exists (mk_array_md (Extents a) t'). unfold assign. rewrite Ha.
  split; [done|]. split; [by split|]. split; [done|]. exact Hfl.
Qed.

(** More indices than extents: the list loop runs off [static_sizes]. *)
Lemma subscript_loop_over_arity a : ∀ (pfraction i : list Z) (start stride : Z),
  (length pfraction < length i)%nat →
  subscript_loop digits a start stride pfraction i = Undefined.
Proof.
  induction pfraction as [|n pfraction IH]; intros [|u v] start stride Hlen;
    cbn [length] in Hlen; try lia; try done.
  cbn [subscript_loop]. destruct (n =? 0); [done|].
  unfold pointer_add. destruct (_ && _); [|done].
  cbn [mbind outcome_bind]. apply IH. lia.
Qed.

Lemma subscript_loop_no_throw a : ∀ (i pfraction : list Z) (start stride : Z)
    (e : exception),
  subscript_loop digits a start stride pfraction i ≠ Throw e.
Proof.
  induction i as [|u v IH]; intros [|n pfraction] start stride e; try done.
  cbn [subscript_loop]. destruct (n =? 0); [done|].
  unfold pointer_add. destruct (_ && _); [|done].
  cbn [mbind outcome_bind]. apply IH.
Qed.

(** X21.  [at( std::initializer_list )] on an array without a zero
    extent: it throws [std::length_error] exactly when the number of
    indices is not the rank, throws [std::out_of_range] exactly when the
    number is right and some index is not below its extent, and otherwise
    returns the element of [data()] at the row-major offset of the
    indices. *)
Lemma at_list_positive_extents a i :
  well_formed digits a → Forall (fun n => (0 < n)%nat) (Extents a) →
  Forall (SizeType.is_size digits) i →
  (at_list digits a i = Throw length_error ↔ length i ≠ dimensionality a)
  ∧ (at_list digits a i = Throw out_of_range
     ↔ length i = dimensionality a ∧ ¬ within (Extents a) i)
  ∧ (length i = dimensionality a → within (Extents a) i →
     ∃ x, at_list digits a i = Normal x
          ∧ data a !! Z.to_nat (row_major_offset (static_sizes a) i) = Some x).
Proof.
  intros Hwf Hpos Hsz.
  assert (Forall (fun u => 0 ≤ u) i) as Hnn.
  { eapply Forall_impl; [exact Hsz|]. by intros u [? _]. }
  destruct (decide (length i = dimensionality a)) as [Hlen|Hlen].
  - destruct (within_dec (Extents a) i) as [Hin|Hout].
    + destruct (element_at_offset a i Hwf Hlen Hin)
        as (_ & x & _ & _ & _ & Hat & Hx).
      rewrite Hat. split; [|split]; [done| |by exists x].
      split; [done|]. by intros [_ ?].
    + assert (at_list digits a i = Throw out_of_range) as Hat.
      { destruct Hwf as (_ & _ & Hfit).
        destruct (at_loop_cases a (Extents a) i 0 Hpos Hlen Hnn)
          as [[?|Hth] _];
          [lia|rewrite static_size_product; lia|done|done|].
        rewrite <- static_size_product in Hth.
        fold (static_sizes a) in Hth.
        unfold at_list. destruct (Extents a) as [|M N] eqn:HE.
        - exfalso. apply Hout. unfold dimensionality in Hlen.
          rewrite HE in Hlen. by destruct i.
        - rewrite (proj2 (Nat.eqb_eq _ _) Hlen). cbn [negb].
          by rewrite Hth. }
      rewrite Hat. split; [|split]; done.
  - assert (at_list digits a i = Throw length_error) as Hat.
    { unfold at_list, dimensionality in *.
      destruct (Extents a) as [|M N]; rewrite (proj2 (Nat.eqb_neq _ _)); done. }
    rewrite Hat. split; [|split]; try done. split; [done|]. by intros [? _].
Qed.
End facts.

(** *** The claims about the fixed-shape array *)

(** C1.  For every [array_md] and every full tuple of in-range indices: a
    value written through [operator()(i...)] is the value read back through
    the same call; the element the call refers to is the one at
    [data()[offset]], with [offset] the sum of the indices times their
    row-major strides (the list form of the operator reads the same
    element).  For [array_md<int,2,3>] initialised with [{2,3,5,7,11,13}]:
    [arr(0,0) == 2], [arr(0,2) == 5], [arr(1,0) == 7], [arr.back() == 13]
    and [arr.size() == 6]. *)
Theorem structured_access_round_trip (digits : positive) :
  (∀ (T : Type) (a : array_md T) (i : list Z) (v : T),
     well_formed digits a → length i = dimensionality a →
     within (Extents a) i →
     let off := row_major_offset (static_sizes a) i in
     ∃ a' x,
       assign a i v = Normal a'
       ∧ call a' i = Some (Normal (Elem v))
       ∧ call a i = Some (Normal (Elem x))
       ∧ data a !! Z.to_nat off = Some x
       ∧ call_list digits a i = Normal x
       ∧ data a' = <[Z.to_nat off := v]> (data a))
  ∧ (let arr := aggregate 0 [2; 3]%nat [2; 3; 5; 7; 11; 13] in
     call arr [0; 0] = Some (Normal (Elem 2))
     ∧ call arr [0; 2] = Some (Normal (Elem 5))
     ∧ call arr [1; 0] = Some (Normal (Elem 7))
     ∧ back arr = Normal 13
     ∧ size arr = 6).
Proof.
  split; [|by vm_compute].
  intros T a i v Hwf Hlen Hin off.
  destruct (element_at_offset digits a i Hwf Hlen Hin)
    as (Hoff & x & Hcall & _ & Hlist & _ & Hx).
  destruct (assign_at_offset digits a i v Hwf Hlen Hin)
    as (a' & Hassign & Hwf' & HE & Hdata).
  fold off in Hoff, Hx, Hdata.
  destruct (element_at_offset digits a' i Hwf') as (_ & x' & Hcall' & _ & _ & _ & Hx').
  { unfold dimensionality. by rewrite HE. }
  { by rewrite HE. }
  assert (x' = v) as ->.
  { unfold static_sizes in Hx'. rewrite HE in Hx'.
    fold (static_sizes a) in Hx'. fold off in Hx'.
    rewrite Hdata, list_lookup_insert_eq in Hx'; [by injection Hx'|].
    pose proof (data_length a (proj1 Hwf)). unfold size in Hoff. lia. }
  exists a', x. repeat (split; [done|]). done.
Qed.

(** C8.  On indices that are each within their extent, [at(...)] and
    [operator()(...)] yield the same object: for a full tuple in any array,
    and for any number of indices up to the rank in an array that has
    elements (in an array without elements no tuple names an element and
    the variadic accessors do not compile).  The checked chain
    [checked_slice] computes what the unchecked chain [slice] computes; and
    for a full tuple the two list forms return the same element too. *)
Theorem checked_unchecked_agree (digits : positive) {T : Type}
    (a : array_md T) (i : list Z) :
  well_formed digits a → within (Extents a) i →
  0 < size a ∨ length i = dimensionality a →
  (∃ t', call a i = Some (Normal t') ∧ at_ a i = Some (Normal t'))
  ∧ checked_slice out_of_range (data_block a) i = slice (data_block a) i
  ∧ (length i = dimensionality a →
     ∃ x, call_list digits a i = Normal x ∧ at_list digits a i = Normal x).
Proof.
  intros Hwf Hin Hsome.
  assert (0 < size a) as Hsz.
  { destruct Hsome as [?|Hlen]; [done|].
    destruct (element_at_offset digits a i Hwf Hlen Hin) as [? _]. lia. }
  destruct (slice_within out_of_range _ _ _ (proj1 Hwf) Hin)
    as (t' & Hs & Hc & _).
  pose proof (within_length _ _ Hin) as Hle.
  split; [|split].
  - exists t'. rewrite call_compiles, at_compiles by done.
    by rewrite Hs, Hc.
  - by rewrite Hs, Hc.
  - intros Hlen.
    destruct (element_at_offset digits a i Hwf Hlen Hin)
      as (_ & x & _ & _ & Hl & Ha & _).
    by exists x.
Qed.

(** C9, as the code has it.  With more indices than the rank, the list form
    of the unchecked [operator()] reports nothing: it never throws; the
    rank-0 array ignores the list and returns its element; an array of
    positive rank reads past its table of extents, which is undefined.
    Only the variadic form rejects the call (at compile time), and only
    [at(list)] reports the wrong count, with [std::length_error]. *)
Theorem unchecked_list_over_arity (digits : positive) {T : Type}
    (a : array_md T) (i : list Z) :
  has_shape (Extents a) (data_block a) →
  (dimensionality a < length i)%nat →
  (∀ e, call_list digits a i ≠ Throw e)
  ∧ (Extents a = [] →
     ∃ x, data_block a = Elem x ∧ call_list digits a i = Normal x)
  ∧ (Extents a ≠ [] → call_list digits a i = Undefined)
  ∧ call a i = None
  ∧ at_list digits a i = Throw length_error.
Proof.
  intros Hsh Hlen. unfold call_list, at_list, call, dimensionality in *.
  destruct (Extents a) as [|M N] eqn:HE.
  - destruct (data_block a) as [x|] eqn:Hd; [|done].
    destruct i as [|u v]; [cbn in Hlen; lia|].
    split; [done|]. split; [by exists x|]. split; [done|].
    split; [|done]. rewrite bool_decide_eq_false_2; [done|]. cbn. lia.
  - assert (subscript_list digits a i = Undefined) as Hu.
    { unfold subscript_list.
      rewrite subscript_loop_over_arity; [done|].
      unfold static_sizes. rewrite length_map, HE. done. }
    rewrite Hu. split; [done|]. split; [done|]. split; [done|].
    split.
    + rewrite bool_decide_eq_false_2; [done|]. lia.
    + rewrite (proj2 (Nat.eqb_neq _ _)) by lia. done.
Qed.

(** C10.  The rank-0 array [array_md<T>]: [static_size] and [size()] are 1,
    [empty()] is false, [operator()()] and [at()] return the sole element,
    [at({})] returns it, and [at] with any non-empty list throws
    [std::length_error]. *)
Theorem rank0_array (digits : positive) {T : Type} (x : T) :
  let a := mk_array_md [] (Elem x) in
  dimensionality a = 0%nat
  ∧ static_size a = 1 ∧ size a = 1 ∧ empty a = false
  ∧ call a [] = Some (Normal (Elem x))
  ∧ at_ a [] = Some (Normal (Elem x))
  ∧ at_list digits a [] = Normal x
  ∧ ∀ (u : Z) (v : list Z), at_list digits a (u :: v) = Throw length_error.
Proof. repeat split. Qed.

(** C2, at the input where the code departs from it.  For
    [array_md<T, 0>] (a zero first extent, which the class allows) and the
    index list [{0}], the count is right and the index is not below the
    extent, yet [at] does not throw [std::out_of_range]: it divides by the
    zero extent first, which is undefined. *)
Theorem at_list_zero_extent (digits : positive) {T : Type} (zero : T) :
  let a := aggregate zero [0%nat] [] in
  well_formed digits a
  ∧ length [0] = dimensionality a
  ∧ ¬ within (Extents a) [0]
  ∧ at_list digits a [0] = Undefined.
Proof.
  cbv zeta. split; [|split; [|split]]; try done.
  - split; [done|]. split; [by constructor|].
    pose proof (SizeTypeFacts.size_max_pos digits). cbn. lia.
  - cbn. lia.
Qed.

(** C9 fails as stated: [arr({0, 0, 0})] on the 2 by 3 array has one index
    too many and no exception is thrown, and [single({1, 2})] on the rank-0
    array returns the element as if nothing were wrong. *)
Lemma unchecked_list_over_arity_counterexample :
  (dimensionality Samples.arr_2x3 < length [0; 0; 0])%nat
  ∧ ¬ (∃ e, call_list 64 Samples.arr_2x3 [0; 0; 0] = Throw e)
  ∧ (dimensionality Samples.single < length [1; 2])%nat
  ∧ call_list 64 Samples.single [1; 2] = Normal 5.
Proof.
  split; [cbn; lia|]. split; [by intros [e He]|]. split; [cbn; lia|done].
Qed.

(** The 2 by 3 sample array is an object of the class. *)
Lemma arr_2x3_well_formed : well_formed 64 Samples.arr_2x3.
Proof.
  split; [|split].
  - cbn. repeat (split || constructor).
  - repeat constructor.
  - by vm_compute.
Defined.

(** C1 at the 2 by 3 sample array: writing 99 through [arr(1, 2)]. *)
Lemma structured_access_round_trip_witness :
  ∃ a' x,
    assign Samples.arr_2x3 [1; 2] 99 = Normal a'
    ∧ call a' [1; 2] = Some (Normal (Elem 99))
    ∧ call Samples.arr_2x3 [1; 2] = Some (Normal (Elem x))
    ∧ data Samples.arr_2x3 !! Z.to_nat (row_major_offset [2; 3] [1; 2])
      = Some x
    ∧ call_list 64 Samples.arr_2x3 [1; 2] = Normal x
    ∧ data a' = <[Z.to_nat (row_major_offset [2; 3] [1; 2]) := 99]>
                  (data Samples.arr_2x3).
Proof.
  apply (proj1 (structured_access_round_trip 64) Z Samples.arr_2x3 [1; 2] 99).
  - exact arr_2x3_well_formed.
  - reflexivity.
  - cbn. lia.
Defined.

(** C8 at the 2 by 3 sample array and the indices [(1, 2)]. *)
Lemma checked_unchecked_agree_witness :
  (∃ t', call Samples.arr_2x3 [1; 2] = Some (Normal t')
         ∧ at_ Samples.arr_2x3 [1; 2] = Some (Normal t'))
  ∧ checked_slice out_of_range (data_block Samples.arr_2x3) [1; 2]
    = slice (data_block Samples.arr_2x3) [1; 2]
  ∧ (length [1; 2] = dimensionality Samples.arr_2x3 →
     ∃ x, call_list 64 Samples.arr_2x3 [1; 2] = Normal x
          ∧ at_list 64 Samples.arr_2x3 [1; 2] = Normal x).
Proof.
  apply (checked_unchecked_agree 64 Samples.arr_2x3 [1; 2]).
  - exact arr_2x3_well_formed.
  - cbn. lia.
  - right. reflexivity.
Defined.

(** C9 as amended, at the 2 by 3 sample array and three indices. *)
Lemma unchecked_list_over_arity_witness :
  (∀ e, call_list 64 Samples.arr_2x3 [0; 0; 0] ≠ Throw e)
  ∧ (Extents Samples.arr_2x3 = [] →
     ∃ x, data_block Samples.arr_2x3 = Elem x
          ∧ call_list 64 Samples.arr_2x3 [0; 0; 0] = Normal x)
  ∧ (Extents Samples.arr_2x3 ≠ [] →
     call_list 64 Samples.arr_2x3 [0; 0; 0] = Undefined)
  ∧ call Samples.arr_2x3 [0; 0; 0] = None
  ∧ at_list 64 Samples.arr_2x3 [0; 0; 0] = Throw length_error.
Proof.
  apply (unchecked_list_over_arity 64 Samples.arr_2x3 [0; 0; 0]).
  - exact (proj1 arr_2x3_well_formed).
  - cbn. lia.
Defined.

(** *** Further properties of the fixed-shape array *)

Section access.
Context (digits : positive) {T : Type}.
Implicit Types (a : array_md T) (i : list Z).

Lemma concat_uniform_block {A : Type} (ls : list (list A)) (w : nat) :
  Forall (fun l => length l = w) ls →
  ∀ (k : nat) (l : list A), ls !! k = Some l →
    take w (drop (k * w) (concat ls)) = l.
Proof.
  induction 1 as [|l0 ls Hl0 _ IH]; intros k l Hk; [done|].
  cbn [concat]. destruct k as [|k].
  - injection Hk as ->. rewrite drop_0. by apply take_app_length'.
  - replace (S k * w)%nat with (length l0 + k * w)%nat by lia.
    rewrite drop_app_add. by apply IH.
Qed.

(** A chain of in-range subscripts yields the sub-array stored in the
    contiguous block that starts at the row-major offset of the indices. *)
Lemma slice_block (shape : list nat) : ∀ (t : carray T) (indices : list Z),
  has_shape shape t → within shape indices →
  ∃ t', slice t indices = Normal t'
    ∧ has_shape (drop (length indices) shape) t'
    ∧ flatten t'
      = take (Z.to_nat (extent_product (drop (length indices) shape)))
          (drop (Z.to_nat (row_major_offset (map Z.of_nat shape) indices))
                (flatten t)).
Proof.
  induction shape as [|n shape IH]; intros t indices Hsh Hin.
  - destruct indices as [|u v]; [|done]. exists t.
    split; [done|]. split; [done|].
    rewrite row_major_offset_nil, drop_0. symmetry. apply take_ge.
    pose proof (flatten_length [] t Hsh). cbn [length drop]. lia.
  - destruct indices as [|u v].
    + exists t. split; [done|]. split; [done|].
      rewrite row_major_offset_nil, drop_0. symmetry. apply take_ge.
      pose proof (flatten_length (n :: shape) t Hsh). cbn [length drop]. lia.
    + destruct t as [x|items]; [done|].
      destruct Hsh as [Hlen Hall]. destruct Hin as [Hu Hv].
      destruct (lookup_lt_is_Some_2 items (Z.to_nat u)) as [tu Htu]; [lia|].
      pose proof (proj1 (Forall_lookup _ _) Hall _ _ Htu) as Hshu.
      destruct (IH tu v Hshu Hv) as (t' & Hsl & Hsh' & Hfl).
      exists t'. split.
      { cbn [slice subscript]. destruct (Z.ltb_spec u 0); [lia|].
        rewrite Htu. done. }
      split; [done|]. rewrite Hfl. cbn [length drop flatten map].
      change (map Z.of_nat (n :: shape))
        with (Z.of_nat n :: map Z.of_nat shape).
      rewrite row_major_offset_cons.
      fold (extent_product shape).
      pose proof (row_major_offset_bound shape v Hv) as [Hoff0 Hoff1].
      pose proof (extent_product_nonneg (drop (length v) shape)) as Hw'.
      pose proof (extent_product_nonneg shape) as Hw.
      set (w := Z.to_nat (extent_product shape)).
      set (w' := Z.to_nat (extent_product (drop (length v) shape))) in *.
      set (off' := Z.to_nat (row_major_offset (map Z.of_nat shape) v)) in *.
      assert (Forall (fun l => length l = w) (map flatten items)) as Huni.
      { apply Forall_map. eapply Forall_impl; [exact Hall|].
        intros t0 Ht0. cbn. pose proof (flatten_length shape t0 Ht0).
        unfold w. lia. }
      assert (map flatten items !! Z.to_nat u = Some (flatten tu)) as Hrow.
      { change (map flatten items) with (flatten <$> items).
        by rewrite list_lookup_fmap, Htu. }
      rewrite <- (concat_uniform_block _ w Huni _ _ Hrow).
      rewrite (take_drop_commute _ w' off'), take_take.
      rewrite Nat.min_l by (unfold off', w', w; lia).
      rewrite <- take_drop_commute, drop_drop. f_equal. f_equal.
      unfold off', w. nia.
Qed.

(** X12.  The variadic [at(i...)] with at most [dimensionality] indices,
    on an array that has elements: it throws [std::out_of_range] exactly
    when some index is negative or not below its extent, returns exactly
    when all are inside, and has no other outcome.  On an array without
    elements neither [at(i...)] nor [operator()(i...)] compiles. *)
Theorem variadic_at_bounds a i :
  has_shape (Extents a) (data_block a) →
  (length i ≤ dimensionality a)%nat →
  (0 < size a →
   (at_ a i = Some (Throw out_of_range) ↔ ¬ within (Extents a) i)
   ∧ ((∃ t', at_ a i = Some (Normal t')) ↔ within (Extents a) i)
   ∧ (∀ e, at_ a i = Some (Throw e) → e = out_of_range)
   ∧ at_ a i ≠ Some Undefined
   ∧ at_ a i ≠ None)
  ∧ (size a = 0 → at_ a i = None ∧ call a i = None).
Proof.
  intros Hsh Hlen. split.
  2:{ intros H0. destruct (placeholder_no_access a i H0). done. }
  intros Hsz. rewrite at_compiles by done.
  destruct (within_dec (Extents a) i) as [Hin|Hout].
  - destruct (slice_within out_of_range _ _ _ Hsh Hin) as (t' & _ & Hc & _).
    rewrite Hc. split; [|split; [|split; [|split]]]; try done.
    split; [done|by exists t'].
  - rewrite (checked_slice_outside out_of_range _ _ _ Hsh Hlen Hout).
    split; [|split; [|split; [|split]]]; try done.
    + split; [by intros [t' ?]|done].
    + intros e He. by simplify_eq.
Qed.

(** X13.  In an array that has elements, indexing with in-range indices,
    possibly fewer than the rank, yields the sub-array
    of the remaining extents, and that sub-array is the contiguous block of
    [data()] that starts at the row-major offset of the given indices.
    Indexing the result further is indexing the array with all the indices
    at once. *)
Theorem partial_index_block a i :
  has_shape (Extents a) (data_block a) → 0 < size a →
  within (Extents a) i →
  ∃ t', call a i = Some (Normal t')
    ∧ has_shape (drop (length i) (Extents a)) t'
    ∧ flatten t'
      = take (Z.to_nat (extent_product (drop (length i) (Extents a))))
          (drop (Z.to_nat (row_major_offset (static_sizes a) i)) (data a))
    ∧ ∀ j, slice t' j = slice (data_block a) (i ++ j).
Proof.
  intros Hsh Hsz Hin.
  destruct (slice_block _ _ _ Hsh Hin) as (t' & Hsl & Hsh' & Hfl).
  exists t'. split.
  { rewrite call_compiles by (done || by apply within_length).
    by rewrite Hsl. }
  split; [done|]. split; [exact Hfl|].
  intros j. clear Hfl Hsh' Hsh Hin. revert Hsl.
  generalize (data_block a). induction i as [|u v IH]; intros t Hsl.
  - cbn in Hsl. by simplify_eq.
  - cbn [slice app] in *. destruct (subscript t u) as [tu| |]; try done.
    cbn [mbind outcome_bind] in *. by apply IH.
Qed.

Lemma row_major_offset_zeros (shape : list nat) :
  row_major_offset (map Z.of_nat shape) (replicate (length shape) 0) = 0.
Proof.
  induction shape as [|n shape IH]; [done|].
  cbn [map length replicate]. rewrite row_major_offset_cons, IH. lia.
Qed.

Lemma row_major_offset_last (shape : list nat) :
  row_major_offset (map Z.of_nat shape)
    (map (fun n => Z.of_nat n - 1) shape) = extent_product shape - 1.
Proof.
  induction shape as [|n shape IH]; [done|].
  cbn [map]. rewrite row_major_offset_cons, IH, extent_product_cons.
  fold (extent_product shape). lia.
Qed.

Lemma within_zeros (shape : list nat) :
  Forall (fun n => (0 < n)%nat) shape →
  within shape (replicate (length shape) 0).
Proof.
  induction 1 as [|n shape Hn _ IH]; [done|].
  cbn [length replicate within]. split; [lia|done].
Qed.

Lemma within_last (shape : list nat) :
  Forall (fun n => (0 < n)%nat) shape →
  within shape (map (fun n => Z.of_nat n - 1) shape).
Proof.
  induction 1 as [|n shape Hn _ IH]; [done|].
  cbn [map within]. split; [lia|done].
Qed.

(** X14.  [front()], [back()] and [get<I>] against the structured access:
    in an array without a zero extent [front()] is the element at the
    all-zero indices and [get<0>], [back()] is the element at the largest
    index of every dimension and [get<size() - 1>]; an array with a zero
    extent has no element, and [front()] and [back()] are undefined on
    it. *)
Theorem front_back_corners a :
  well_formed digits a →
  (Forall (fun n => (0 < n)%nat) (Extents a) →
   ∃ x y,
     front a = Normal x
     ∧ call a (replicate (dimensionality a) 0) = Some (Normal (Elem x))
     ∧ get 0 a = Some (Normal x)
     ∧ back a = Normal y
     ∧ call a (map (fun n => Z.of_nat n - 1) (Extents a))
       = Some (Normal (Elem y))
     ∧ get (Z.to_nat (size a - 1)) a = Some (Normal y))
  ∧ (size a = 0 →
     front a = Undefined ∧ back a = Undefined ∧ ∀ I, get I a = None).
Proof.
  intros Hwf. pose proof (data_length a (proj1 Hwf)) as Hdl. split.
  - intros Hpos.
    pose proof (within_zeros _ Hpos) as Hin0.
    pose proof (within_last _ Hpos) as Hin1.
    fold (dimensionality a) in Hin0.
    destruct (element_at_offset digits a _ Hwf
                (length_replicate (dimensionality a) 0) Hin0)
      as (Hb0 & x & Hc0 & _ & _ & _ & Hx).
    destruct (element_at_offset digits a _ Hwf
                (length_map (fun n => Z.of_nat n - 1) (Extents a)) Hin1)
      as (Hb1 & y & Hc1 & _ & _ & _ & Hy).
    unfold static_sizes, dimensionality in Hx, Hy, Hb1.
    rewrite row_major_offset_zeros in Hx.
    rewrite row_major_offset_last in Hy, Hb1.
    rewrite <- static_size_product in Hy, Hb1. change (Z.to_nat 0) with 0%nat in Hx.
    exists x, y. unfold front, back, get, deref, size in *.
    change (Z.of_nat 0) with 0.
    rewrite bool_decide_eq_true_2 by lia.
    rewrite bool_decide_eq_true_2 by lia.
    rewrite Z2Nat.id by lia.
    destruct (Z.ltb_spec 0 0); [lia|].
    destruct (Z.ltb_spec (static_size a - 1) 0); [lia|].
    change (Z.to_nat 0) with 0%nat. rewrite Hx, Hy. done.
  - intros H0. unfold front, back, get, deref, size in *.
    rewrite H0 in *. cbn.
    assert (data a = []) as ->.
    { apply length_zero_iff_nil. lia. }
    split; [done|]. split; [done|].
    intros I. rewrite bool_decide_eq_false_2; [done|lia].
Qed.
End access.

(** *** Creation, conversion and [fill] *)

Section creation.
Context (digits : positive).

Lemma concat_blocks {A : Type} (g : nat → A) (w : nat) : ∀ n : nat,
  concat (map (fun k => map (fun j => g (k * w + j)%nat) (seq 0 w)) (seq 0 n))
  = map g (seq 0 (n * w)).
Proof.
  induction n as [|n IH]; [done|].
  rewrite seq_S, map_app, concat_app, IH. cbn [map concat Nat.add].
  rewrite app_nil_r.
  replace (S n * w)%nat with (n * w + w)%nat by lia.
  rewrite seq_app, map_app. f_equal. cbn [Nat.add].
  replace (seq (n * w) w) with (map (Nat.add (n * w)) (seq 0 w)).
  2:{ change (map ?f ?l) with (f <$> l). rewrite fmap_add_seq.
      by rewrite Nat.add_0_r. }
  by rewrite map_map.
Qed.

Lemma width_extent_product (shape : list nat) :
  Z.of_nat (fold_right Nat.mul 1%nat shape) = extent_product shape.
Proof.
  induction shape as [|n shape IH]; [done|].
  rewrite extent_product_cons, <- IH. cbn [fold_right]. lia.
Qed.

(** Aggregate initialisation lays the listed values out in storage order
    and value-initialises the rest. *)
Lemma flatten_initialised {T : Type} (zero : T) (shape : list nat) :
  ∀ values : list T,
    has_shape shape (initialised zero shape values)
    ∧ flatten (initialised zero shape values)
      = map (fun k => default zero (values !! k))
            (seq 0 (fold_right Nat.mul 1%nat shape)).
Proof.
  induction shape as [|n shape IH]; intros values.
  - split; [done|]. cbn. by rewrite head_lookup.
  - cbn [initialised has_shape flatten fold_right]. split.
    + split; [by rewrite length_map, length_seq|].
      apply Forall_map, Forall_forall. intros k _. apply IH.
    + rewrite map_map.
      rewrite (map_ext _
                 (fun k => map (fun j => default zero
                                  (values !! (k * fold_right Nat.mul 1 shape + j)%nat))
                             (seq 0 (fold_right Nat.mul 1%nat shape)))).
      2:{ intros k. rewrite (proj2 (IH _)). apply map_ext. intros j.
          by rewrite lookup_drop. }
      apply (concat_blocks (fun m => default zero (values !! m))).
Qed.

Lemma aggregate_data {T : Type} (zero : T) (shape : list nat)
    (values : list T) :
  let a := aggregate zero shape values in
  has_shape shape (data_block a)
  ∧ Z.of_nat (length (data a)) = extent_product shape
  ∧ ∀ k : nat, Z.of_nat k < extent_product shape →
      data a !! k = Some (default zero (values !! k)).
Proof.
  cbv zeta. unfold aggregate, data. cbn [data_block].
  destruct (flatten_initialised zero shape values) as [Hsh Hfl].
  split; [done|]. split; [by apply flatten_length|].
  intros k Hk. rewrite Hfl.
  change (map ?f ?l) with (f <$> l). rewrite list_lookup_fmap.
  rewrite lookup_seq_lt by (rewrite <- width_extent_product in Hk; lia).
  done.
Qed.


Lemma read_all {T U : Type} (cast : T → U) (a : array_md T) :
  ∀ (k n : nat) (acc : list U),
    (n + k ≤ length (data a))%nat →
    for_each (fun acc I => x ← deref a I; Normal (acc ++ [cast x])) acc
      (seqZ (Z.of_nat n) (Z.of_nat k))
    = Normal (acc ++ map cast (take k (drop n (data a)))).
Proof.
  induction k as [|k IH]; intros n acc Hle.
  - cbn. by rewrite take_0, app_nil_r.
  - rewrite seqZ_cons by lia. cbn [for_each].
    destruct (lookup_lt_is_Some_2 (data a) n) as [x Hx]; [lia|].
    assert (deref a (Z.of_nat n) = Normal x) as ->.
    { unfold deref. destruct (Z.ltb_spec (Z.of_nat n) 0); [lia|].
      by rewrite Nat2Z.id, Hx. }
    cbn [mbind outcome_bind].
    replace (Z.succ (Z.of_nat n)) with (Z.of_nat (S n)) by lia.
    replace (Z.pred (Z.of_nat (S k))) with (Z.of_nat k) by lia.
    rewrite IH by lia. rewrite (drop_S _ _ _ Hx), firstn_cons.
    cbn [map]. by rewrite <- app_assoc.
Qed.

(** X16.  The conversion operator to [array_md<U, N...>]: it returns an
    array of the same extents whose elements, in storage order and hence at
    every index tuple, are the converted elements of the source. *)
Theorem conversion_elementwise {T U : Type} (cast : T → U) (zero : U)
    (a : array_md T) :
  well_formed digits a →
  ∃ a', convert_array cast zero a = Normal a'
    ∧ well_formed digits a' ∧ Extents a' = Extents a
    ∧ data a' = map cast (data a)
    ∧ ∀ i, length i = dimensionality a → within (Extents a) i →
        ∃ x, call a i = Some (Normal (Elem x))
             ∧ call a' i = Some (Normal (Elem (cast x))).
Proof.
  intros Hwf. pose proof (data_length a (proj1 Hwf)) as Hdl.
  pose proof (static_size_product a) as Hsp.
  pose proof (extent_product_nonneg (Extents a)) as Hnn.
  unfold convert_array.
  pose proof (read_all cast a (length (data a)) 0 []) as Hread.
  rewrite drop_0, take_ge, Hdl in Hread by lia.
  change (Z.of_nat 0) with 0 in Hread. rewrite Hread by lia.
  cbn [mbind outcome_bind app].
  set (a' := aggregate zero (Extents a) (map cast (data a))).
  destruct (aggregate_data zero (Extents a) (map cast (data a)))
    as (Hsh & Hlen & Hdata). fold a' in Hsh, Hlen, Hdata.
  assert (data a' = map cast (data a)) as Heq.
  { apply list_eq. intros k.
    destruct (decide (k < length (data a))%nat) as [Hk|Hk].
    - rewrite Hdata by lia.
      destruct (lookup_lt_is_Some_2 (map cast (data a)) k) as [x ->];
        [by rewrite length_map|done].
    - rewrite !(proj2 (lookup_ge_None _ _)); [done| |];
        rewrite ?length_map; lia. }
  assert (well_formed digits a') as Hwf'.
  { split; [done|]. split; [apply Hwf|]. apply Hwf. }
  exists a'. split; [done|]. split; [done|]. split; [done|].
  split; [done|]. intros i Hi Hin.
  destruct (element_at_offset digits a i Hwf Hi Hin)
    as (_ & x & Hcall & _ & _ & _ & Hx).
  destruct (element_at_offset digits a' i Hwf' Hi Hin)
    as (_ & y & Hcall' & _ & _ & _ & Hy).
  exists x. split; [done|]. rewrite Hcall'. do 3 f_equal.
  change (static_sizes a') with (static_sizes a) in Hy.
  rewrite Heq in Hy. change (map cast (data a)) with (cast <$> data a) in Hy.
  rewrite list_lookup_fmap, Hx in Hy. by injection Hy.
Qed.

(** Assigning through the flat sequence keeps the type and changes the
    first elements. *)
Lemma refill_rows {T : Type} (shape : list nat) :
  (∀ (t : carray T) (l : list T), has_shape shape t →
     has_shape shape (refill t l)
     ∧ flatten (refill t l)
       = take (length (flatten t)) l ++ drop (length l) (flatten t)) →
  ∀ (items : list (carray T)), Forall (has_shape shape) items →
  ∀ l : list T,
    ∃ items', refill (Arr items) l = Arr items'
      ∧ length items' = length items
      ∧ Forall (has_shape shape) items'
      ∧ concat (map flatten items')
        = take (length (concat (map flatten items))) l
          ++ drop (length l) (concat (map flatten items)).
Proof.
  intros IH items Hall. induction Hall as [|item items Hitem _ IHitems];
    intros l.
  - exists []. split; [done|]. split; [done|]. split; [done|].
    cbn. by rewrite drop_nil.
  - destruct (IHitems (drop (length (flatten item)) l))
      as (rest' & Heq & Hlen & Hall' & Hfl).
    destruct (IH item l Hitem) as [Hsh1 Hfl1].
    exists (refill item l :: rest'). split.
    { cbn [refill] in Heq |- *. injection Heq as Heq. by rewrite Heq. }
    split; [cbn; by rewrite Hlen|]. split; [by constructor|].
    cbn [map concat]. rewrite Hfl, Hfl1, length_app, length_drop.
    set (F := flatten item). set (C := concat (map flatten items)).
    destruct (decide (length l ≤ length F)%nat) as [Hle|Hgt].
    + rewrite (take_ge l (length F)) by done.
      rewrite (drop_ge l (length F)) by done.
      rewrite take_nil. cbn [app].
      replace (length l - length F)%nat with 0%nat by lia. rewrite drop_0.
      rewrite take_ge by lia. rewrite drop_app_le by done.
      by rewrite <- app_assoc.
    + rewrite (drop_ge F (length l)) by lia. rewrite app_nil_r.
      rewrite drop_app_ge by lia.
      rewrite app_assoc, take_take_drop. done.
Qed.

Lemma refill_flatten {T : Type} (shape : list nat) :
  ∀ (t : carray T) (l : list T), has_shape shape t →
    has_shape shape (refill t l)
    ∧ flatten (refill t l)
      = take (length (flatten t)) l ++ drop (length l) (flatten t).
Proof.
  induction shape as [|n shape IH]; intros [x|items] l Hsh; try done.
  - split; [done|]. destruct l as [|y l]; [done|].
    cbn [refill flatten head length]. rewrite firstn_cons, take_0.
    change (default x (Some y)) with y. by destruct l.
  - destruct Hsh as [Hlen Hall].
    destruct (refill_rows shape IH items Hall l)
      as (items' & Heq & Hlen' & Hall' & Hfl).
    rewrite Heq. split; [split; [lia|done]|]. exact Hfl.
Qed.

Lemma with_data_full {T : Type} (a : array_md T) (l : list T) :
  has_shape (Extents a) (data_block a) →
  length l = length (data a) →
  has_shape (Extents (with_data a l)) (data_block (with_data a l))
  ∧ data (with_data a l) = l.
Proof.
  intros Hsh Hlen. unfold with_data, data in *. cbn [Extents data_block].
  destruct (refill_flatten _ (data_block a) l Hsh) as [Hsh' Hfl].
  split; [done|]. rewrite Hfl, <- Hlen, take_ge, drop_ge by lia.
  apply app_nil_r.
Qed.

(** X17.  [fill( v )] keeps the extents and makes every element [v]: the
    whole of [data()], and so the element at every in-range index tuple. *)
Theorem fill_all {T : Type} (a : array_md T) (v : T) :
  well_formed digits a →
  well_formed digits (fill a v)
  ∧ Extents (fill a v) = Extents a
  ∧ data (fill a v) = replicate (length (data a)) v
  ∧ ∀ i, length i = dimensionality a → within (Extents a) i →
      call (fill a v) i = Some (Normal (Elem v))
      ∧ at_list digits (fill a v) i = Normal v.
Proof.
  intros Hwf. unfold fill.
  destruct (with_data_full a (map (fun _ => v) (data a)) (proj1 Hwf))
    as [Hsh Hdata]; [by rewrite length_map|].
  set (a' := with_data a (map (fun _ => v) (data a))) in *.
  assert (well_formed digits a') as Hwf'.
  { split; [done|]. split; apply Hwf. }
  assert (map (fun _ => v) (data a) = replicate (length (data a)) v) as Hrep.
  { generalize (data a). intros l.
    induction l as [|x l IH]; [done|]. cbn [map length replicate].
    by rewrite IH. }
  split; [done|]. split; [done|]. split; [by rewrite Hdata|].
  intros i Hi Hin.
  destruct (element_at_offset digits a' i Hwf' Hi Hin)
    as (_ & x & Hcall & _ & _ & Hat & Hx).
  rewrite Hdata, Hrep in Hx. apply lookup_replicate in Hx as [-> _].
  done.
Qed.

(** X18.  [remake_array<T, N...>( source )]: the result has the extents
    [N...]; its first [min( source.size(), size() )] elements in storage
    order are the converted elements of the source and the others are
    value-initialised.  With as many elements as the source it is the
    source reshaped: the same converted sequence in storage order. *)
Theorem remake_array_layout {T U : Type} (cast : U → T) (zero : T)
    (shape : list nat) (source : array_md U) :
  has_shape (Extents source) (data_block source) →
  let r := remake_array cast zero shape source in
  Extents r = shape
  ∧ has_shape shape (data_block r)
  ∧ Z.of_nat (length (data r)) = extent_product shape
  ∧ (∀ (k : nat) (x : U), data source !! k = Some x →
       Z.of_nat k < extent_product shape → data r !! k = Some (cast x))
  ∧ (∀ k : nat, (length (data source) ≤ k)%nat →
       Z.of_nat k < extent_product shape → data r !! k = Some zero)
  ∧ (extent_product (Extents source) = extent_product shape →
     data r = map cast (data source)).
Proof.
  intros Hsrc. cbv zeta. unfold remake_array.
  set (result := aggregate zero shape []).
  destruct (aggregate_data zero shape []) as (Hsh & Hlen & Hdata).
  fold result in Hsh, Hlen, Hdata.
  pose proof (data_length source Hsrc) as Hsl.
  pose proof (static_size_product source) as Hsp.
  pose proof (static_size_product result) as Hrp.
  change (Extents result) with shape in Hrp.
  unfold size. rewrite Hsp, Hrp.
  set (n := Z.to_nat (Z.min (extent_product (Extents source))
                        (extent_product shape))).
  set (l := map cast (take n (data source))).
  assert (length l = n) as Hl.
  { unfold l. rewrite length_map, length_take. unfold n. lia. }
  destruct (refill_flatten shape (data_block result) l Hsh) as [Hsh' Hfl].
  assert (data (with_data result l) = l ++ drop n (data result)) as Hd.
  { unfold with_data, data at 1. cbn [data_block]. rewrite Hfl.
    fold (data result). rewrite Hl, take_ge by lia. done. }
  split; [done|]. split; [exact Hsh'|]. split.
  { rewrite Hd, length_app, length_drop, Hl. unfold n. lia. }
  split; [|split].
  - intros k x Hx Hk. pose proof (lookup_lt_Some _ _ _ Hx) as Hlt.
    rewrite Hd, lookup_app_l by (rewrite Hl; unfold n; lia).
    unfold l. change (map cast ?m) with (cast <$> m).
    rewrite list_lookup_fmap, lookup_take_lt by (unfold n; lia).
    by rewrite Hx.
  - intros k Hge Hk. rewrite Hd, lookup_app_r by (rewrite Hl; unfold n; lia).
    rewrite lookup_drop, Hl.
    replace (n + (k - n))%nat with k by (unfold n; lia).
    rewrite Hdata by done. done.
  - intros Hsame. rewrite Hd, drop_ge by (unfold n; lia).
    rewrite app_nil_r. unfold l. rewrite take_ge by (unfold n; lia). done.
Qed.
End creation.

(** *** [apply] on the fixed-shape array *)

Section visiting.
Context {T St : Type} (f : T → list Z → St → T * St).

Lemma visit_app (c1 c2 : list (T * list Z)) (acc : St) :
  MultiArray.visit f (c1 ++ c2) acc
  = let r1 := MultiArray.visit f c1 acc in
    let r2 := MultiArray.visit f c2 r1.2 in
    (r1.1 ++ r2.1, r2.2).
Proof.
  revert acc. induction c1 as [|[x idx] c1 IH]; intros acc.
  - cbn. by destruct (MultiArray.visit f c2 acc).
  - cbn [app MultiArray.visit]. destruct (f x idx acc) as [x' acc'].
    rewrite IH. cbv zeta.
    destruct (MultiArray.visit f c1 acc') as [xs1 acc1]. cbn [fst snd].
    by destruct (MultiArray.visit f c2 acc1).
Qed.

Lemma index_tuples_length (shape : list nat) :
  length (index_tuples shape) = fold_right Nat.mul 1%nat shape.
Proof.
  induction shape as [|n shape IH]; [done|].
  cbn [index_tuples fold_right]. rewrite length_flat_map.
  rewrite (map_ext _ (fun _ => fold_right Nat.mul 1%nat shape))
    by (intros i; by rewrite length_map).
  generalize (fold_right Nat.mul 1%nat shape). intros w.
  assert (∀ l : list nat,
            list_sum (map (fun _ => w) l) = (length l * w)%nat) as Hsum.
  { induction l as [|k l IHl]; [done|].
    cbn [map length]. change (list_sum (w :: ?m)) with (w + list_sum m)%nat.
    rewrite IHl. lia. }
  by rewrite Hsum, length_seq.
Qed.

(** The tuples of [index_tuples] are the in-range ones, and the tuple at
    position [k] has the row-major offset [k]. *)
Lemma index_tuples_spec (shape : list nat) :
  Forall (fun i : list Z => length i = length shape ∧ within shape i)
         (index_tuples shape)
  ∧ map (row_major_offset (map Z.of_nat shape)) (index_tuples shape)
    = map Z.of_nat (seq 0 (fold_right Nat.mul 1%nat shape)).
Proof.
  induction shape as [|n shape [IHin IHoff]].
  - split; [by repeat constructor|done].
  - cbn [index_tuples fold_right]. split.
    + apply Forall_flat_map, Forall_forall. intros k Hk%elem_of_seq.
      apply Forall_map. eapply Forall_impl; [exact IHin|].
      intros i [Hlen Hin]. cbn [length within]. split; [by rewrite Hlen|].
      split; [lia|done].
    + rewrite flat_map_concat_map, concat_map, map_map.
      rewrite (map_ext _
                 (fun k => map (fun j => Z.of_nat
                                  (k * fold_right Nat.mul 1 shape + j)%nat)
                             (seq 0 (fold_right Nat.mul 1%nat shape)))).
      2:{ intros k. rewrite map_map.
          rewrite (map_ext _ (fun i => Z.of_nat k * extent_product shape
                                +  row_major_offset (map Z.of_nat shape) i)).
          2:{ intros i. cbn [map]. by rewrite row_major_offset_cons. }
          rewrite <- (map_map (row_major_offset (map Z.of_nat shape))
                        (fun r => Z.of_nat k * extent_product shape + r)).
          rewrite IHoff, map_map. apply map_ext. intros j.
          rewrite <- width_extent_product. lia. }
      apply (concat_blocks Z.of_nat).
Qed.

Lemma apply_rows_visits (shape : list nat) (args : list Z) :
  (∀ (t : carray T) (args : list Z) (acc : St), has_shape shape t →
     let r := MultiArray.visit f
                (zip (flatten t) (map (app args) (index_tuples shape))) acc in
     ∃ t', array_apply f (length shape) t args acc = Normal (t', r.2)
           ∧ has_shape shape t' ∧ flatten t' = r.1) →
  ∀ items : list (carray T), Forall (has_shape shape) items →
  ∀ (k : nat) (acc : St),
    let r := MultiArray.visit f
               (zip (concat (map flatten items))
                    (flat_map (fun i => map (fun tl => args ++ Z.of_nat i :: tl)
                                          (index_tuples shape))
                              (seq k (length items)))) acc in
    ∃ items',
      apply_rows (fun item i => array_apply f (length shape) item (args ++ [i]))
        items (Z.of_nat k) acc = Normal (items', r.2)
      ∧ length items' = length items
      ∧ Forall (has_shape shape) items'
      ∧ concat (map flatten items') = r.1.
Proof.
  intros IH items Hall.
  induction Hall as [|item items Hitem _ IHitems]; intros k acc r.
  - exists []. by cbn.
  - destruct (IH item (args ++ [Z.of_nat k]) acc Hitem)
      as (item' & Hrun & Hsh' & Hfl').
    cbv zeta in Hrun, Hfl'.
    set (c1 := zip (flatten item)
                 (map (app (args ++ [Z.of_nat k])) (index_tuples shape))) in *.
    destruct (IHitems (S k) (MultiArray.visit f c1 acc).2)
      as (rest' & Hrest & Hlen & Hall' & Hflr).
    cbv zeta in Hrest, Hflr.
    set (c2 := zip (concat (map flatten items))
                 (flat_map (fun i => map (fun tl => args ++ Z.of_nat i :: tl)
                                       (index_tuples shape))
                           (seq (S k) (length items)))) in *.
    assert (r = let r1 := MultiArray.visit f c1 acc in
                let r2 := MultiArray.visit f c2 r1.2 in
                (r1.1 ++ r2.1, r2.2)) as Hr.
    { unfold r. cbn [length seq flat_map map concat].
      rewrite zip_with_app.
      - rewrite visit_app. unfold c1, c2.
        rewrite (map_ext (fun tl => args ++ Z.of_nat k :: tl)
                         (app (args ++ [Z.of_nat k])));
          [done|]. intros tl. by rewrite <- app_assoc.
      - rewrite length_map, index_tuples_length.
        pose proof (flatten_length shape item Hitem) as Hl.
        rewrite <- width_extent_product in Hl. lia. }
    exists (item' :: rest'). cbn [apply_rows].
    rewrite Hrun. cbn [mbind outcome_bind fst snd].
    replace (Z.of_nat k + 1) with (Z.of_nat (S k)) by lia.
    rewrite Hrest. cbn [mbind outcome_bind fst snd].
    rewrite Hr. cbv zeta. cbn [fst snd].
    split; [done|]. split; [cbn; by rewrite Hlen|].
    split; [by constructor|]. cbn [map concat]. by rewrite Hfl', Hflr.
Qed.

Lemma array_apply_visits (shape : list nat) :
  ∀ (t : carray T) (args : list Z) (acc : St), has_shape shape t →
    let r := MultiArray.visit f
               (zip (flatten t) (map (app args) (index_tuples shape))) acc in
    ∃ t', array_apply f (length shape) t args acc = Normal (t', r.2)
          ∧ has_shape shape t' ∧ flatten t' = r.1.
Proof.
  induction shape as [|n shape IH]; intros [x|items] args acc Hsh r;
    try done.
  - unfold r. cbn [length array_apply flatten index_tuples map zip_with].
    rewrite app_nil_r. cbn [MultiArray.visit].
    destruct (f x args acc) as [x' acc']. exists (Elem x'). done.
  - destruct Hsh as [Hlen Hall].
    destruct (apply_rows_visits shape args IH items Hall 0 acc)
      as (items' & Hrun & Hlen' & Hall' & Hfl).
    cbv zeta in Hrun, Hfl. change (Z.of_nat 0) with 0 in Hrun.
    assert (r = MultiArray.visit f
                  (zip (concat (map flatten items))
                     (flat_map (fun i => map (fun tl => args ++ Z.of_nat i :: tl)
                                           (index_tuples shape))
                               (seq 0 (length items)))) acc) as Hr.
    { unfold r. cbn [flatten index_tuples]. rewrite Hlen. f_equal. f_equal.
      rewrite !flat_map_concat_map, concat_map, map_map. f_equal.
      apply map_ext. intros i. by rewrite map_map. }
    exists (Arr items'). cbn [length array_apply]. rewrite Hrun.
    cbn [mbind outcome_bind fst snd]. rewrite Hr.
    split; [done|]. split; [split; [lia|done]|]. exact Hfl.
Qed.

(** X19.  [apply( f )] on an [array_md] that has elements: [f] is called
    once per element, in storage order, with the element and its full index
    tuple; the tuple passed with the element at position [k] of [data()] is
    in range, has row-major offset [k], and addresses that very element.
    The elements afterwards are what the calls left, in the same order.  On
    an array without elements [apply( f )] does not compile. *)
Theorem apply_visits_in_storage_order (a : array_md T) (acc : St) :
  has_shape (Extents a) (data_block a) →
  let calls := zip (data a) (index_tuples (Extents a)) in
  (0 < size a →
   ∃ a', apply f a acc
         = Some (Normal (a', (MultiArray.visit f calls acc).2))
         ∧ Extents a' = Extents a
         ∧ has_shape (Extents a') (data_block a')
         ∧ data a' = (MultiArray.visit f calls acc).1)
  ∧ (size a = 0 → apply f a acc = None)
  ∧ length calls = length (data a)
  ∧ ∀ (k : nat) (x : T) (i : list Z), calls !! k = Some (x, i) →
      data a !! k = Some x
      ∧ length i = dimensionality a ∧ within (Extents a) i
      ∧ row_major_offset (static_sizes a) i = Z.of_nat k
      ∧ call a i = Some (Normal (Elem x)).
Proof.
  intros Hsh calls.
  pose proof (flatten_length _ _ Hsh) as Hfl.
  rewrite <- width_extent_product in Hfl.
  destruct (index_tuples_spec (Extents a)) as [Hin Hoff].
  split; [|split; [|split]].
  - intros Hsz.
    destruct (array_apply_visits (Extents a) (data_block a) [] acc Hsh)
      as (t' & Hrun & Hsh' & Hfl').
    cbv zeta in Hrun, Hfl'.
    rewrite (map_ext (app []) id), map_id in Hrun, Hfl' by done.
    exists (mk_array_md (Extents a) t').
    unfold apply, has_data_type, dimensionality, size in *.
    destruct (Z.eqb_spec (static_size a) 0); [lia|]. cbn [negb].
    rewrite Hrun. done.
  - intros H0. unfold apply, has_data_type, size in *. by rewrite H0.
  - unfold calls. rewrite length_zip_with, index_tuples_length.
    unfold data. lia.
  - intros k x i Hk. unfold calls in Hk.
    apply lookup_zip_with_Some in Hk as (x' & i' & Heq & Hx & Hi).
    injection Heq as -> ->. split; [done|].
    destruct (proj1 (Forall_lookup _ _) Hin _ _ Hi) as [Hlen Hw].
    assert (row_major_offset (static_sizes a) i' = Z.of_nat k) as Hk.
    { pose proof (f_equal (fun l => l !! k) Hoff) as Hlk. cbn beta in Hlk.
      change (map ?g ?l) with (g <$> l) in Hlk.
      rewrite !list_lookup_fmap, Hi in Hlk.
      rewrite lookup_seq_lt in Hlk.
      2:{ apply lookup_lt_Some in Hi. by rewrite index_tuples_length in Hi. }
      cbn in Hlk. by injection Hlk. }
    split; [done|]. split; [done|]. split; [done|].
    destruct (slice_full (Extents a) (data_block a) i' Hsh Hlen Hw)
      as (_ & y & Hsl & Hy).
    fold (static_sizes a) in Hy. rewrite Hk, Nat2Z.id in Hy.
    unfold data in Hx. rewrite Hx in Hy. injection Hy as <-.
    rewrite call_compiles; [by rewrite Hsl|unfold dimensionality; lia|].
    rewrite static_size_product, <- width_extent_product.
    apply lookup_lt_Some in Hx. lia.
Qed.
End visiting.

(** *** Comparisons *)

Section comparing.
Context {T : Type} (eqb ltb : T → T → bool).
Context (eqb_spec : ∀ x y : T, eqb x y = true ↔ x = y).

Lemma first_difference_unique (l r : list T) (k k' : nat) (x y x' y' : T) :
  first_difference l r k x y → first_difference l r k' x' y' →
  k = k' ∧ x = x' ∧ y = y'.
Proof.
  intros (Ht & Hl & Hr & Hne) (Ht' & Hl' & Hr' & Hne').
  destruct (Nat.lt_trichotomy k k') as [Hlt|[->|Hlt]].
  - exfalso. apply Hne.
    pose proof (f_equal (fun m => m !! k) Ht') as Hk. cbn beta in Hk.
    rewrite !lookup_take_lt in Hk by done. congruence.
  - split; [done|]. split; congruence.
  - exfalso. apply Hne'.
    pose proof (f_equal (fun m => m !! k') Ht) as Hk. cbn beta in Hk.
    rewrite !lookup_take_lt in Hk by done. congruence.
Qed.

Lemma first_difference_sym (l r : list T) (k : nat) (x y : T) :
  first_difference l r k x y → first_difference r l k y x.
Proof. intros (Ht & Hl & Hr & Hne). by repeat split. Qed.

Lemma mismatch_spec (l : list T) : ∀ r : list T,
  length l = length r →
  (mismatch eqb l r = Normal None ∧ equal_range eqb l r = Normal true
   ∧ l = r)
  ∨ (∃ k x y, mismatch eqb l r = Normal (Some (x, y))
              ∧ equal_range eqb l r = Normal false
              ∧ first_difference l r k x y).
Proof.
  induction l as [|x l IH]; intros [|y r] Hlen; try done.
  - by left.
  - cbn [mismatch equal_range]. destruct (eqb x y) eqn:Hxy.
    + apply eqb_spec in Hxy as ->.
      destruct (IH r) as [(Hm & He & ->)|(k & u & v & Hm & He & Hd)];
        [by injection Hlen|by left|].
      right. exists (S k), u, v. split; [done|]. split; [done|].
      destruct Hd as (Ht & Hl & Hr & Hne).
      split; [by rewrite !firstn_cons, Ht|done].
    + right. exists 0%nat, x, y. split; [done|]. split; [done|].
      split; [done|]. split; [done|]. split; [done|].
      intros Heq. apply eqb_spec in Heq. congruence.
Qed.
End comparing.

(** X20.  The comparison operators on two arrays of the same extents, for
    an element type whose [==] is equality and whose [<] is a strict total
    order: [==] holds exactly when the element sequences are equal; [<]
    holds exactly when, at the first place in storage order where the
    sequences differ, the left element is less (the lexicographic order);
    exactly one of [==], [<], [>] holds; [!=], [<=], [>=] are the negations
    of [==], [>], [<]; and [<] is transitive. *)
Theorem comparisons_lexicographic {T : Type} (eqb ltb : T → T → bool)
    (l r : array_md T) :
  (∀ x y : T, eqb x y = true ↔ x = y) →
  (∀ x : T, ltb x x = false) →
  (∀ x y : T, x ≠ y → ltb x y = negb (ltb y x)) →
  (∀ x y z : T, ltb x y = true → ltb y z = true → ltb x z = true) →
  length (data l) = length (data r) →
  ∃ eq lt gt : bool,
    equal eqb l r = Normal eq
    ∧ less eqb ltb l r = Normal lt
    ∧ greater eqb ltb l r = Normal gt
    ∧ not_equal eqb l r = Normal (negb eq)
    ∧ less_equal eqb ltb l r = Normal (negb gt)
    ∧ greater_equal eqb ltb l r = Normal (negb lt)
    ∧ (eq = true ↔ data l = data r)
    ∧ (lt = true ↔
       ∃ k x y, take k (data l) = take k (data r)
                ∧ data l !! k = Some x ∧ data r !! k = Some y
                ∧ ltb x y = true)
    ∧ ((eq = true ∧ lt = false ∧ gt = false)
       ∨ (eq = false ∧ lt = true ∧ gt = false)
       ∨ (eq = false ∧ lt = false ∧ gt = true))
    ∧ ∀ c : array_md T, length (data c) = length (data r) →
        lt = true → less eqb ltb r c = Normal true →
        less eqb ltb l c = Normal true.
Proof.
  intros Heq Hirr Htot Htrans Hlen.
  unfold not_equal, less_equal, greater_equal, greater, equal, less.
  destruct (mismatch_spec eqb Heq (data l) (data r) Hlen)
    as [(Hm & He & Hsame)|(k & x & y & Hm & He & Hd)].
  - destruct (mismatch_spec eqb Heq (data r) (data l) (eq_sym Hlen))
      as [(Hm' & _)|(k & x & y & _ & _ & Hd)].
    2:{ destruct Hd as (_ & Hl & Hr & Hne). congruence. }
    exists true, false, false. rewrite Hm, Hm', He.
    cbn [mbind outcome_bind negb].
    repeat (split; [done|]). split.
    { split; [done|]. intros (k & x & y & Ht & Hl & Hr & Hlt).
      rewrite Hsame in Hl. assert (x = y) as -> by congruence.
      by rewrite Hirr in Hlt. }
    split; [by left|]. done.
  - destruct (mismatch_spec eqb Heq (data r) (data l) (eq_sym Hlen))
      as [(_ & _ & Hsame)|(k' & y' & x' & Hm' & _ & Hd')].
    { destruct Hd as (_ & Hl & Hr & Hne). congruence. }
    destruct (first_difference_unique _ _ _ _ _ _ _ _
                (first_difference_sym _ _ _ _ _ Hd) Hd') as (<- & <- & <-).
    exists false, (ltb x y), (ltb y x). rewrite Hm, Hm', He.
    cbn [mbind outcome_bind negb].
    pose proof Hd as (Ht & Hl & Hr & Hne).
    repeat (split; [done|]). split.
    { split; [done|]. intros Hsame. rewrite Hsame in Hl. congruence. }
    split.
    { split.
      - intros Hlt. by exists k, x, y.
      - intros (k2 & x2 & y2 & Ht2 & Hl2 & Hr2 & Hlt2).
        assert (x2 ≠ y2) as Hne2.
        { intros ->. by rewrite Hirr in Hlt2. }
        destruct (first_difference_unique _ _ _ _ _ _ _ _ Hd
                    (conj Ht2 (conj Hl2 (conj Hr2 Hne2)))) as (_ & -> & ->).
        done. }
    split.
    { rewrite (Htot x y Hne). destruct (ltb y x); [right; right|right; left];
        done. }
    intros c Hlenc Hlt Hrc.
    destruct (mismatch_spec eqb Heq (data r) (data c) (eq_sym Hlenc))
      as [(Hmc & _)|(k2 & y2 & z2 & Hmc & _ & Hd2)];
      rewrite Hmc in Hrc; cbn [mbind outcome_bind] in Hrc; [done|].
    injection Hrc as Hyz. destruct Hd2 as (Ht2 & Hr2 & Hc2 & Hne2).
    assert (∃ k3 x3 z3, first_difference (data l) (data c) k3 x3 z3
                        ∧ ltb x3 z3 = true) as (k3 & x3 & z3 & Hd3 & Hlt3).
    { destruct (Nat.lt_trichotomy k k2) as [Hk|[->|Hk]].
      - exists k, x, y. split; [|done]. split; [|split; [done|split; [|done]]].
        + rewrite Ht. apply list_eq. intros j.
          pose proof (f_equal (fun m => m !! j) Ht2) as Hj. cbn beta in Hj.
          destruct (decide (j < k)%nat).
          * rewrite !lookup_take_lt in Hj |- * by lia. done.
          * by rewrite !lookup_take_ge by lia.
        + pose proof (f_equal (fun m => m !! k) Ht2) as Hj. cbn beta in Hj.
          rewrite !lookup_take_lt in Hj by lia. congruence.
      - assert (y2 = y) as -> by congruence.
        exists k2, x, z2. split; [|by eapply Htrans].
        split; [congruence|]. split; [done|]. split; [done|].
        intros ->. rewrite (Htot _ _ Hne) in Hlt. by rewrite Hyz in Hlt.
      - exists k2, y2, z2. split; [|done]. split; [|split; [|split; [done|done]]].
        + rewrite <- Ht2. apply list_eq. intros j.
          pose proof (f_equal (fun m => m !! j) Ht) as Hj. cbn beta in Hj.
          destruct (decide (j < k2)%nat).
          * rewrite !lookup_take_lt in Hj |- * by lia. done.
          * by rewrite !lookup_take_ge by lia.
        + pose proof (f_equal (fun m => m !! k2) Ht) as Hj. cbn beta in Hj.
          rewrite !lookup_take_lt in Hj by lia. congruence. }
    destruct (mismatch_spec eqb Heq (data l) (data c))
      as [(_ & _ & Hsame)|(k4 & x4 & z4 & Hm4 & _ & Hd4)]; [congruence| |].
    { destruct Hd3 as (_ & Hl3 & Hc3 & Hne3). congruence. }
    destruct (first_difference_unique _ _ _ _ _ _ _ _ Hd3 Hd4)
      as (_ & <- & <-).
    rewrite Hm4. cbn [mbind outcome_bind]. by rewrite Hlt3.
Qed.

(** *** The list form of [operator []] on a short list *)

Section short_list.
Context (digits : positive) {T : Type}.

Lemma extent_product_pos (shape : list nat) :
  Forall (fun n => (0 < n)%nat) shape → 0 < extent_product shape.
Proof.
  induction 1 as [|n shape Hn _ IH]; [done|].
  rewrite extent_product_cons. nia.
Qed.

Lemma nonempty_positive (shape : list nat) :
  0 < extent_product shape → Forall (fun n => (0 < n)%nat) (tail shape) →
  Forall (fun n => (0 < n)%nat) shape.
Proof.
  destruct shape as [|n shape]; [done|]. intros Hp Htail.
  rewrite extent_product_cons in Hp. constructor; [|done].
  destruct n as [|n]; lia.
Qed.

Lemma row_major_offset_pad (shape : list nat) : ∀ (i : list Z) (k : nat),
  (length i ≤ length shape)%nat →
  row_major_offset (map Z.of_nat shape) (i ++ replicate k 0)
  = row_major_offset (map Z.of_nat shape) i.
Proof.
  induction shape as [|n shape IH]; intros [|u v] k Hlen;
    cbn [length] in Hlen; try lia.
  - by destruct k.
  - destruct k as [|k]; [done|]. cbn [app replicate map].
    rewrite row_major_offset_cons, row_major_offset_nil.
    specialize (IH [] k ltac:(cbn; lia)). cbn [app] in IH.
    rewrite IH, row_major_offset_nil. lia.
  - cbn [app map]. rewrite !row_major_offset_cons, IH by lia. done.
Qed.

Lemma within_pad (shape : list nat) : ∀ i : list Z,
  within shape i → Forall (fun n => (0 < n)%nat) shape →
  within shape (i ++ replicate (length shape - length i) 0).
Proof.
  induction shape as [|n shape IH]; intros [|u v] Hin Hpos; try done.
  - cbn [app length Nat.sub]. by apply within_zeros.
  - destruct Hin as [Hu Hv]. apply Forall_cons in Hpos as [_ Hpos].
    cbn [app length Nat.sub within]. split; [done|]. by apply IH.
Qed.

(** X23.  The list form of [operator []] (and of [operator ()]) with at
    most [dimensionality] in-range indices on a non-empty array: it returns
    the element of [data()] at the row-major offset of the indices given,
    which is the element addressed by the list completed with zeros and the
    first element of the sub-array that the variadic [operator ()] returns
    for the same indices. *)
Theorem list_subscript_short (a : array_md T) (i : list Z) :
  well_formed digits a → 0 < size a → within (Extents a) i →
  ∃ x, call_list digits a i = Normal x
    ∧ data a !! Z.to_nat (row_major_offset (static_sizes a) i) = Some x
    ∧ call_list digits a (i ++ replicate (dimensionality a - length i) 0)
      = Normal x
    ∧ ∃ t', call a i = Some (Normal t') ∧ head (flatten t') = Some x.
Proof.
  intros Hwf Hsz Hin. pose proof Hwf as (Hsh & Htail & Hfit).
  pose proof (within_length _ _ Hin) as Hlen.
  unfold size in Hsz. rewrite static_size_product in Hsz.
  pose proof (nonempty_positive _ Hsz Htail) as Hpos.
  pose proof (within_pad _ _ Hin Hpos) as Hpad.
  fold (dimensionality a) in Hpad.
  assert (length (i ++ replicate (dimensionality a - length i) 0)
          = dimensionality a) as Hfull.
  { rewrite length_app, length_replicate. unfold dimensionality in *. lia. }
  destruct (element_at_offset digits a _ Hwf Hfull Hpad)
    as (Hoff & x & _ & _ & Hcl & _ & Hx).
  unfold static_sizes in Hoff, Hx |- *.
  rewrite row_major_offset_pad in Hoff, Hx by done.
  set (off := row_major_offset (map Z.of_nat (Extents a)) i) in *.
  exists x. split; [|split; [done|split; [done|]]].
  - unfold call_list in Hcl |- *. destruct (Extents a) as [|M N] eqn:HE.
    + done.
    + unfold subscript_list.
      destruct (loops_within digits a (M :: N) i 0 Hin) as [Hsl _];
        [done|rewrite static_size_product, HE; lia|done|].
      cbv zeta in Hsl. rewrite <- HE in Hsl at 1 2.
      rewrite <- static_size_product in Hsl. fold (static_sizes a) in Hsl.
      rewrite Hsl, Z.add_0_l. cbn [mbind outcome_bind]. fold off.
      unfold deref. destruct (Z.ltb_spec off 0); [lia|]. by rewrite Hx.
  - destruct (slice_block _ _ _ Hsh Hin) as (t' & Hsl & _ & Hfl).
    exists t'. split.
    { rewrite call_compiles by (done || by rewrite static_size_product).
      by rewrite Hsl. }
    rewrite Hfl, head_lookup. fold off.
    pose proof (extent_product_pos (drop (length i) (Extents a))
                  (Forall_drop _ _ _ Hpos)) as Hw.
    rewrite lookup_take_lt by lia. rewrite lookup_drop, Nat.add_0_r.
    exact Hx.
Qed.
End short_list.

(** *** Further properties at the sample arrays *)

Lemma arr_2x3_positive :
  Forall (fun n => (0 < n)%nat) (Extents Samples.arr_2x3).
Proof. repeat constructor. Defined.


Lemma sizes64_1_2 : Forall (SizeType.is_size 64) [1; 2].
Proof. repeat constructor; by vm_compute. Defined.

Lemma two_indices_fit :
  (length [1; 5] ≤ dimensionality Samples.arr_2x3)%nat.
Proof. cbn. lia. Defined.

Lemma within_row_1 : within (Extents Samples.arr_2x3) [1].
Proof. cbn. lia. Defined.



Lemma arr_2x3_nonempty : 0 < size Samples.arr_2x3.
Proof. by vm_compute. Defined.

Lemma same_sizes :
  length (data Samples.arr_2x3) = length (data Samples.other_2x3).
Proof. reflexivity. Defined.

Lemma ltb_total (x y : Z) : x ≠ y → (x <? y) = negb (y <? x).
Proof.
  intros Hne. destruct (Z.ltb_spec x y), (Z.ltb_spec y x); cbn; lia || done.
Defined.

Lemma ltb_trans (x y z : Z) :
  (x <? y) = true → (y <? z) = true → (x <? z) = true.
Proof. rewrite !Z.ltb_lt. lia. Defined.

(** X21 at the 2 by 3 sample array and the list [{1, 2}]. *)
Lemma at_list_positive_extents_witness :
  (at_list 64 Samples.arr_2x3 [1; 2] = Throw length_error
   ↔ length [1; 2] ≠ dimensionality Samples.arr_2x3)
  ∧ (at_list 64 Samples.arr_2x3 [1; 2] = Throw out_of_range
     ↔ length [1; 2] = dimensionality Samples.arr_2x3
       ∧ ¬ within (Extents Samples.arr_2x3) [1; 2])
    ∧ (length [1; 2] = dimensionality Samples.arr_2x3
       → within (Extents Samples.arr_2x3) [1; 2]
         → ∃ x : Z,
             at_list 64 Samples.arr_2x3 [1; 2] = Normal x
             ∧ data Samples.arr_2x3
               !! Z.to_nat
                    (row_major_offset (static_sizes Samples.arr_2x3)
                       [1; 2]) =
               Some x).
Proof.
  exact (at_list_positive_extents 64 Samples.arr_2x3 [1; 2]
           arr_2x3_well_formed arr_2x3_positive sizes64_1_2).
Defined.

(** X12 at the 2 by 3 sample array and the indices [(1, 5)]. *)
Lemma variadic_at_bounds_witness :
  (at_ Samples.arr_2x3 [1; 5] = Some (Throw out_of_range)
   ↔ ¬ within (Extents Samples.arr_2x3) [1; 5])
  ∧ ((∃ t' : carray Z, at_ Samples.arr_2x3 [1; 5] = Some (Normal t'))
     ↔ within (Extents Samples.arr_2x3) [1; 5])
    ∧ (∀ e : exception,
         at_ Samples.arr_2x3 [1; 5] = Some (Throw e)
         → e = out_of_range)
      ∧ at_ Samples.arr_2x3 [1; 5] ≠ Some Undefined
        ∧ at_ Samples.arr_2x3 [1; 5] ≠ None.
Proof.
  exact (proj1 (variadic_at_bounds Samples.arr_2x3 [1; 5]
                  (proj1 arr_2x3_well_formed) two_indices_fit)
           arr_2x3_nonempty).
Defined.

(** X13 at the 2 by 3 sample array and the single index [(1)]. *)
Lemma partial_index_block_witness :
  ∃ t' : carray Z,
    call Samples.arr_2x3 [1] = Some (Normal t')
    ∧ has_shape (drop (length [1]) (Extents Samples.arr_2x3)) t'
      ∧ flatten t' =
        take
          (Z.to_nat
             (extent_product
                (drop (length [1]) (Extents Samples.arr_2x3))))
          (drop
             (Z.to_nat
                (row_major_offset (static_sizes Samples.arr_2x3) [1]))
             (data Samples.arr_2x3))
        ∧ ∀ j : list Z,
            slice t' j = slice (data_block Samples.arr_2x3) ([1] ++ j).
Proof.
  exact (partial_index_block Samples.arr_2x3 [1]
           (proj1 arr_2x3_well_formed) arr_2x3_nonempty within_row_1).
Defined.

(** X14 at the 2 by 3 sample array. *)
Lemma front_back_corners_witness :
  (Forall (λ n : nat, (0 < n)%nat) (Extents Samples.arr_2x3)
   → ∃ x y : Z,
       front Samples.arr_2x3 = Normal x
       ∧ call Samples.arr_2x3
           (replicate (dimensionality Samples.arr_2x3) 0) =
         Some (Normal (Elem x))
         ∧ get 0 Samples.arr_2x3 = Some (Normal x)
           ∧ back Samples.arr_2x3 = Normal y
             ∧ call Samples.arr_2x3
                 (map (λ n : nat, Z.of_nat n - 1)
                    (Extents Samples.arr_2x3)) =
               Some (Normal (Elem y))
               ∧ get (Z.to_nat (size Samples.arr_2x3 - 1))
                   Samples.arr_2x3 =
                 Some (Normal y))
  ∧ (size Samples.arr_2x3 = 0
     → front Samples.arr_2x3 = Undefined
       ∧ back Samples.arr_2x3 = Undefined
         ∧ ∀ I : nat, get I Samples.arr_2x3 = None).
Proof.
  exact (front_back_corners 64 Samples.arr_2x3 arr_2x3_well_formed).
Defined.


(** X16 at the 2 by 3 sample array, with negation as the conversion. *)
Lemma conversion_elementwise_witness :
  ∃ a' : array_md Z,
    convert_array Z.opp 0 Samples.arr_2x3 = Normal a'
    ∧ well_formed 64 a'
      ∧ Extents a' = Extents Samples.arr_2x3
        ∧ data a' = map Z.opp (data Samples.arr_2x3)
          ∧ ∀ i : list Z,
              length i = dimensionality Samples.arr_2x3
              → within (Extents Samples.arr_2x3) i
                → ∃ x : Z,
                    call Samples.arr_2x3 i = Some (Normal (Elem x))
                    ∧ call a' i = Some (Normal (Elem (- x))).
Proof.
  exact (conversion_elementwise 64 Z.opp 0 Samples.arr_2x3
           arr_2x3_well_formed).
Defined.

(** X17 at the 2 by 3 sample array and the value 9. *)
Lemma fill_all_witness :
  well_formed 64 (fill Samples.arr_2x3 9)
  ∧ Extents (fill Samples.arr_2x3 9) = Extents Samples.arr_2x3
    ∧ data (fill Samples.arr_2x3 9) =
      replicate (length (data Samples.arr_2x3)) 9
      ∧ ∀ i : list Z,
          length i = dimensionality Samples.arr_2x3
          → within (Extents Samples.arr_2x3) i
            → call (fill Samples.arr_2x3 9) i = Some (Normal (Elem 9))
              ∧ at_list 64 (fill Samples.arr_2x3 9) i = Normal 9.
Proof.
  exact (fill_all 64 Samples.arr_2x3 9 arr_2x3_well_formed).
Defined.

(** X18: the 2 by 3 sample array remade as a 3 by 2 array, with negation as the conversion. *)
Lemma remake_array_layout_witness :
  let r := remake_array Z.opp 0 [3%nat; 2%nat] Samples.arr_2x3 in
  Extents r = [3%nat; 2%nat]
  ∧ has_shape [3%nat; 2%nat] (data_block r)
    ∧ Z.of_nat (length (data r)) = extent_product [3%nat; 2%nat]
      ∧ (∀ (k : nat) (x : Z),
           data Samples.arr_2x3 !! k = Some x
           → Z.of_nat k < extent_product [3%nat; 2%nat]
             → data r !! k = Some (- x))
        ∧ (∀ k : nat,
             (length (data Samples.arr_2x3) <= k)%nat
             → Z.of_nat k < extent_product [3%nat; 2%nat]
               → data r !! k = Some 0)
          ∧ (extent_product (Extents Samples.arr_2x3) =
             extent_product [3%nat; 2%nat]
             → data r = map Z.opp (data Samples.arr_2x3)).
Proof.
  exact (remake_array_layout Z.opp 0 [3; 2]%nat Samples.arr_2x3
           (proj1 arr_2x3_well_formed)).
Defined.

(** X19 at the 2 by 3 sample array and the logging visitor. *)
Lemma apply_visits_in_storage_order_witness :
  let calls :=
    zip (data Samples.arr_2x3)
      (index_tuples (Extents Samples.arr_2x3))
    in
  (∃ a' : array_md Z,
     apply Samples.log_call Samples.arr_2x3 [] =
     Some (Normal (a', (MultiArray.visit Samples.log_call calls []).2))
     ∧ Extents a' = Extents Samples.arr_2x3
       ∧ has_shape (Extents a') (data_block a')
         ∧ data a' = (MultiArray.visit Samples.log_call calls []).1)
  ∧ length calls = length (data Samples.arr_2x3)
    ∧ ∀ (k : nat) (x : Z) (i : list Z),
        calls !! k = Some (x, i)
        → data Samples.arr_2x3 !! k = Some x
          ∧ length i = dimensionality Samples.arr_2x3
            ∧ within (Extents Samples.arr_2x3) i
              ∧ row_major_offset (static_sizes Samples.arr_2x3) i =
                Z.of_nat k
                ∧ call Samples.arr_2x3 i = Some (Normal (Elem x)).
Proof.
  destruct (apply_visits_in_storage_order Samples.log_call Samples.arr_2x3
              [] (proj1 arr_2x3_well_formed)) as (Hruns & _ & Hcount & Hcalls).
  split; [exact (Hruns arr_2x3_nonempty)|].
  split; [exact Hcount|exact Hcalls].
Defined.

(** X20 at the two 2 by 3 sample arrays of integers. *)
Lemma comparisons_lexicographic_witness :
  ∃ eq0 lt gt : bool,
    equal Z.eqb Samples.arr_2x3 Samples.other_2x3 = Normal eq0
    ∧ less Z.eqb Z.ltb Samples.arr_2x3 Samples.other_2x3 =
      Normal lt
      ∧ greater Z.eqb Z.ltb Samples.arr_2x3 Samples.other_2x3 =
        Normal gt
        ∧ not_equal Z.eqb Samples.arr_2x3 Samples.other_2x3 =
          Normal (negb eq0)
          ∧ less_equal Z.eqb Z.ltb Samples.arr_2x3
              Samples.other_2x3 =
            Normal (negb gt)
            ∧ greater_equal Z.eqb Z.ltb Samples.arr_2x3
                Samples.other_2x3 =
              Normal (negb lt)
              ∧ (eq0 = true
                 ↔ data Samples.arr_2x3 = data Samples.other_2x3)
                ∧ (lt = true
                   ↔ ∃ (k : nat) (x y : Z),
                       take k (data Samples.arr_2x3) =
                       take k (data Samples.other_2x3)
                       ∧ data Samples.arr_2x3 !! k = Some x
                         ∧ data Samples.other_2x3 !! k = Some y
                           ∧ (x <? y) = true)
                  ∧ (eq0 = true ∧ lt = false ∧ gt = false
                     ∨ eq0 = false ∧ lt = true ∧ gt = false
                       ∨ eq0 = false ∧ lt = false ∧ gt = true)
                    ∧ ∀ c : array_md Z,
                        length (data c) =
                        length (data Samples.other_2x3)
                        → lt = true
                          → less Z.eqb Z.ltb Samples.other_2x3 c =
                            Normal true
                            → less Z.eqb Z.ltb Samples.arr_2x3 c =
                              Normal true.
Proof.
  exact (comparisons_lexicographic Z.eqb Z.ltb Samples.arr_2x3
           Samples.other_2x3 Z.eqb_eq Z.ltb_irrefl ltb_total ltb_trans
           same_sizes).
Defined.

(** X23 at the 2 by 3 sample array and the one-index list [{1}]. *)
Lemma list_subscript_short_witness :
  ∃ x : Z,
    call_list 64 Samples.arr_2x3 [1] = Normal x
    ∧ data Samples.arr_2x3
      !! Z.to_nat (row_major_offset (static_sizes Samples.arr_2x3) [1]) =
      Some x
      ∧ call_list 64 Samples.arr_2x3
          ([1] ++
           replicate (dimensionality Samples.arr_2x3 - length [1]) 0) =
        Normal x
        ∧ ∃ t' : carray Z,
            call Samples.arr_2x3 [1] = Some (Normal t')
            ∧ head (flatten t') = Some x.
Proof.
  exact (list_subscript_short 64 Samples.arr_2x3 [1] arr_2x3_well_formed
           arr_2x3_nonempty within_row_1).
Defined.
End ArrayMDFacts.

(** ** The dynamically shaped adapter *)

Module MultiArrayFacts.
Import MultiArray.
Section facts.
Context (digits : positive) (Rank : nat).

#[local] Abbreviation size_max := (SizeType.size_max digits).
#[local] Abbreviation is_size := (SizeType.is_size digits).
#[local] Abbreviation indexed_base := (MultiArray.indexed_base).
#[local] Abbreviation slots := (MultiArray.slots Rank).

Implicit Types s : indexed_base.

Lemma slots_ge : (Rank ≤ slots)%nat.
Proof. unfold MultiArray.slots. lia. Qed.

Lemma slots_pos_rank : (0 < Rank)%nat → slots = Rank.
Proof. unfold MultiArray.slots. destruct Rank; lia. Qed.

(** *** The overflow check of [update_extents] *)

Lemma overflow_loop_spec (e : list Z) : ∀ limit,
  0 < limit ≤ size_max → Forall (fun x => 0 < x) e →
  overflow_loop digits limit e =
    if decide (limit * prod_list e ≤ size_max)
    then Normal (limit * prod_list e) else Throw overflow_error.
Proof.
  induction e as [|x e IH]; intros limit Hlimit Hpos; simpl.
  - change (prod_list []) with 1. rewrite Z.mul_1_r.
    by rewrite decide_True by lia.
  - apply Forall_cons in Hpos as [Hx Hpos].
    pose proof (prod_list_pos e Hpos) as Hp.
    rewrite prod_list_cons.
    destruct (Z.eqb_spec limit 0) as [?|_]; [lia|].
    destruct (Z.gtb_spec x (size_max / limit)) as [Hgt|Hle].
    + rewrite decide_False; [done|].
      assert (size_max < limit * x); [|nia].
      pose proof (Z.div_mod size_max limit ltac:(lia)) as Hdm.
      pose proof (Z.mod_pos_bound size_max limit ltac:(lia)) as Hmod.
      nia.
    + assert (limit * x ≤ size_max) as Hfit.
      { etrans; [apply Z.mul_le_mono_nonneg_l, Hle; lia|].
        apply Z.mul_div_le. lia. }
      rewrite SizeTypeFacts.mul_small by lia.
      rewrite IH by (done || nia).
      rewrite Z.mul_assoc. done.
Qed.

Lemma update_extents_zero (e : list Z) s :
  0 ∈ e → update_extents digits e s = Raised out_of_range s.
Proof.
  intros H. unfold update_extents.
  apply existsb_eq_zero in H. by rewrite H.
Qed.

Lemma update_extents_nonzero (e : list Z) s :
  Forall is_size e → 0 ∉ e →
  update_extents digits e s =
    if decide (prod_list e ≤ size_max)
    then Done (set_extents (copy_into e (stats_extents s)) s)
    else Raised overflow_error s.
Proof.
  intros Hsz Hnz. unfold update_extents.
  destruct (existsb _ e) eqn:Hex.
  { apply existsb_eq_zero in Hex. contradiction. }
  rewrite overflow_loop_spec.
  - rewrite Z.mul_1_l. by destruct (decide _).
  - pose proof (SizeTypeFacts.size_max_pos digits). lia.
  - by eapply nonzero_sizes_pos.
Qed.

(** *** Reading the rows of a well-shaped state *)

Section shaped.
Context (s : indexed_base) (Hs : shape_ok digits Rank s).

Lemma priority_range (k : nat) (d : Z) :
  priorities Rank s !! k = Some d → 0 ≤ d < Z.of_nat Rank.
Proof.
  intros Hk. apply list_elem_of_lookup_2 in Hk.
  rewrite (shape_priorities_perm _ _ _ Hs) in Hk.
  apply elem_of_seqZ in Hk. lia.
Qed.

Lemma priorities_NoDup : NoDup (priorities Rank s).
Proof.
  rewrite (shape_priorities_perm _ _ _ Hs). apply NoDup_seqZ.
Qed.

Lemma priorities_length : length (priorities Rank s) = Rank.
Proof.
  rewrite (shape_priorities_perm _ _ _ Hs).
  unfold iota. rewrite length_seqZ. lia.
Qed.

Lemma extents_length : length (extents Rank s) = Rank.
Proof.
  unfold extents. rewrite length_take, (shape_extents_len _ _ _ Hs).
  pose proof slots_ge. lia.
Qed.

Lemma priority_lookup (k : nat) :
  (k < Rank)%nat → ∃ d, priorities Rank s !! k = Some d.
Proof.
  intros Hk. apply lookup_lt_is_Some. by rewrite priorities_length.
Qed.

Lemma row_get_priority (k : nat) (d : Z) :
  priorities Rank s !! k = Some d →
  row_get (stats_priorities s) (Z.of_nat k) = Normal d.
Proof.
  intros Hk. apply row_get_lookup.
  unfold priorities in Hk. by apply lookup_take_Some in Hk as [? _].
Qed.

Lemma extent_lookup (d : Z) :
  0 ≤ d < Z.of_nat Rank →
  stats_extents s !! Z.to_nat d = Some (extent_of s d) ∧ 0 < extent_of s d.
Proof.
  intros Hd. unfold extent_of.
  assert (Z.to_nat d < Rank)%nat as Hlt by lia.
  destruct (lookup_lt_is_Some_2 (extents Rank s) (Z.to_nat d)) as [v Hv].
  { by rewrite extents_length. }
  pose proof (shape_extents_pos _ _ _ Hs) as Hpos.
  rewrite Forall_lookup in Hpos. specialize (Hpos _ _ Hv).
  unfold extents in Hv. apply lookup_take_Some in Hv as [Hv _].
  rewrite Hv. done.
Qed.

Lemma extents_by_priority :
  prod_list (map (extent_of s) (priorities Rank s)) =
  prod_list (extents Rank s).
Proof.
  rewrite (prod_list_perm _ (map (extent_of s) (iota Rank))).
  2:{ apply Permutation_map, (shape_priorities_perm _ _ _ Hs). }
  f_equal. apply list_eq. intros i.
  change (map (extent_of s) (iota Rank)) with (extent_of s <$> iota Rank).
  rewrite list_lookup_fmap. unfold iota.
  destruct (decide (i < Rank)%nat) as [Hi|Hi].
  - rewrite lookup_seqZ_lt by lia. simpl.
    destruct (extent_lookup (Z.of_nat i)) as [Hl _]; [lia|].
    rewrite Nat2Z.id in Hl. unfold extents.
    rewrite lookup_take_lt by done. rewrite Hl. by rewrite Z.add_0_l.
  - rewrite lookup_seqZ_ge by lia. simpl. symmetry.
    apply lookup_ge_None. rewrite extents_length. lia.
Qed.

Lemma accumulate_extents :
  SizeType.accumulate_mul digits (stats_extents s) =
  prod_list (extents Rank s).
Proof.
  unfold SizeType.accumulate_mul.
  destruct (decide (Rank = 0%nat)) as [H0|H0].
  - unfold extents.
    destruct (shape_rank0 _ _ _ Hs H0) as (-> & _ & _). rewrite H0.
    change (prod_list (take 0 [1])) with 1.
    change (foldl (SizeType.mul digits) 1 [1])
      with (SizeType.mul digits 1 1).
    rewrite SizeTypeFacts.mul_small;
      pose proof (SizeTypeFacts.size_max_pos digits); lia.
  - assert (stats_extents s = extents Rank s) as Heq.
    { unfold extents. rewrite take_ge; [done|].
      rewrite (shape_extents_len _ _ _ Hs), slots_pos_rank; lia. }
    rewrite Heq at 1.
    rewrite SizeTypeFacts.accumulate_mul_exact; [lia|lia| |].
    + apply (shape_extents_pos _ _ _ Hs).
    + pose proof (shape_extents_fit _ _ _ Hs). lia.
Qed.
Lemma priority_inj (k k' : nat) (d d' : Z) :
  priorities Rank s !! k = Some d → priorities Rank s !! k' = Some d' →
  Z.to_nat d = Z.to_nat d' → k = k'.
Proof.
  intros Hk Hk' Heq.
  pose proof (priority_range _ _ Hk). pose proof (priority_range _ _ Hk').
  assert (d = d') as <- by lia.
  eapply NoDup_lookup; eauto using priorities_NoDup.
Qed.

(** *** The loop of [recalculate_strides] *)

Lemma strides_loop (n : nat) : ∀ (i : nat) (r : list Z),
  (i + n = Rank)%nat → length r = slots →
  ∃ r',
    for_each (strides_body)
      (prod_list (map (extent_of s) (drop i (priorities Rank s))),
       set_strides r s) (seq i n)
    = Normal (1, set_strides r' s)
    ∧ length r' = slots
    ∧ (∀ k d, (i ≤ k)%nat → priorities Rank s !! k = Some d →
         r' !! Z.to_nat d = Some (less_major_product Rank s k))
    ∧ (∀ j, (∀ k d, (i ≤ k)%nat → priorities Rank s !! k = Some d →
               Z.to_nat d ≠ j) → r' !! j = r !! j).
Proof.
  induction n as [|n IH]; intros i r Hin Hr.
  - exists r. simpl. rewrite drop_ge by (rewrite priorities_length; lia).
    split; [reflexivity|split; [done|split; [|done]]].
    intros k d Hk Hd. apply lookup_lt_Some in Hd.
    rewrite priorities_length in Hd. lia.
  - destruct (priority_lookup i) as [d Hd]; [lia|].
    pose proof (priority_range _ _ Hd) as Hrange.
    destruct (extent_lookup d Hrange) as [He Hepos].
    rewrite (drop_S _ _ _ Hd).
    change (map (extent_of s) (d :: ?l))
      with (extent_of s d :: map (extent_of s) l).
    rewrite prod_list_cons.
    set (rest := prod_list (map (extent_of s)
                              (drop (S i) (priorities Rank s)))).
    destruct (IH (S i) (<[Z.to_nat d := rest]> r))
      as (r' & Hrun & Hlen & Hset & Hframe);
      [lia|by rewrite length_insert|].
    exists r'. split; [|split; [done|split]].
    + change (seq i (S n)) with (i :: seq (S i) n).
      cbn [for_each]. unfold strides_body at 2.
      cbn [stats_priorities stats_extents stats_strides set_strides].
      rewrite (row_get_priority _ _ Hd). cbn [mbind outcome_bind].
      rewrite (row_get_lookup_Z _ _ _ (proj1 Hrange) He).
      cbn [mbind outcome_bind].
      destruct (Z.eqb_spec (extent_of s d) 0) as [?|_]; [lia|].
      rewrite Z.mul_comm, Z.div_mul by lia.
      rewrite row_set_insert; [|lia|rewrite Hr; pose proof slots_ge; lia].
      cbn [mbind outcome_bind]. apply Hrun.
    + intros k d' Hk Hd'.
      destruct (decide (k = i)) as [->|Hne].
      * rewrite Hd in Hd'. injection Hd' as <-.
        rewrite Hframe.
        -- rewrite list_lookup_insert_eq; [done|].
           rewrite Hr. pose proof slots_ge. lia.
        -- intros k' d' Hk' Hd' Heq.
           pose proof (priority_inj _ _ _ _ Hd' Hd Heq). lia.
      * apply Hset; [lia|done].
    + intros j Hj. rewrite Hframe.
      * apply list_lookup_insert_ne. apply (Hj i d); [lia|done].
      * intros k d' Hk Hd'. apply (Hj k d'); [lia|done].
Qed.

Lemma recalculate_strides_ok :
  ∃ r', recalculate_strides digits Rank s = Done (set_strides r' s)
        ∧ shape_ok digits Rank (set_strides r' s)
        ∧ strides_cached Rank (set_strides r' s).
Proof.
  destruct (strides_loop Rank 0 (stats_strides s))
    as (r' & Hrun & Hlen & Hset & Hframe);
    [lia|apply (shape_strides_len _ _ _ Hs)|].
  exists r'. split; [|split].
  - unfold recalculate_strides.
    rewrite accumulate_extents, <- extents_by_priority.
    rewrite drop_0 in Hrun.
    replace (set_strides (stats_strides s) s) with s in Hrun
      by (by destruct s).
    by rewrite Hrun.
  - destruct Hs as [H1 H2 H3 H4 H5 H6 H7].
    split; try done.
    intros H0. destruct (H7 H0) as (? & ? & Hst). repeat split; try done.
    cbn [stats_strides set_strides].
    apply list_eq. intros j. rewrite Hframe; [by rewrite Hst|].
    intros k d _ Hd. apply lookup_lt_Some in Hd.
    rewrite priorities_length in Hd. lia.
  - intros k d Hd. apply (Hset k d); [lia|done].
Qed.
End shaped.

(** *** The setters, case by case *)

Lemma extents_sizes s :
  shape_ok digits Rank s → stats_type digits Rank (extents Rank s).
Proof.
  intros Hs. split; [by apply extents_length|].
  apply Forall_forall. intros x Hx.
  pose proof (shape_extents_pos _ _ _ Hs) as Hpos.
  pose proof (prod_list_ge_elem _ _ Hpos Hx).
  rewrite Forall_forall in Hpos. specialize (Hpos x Hx).
  pose proof (shape_extents_fit _ _ _ Hs). split; lia.
Qed.

Lemma update_extents_shape s (e : list Z) :
  shape_ok digits Rank s → stats_type digits Rank e →
  0 ∉ e → prod_list e ≤ size_max →
  let s1 := set_extents (copy_into e (stats_extents s)) s in
  update_extents digits e s = Done s1
  ∧ shape_ok digits Rank s1 ∧ extents Rank s1 = e.
Proof.
  intros Hs [Hlen Hsz] Hnz Hfit s1.
  assert (extents Rank s1 = e) as Hext.
  { unfold extents, s1. cbn [stats_extents set_extents].
    rewrite <- Hlen at 1. apply copy_into_take. }
  split; [|split; [|done]].
  - rewrite update_extents_nonzero by done. by rewrite decide_True.
  - destruct Hs as [H1 H2 H3 H4 H5 H6 H7].
    split; try done.
    + cbn [stats_extents set_extents s1]. rewrite copy_into_length; [done|].
      rewrite Hlen, H1. apply slots_ge.
    + rewrite Hext. by eapply nonzero_sizes_pos.
    + by rewrite Hext.
    + intros H0. destruct (H7 H0) as (He & ? & ?). repeat split; try done.
      cbn [stats_extents set_extents s1].
      rewrite H0 in Hlen. apply nil_length_inv in Hlen. by subst e.
Qed.

Lemma update_priorities_range s (p : list Z) (x : Z) :
  x ∈ p → Z.of_nat Rank ≤ x →
  update_priorities Rank p s = Raised out_of_range s.
Proof.
  intros Hin Hx. unfold update_priorities.
  replace (existsb _ p) with true; [done|].
  symmetry. apply existsb_exists. exists x.
  split; [by apply list_elem_of_In|].
  unfold dimensionality. apply Z.geb_le. lia.
Qed.

Lemma update_priorities_in_range s (p : list Z) :
  length p = Rank → Forall (fun x => x < Z.of_nat Rank) p →
  update_priorities Rank p s =
    if decide (p ≡ₚ iota Rank)
    then Done (set_priorities (copy_into p (stats_priorities s)) s)
    else Raised invalid_argument s.
Proof.
  intros Hlen Hlt. unfold update_priorities.
  replace (existsb _ p) with false.
  2:{ symmetry. apply not_true_is_false. intros (x & Hin & Hx)%existsb_exists.
      rewrite Forall_forall in Hlt. apply list_elem_of_In, Hlt in Hin.
      unfold dimensionality in Hx. apply Z.geb_le in Hx. lia. }
  unfold is_permutation. rewrite Hlen.
  rewrite (take_ge (iota Rank)) by (unfold iota; rewrite length_seqZ; lia).
  destruct (decide (p ≡ₚ iota Rank)) as [Hp|Hp].
  - by rewrite bool_decide_eq_true_2.
  - by rewrite bool_decide_eq_false_2.
Qed.

Lemma update_priorities_shape s (p : list Z) :
  shape_ok digits Rank s → p ≡ₚ iota Rank →
  let s1 := set_priorities (copy_into p (stats_priorities s)) s in
  update_priorities Rank p s = Done s1
  ∧ shape_ok digits Rank s1 ∧ priorities Rank s1 = p.
Proof.
  intros Hs Hp s1.
  assert (length p = Rank) as Hlen.
  { rewrite Hp. unfold iota. rewrite length_seqZ. lia. }
  assert (priorities Rank s1 = p) as Hpr.
  { unfold priorities, s1. cbn [stats_priorities set_priorities].
    rewrite <- Hlen at 1. apply copy_into_take. }
  split; [|split; [|done]].
  - rewrite update_priorities_in_range; [by rewrite decide_True|done|].
    apply Forall_forall. intros x Hx. rewrite Hp in Hx.
    apply elem_of_seqZ in Hx. lia.
  - destruct Hs as [H1 H2 H3 H4 H5 H6 H7].
    split; try done.
    + cbn [stats_priorities set_priorities s1].
      rewrite copy_into_length; [done|]. rewrite Hlen, H2. apply slots_ge.
    + by rewrite Hpr.
    + intros H0. destruct (H7 H0) as (? & ? & ?). repeat split; try done.
      cbn [stats_priorities set_priorities s1].
      rewrite H0 in Hlen. apply nil_length_inv in Hlen. by subst p.
Qed.

(** A priority list that is not a reordering of [0 .. Rank-1]. *)
Lemma not_permutation_iff (p : list Z) :
  length p = Rank → Forall (fun x => 0 ≤ x < Z.of_nat Rank) p →
  ¬ p ≡ₚ iota Rank ↔
  ¬ NoDup p ∨ ∃ v, 0 ≤ v < Z.of_nat Rank ∧ v ∉ p.
Proof.
  intros Hlen Hrange. split.
  - intros Hnp. destruct (decide (NoDup p)) as [Hnd|Hnd]; [|by left].
    right.
    destruct (decide (Forall (fun v => v ∈ p) (iota Rank))) as [Hall|Hnall].
    + exfalso. apply Hnp. symmetry.
      apply submseteq_length_Permutation.
      * apply NoDup_submseteq; [apply NoDup_seqZ|].
        intros v Hv. rewrite Forall_forall in Hall. by apply Hall.
      * rewrite Hlen. unfold iota. rewrite length_seqZ. lia.
    + apply not_Forall_Exists in Hnall; [|intros v; apply _].
      apply Exists_exists in Hnall as (v & Hv & Hnot).
      exists v. split; [|done]. apply elem_of_seqZ in Hv. lia.
  - intros [Hnd|(v & Hv & Hnot)] Hp.
    + apply Hnd. rewrite Hp. apply NoDup_seqZ.
    + apply Hnot. rewrite Hp. apply elem_of_seqZ. lia.
Qed.

Lemma extents_set_done s (e : list Z) :
  shape_ok digits Rank s → stats_type digits Rank e →
  0 ∉ e → prod_list e ≤ size_max →
  ∃ s', extents_set digits Rank e s = Done s'
        ∧ invariant digits Rank s'
        ∧ extents Rank s' = e ∧ priorities Rank s' = priorities Rank s.
Proof.
  intros Hs He Hnz Hfit.
  destruct (update_extents_shape s e Hs He Hnz Hfit) as (Hup & Hs1 & Hext).
  destruct (recalculate_strides_ok _ Hs1) as (r' & Hre & Hs' & Hcached).
  eexists. unfold extents_set. rewrite Hup. cbn [and_then].
  split; [exact Hre|]. split; [by split|]. by split.
Qed.

Lemma extents_set_cases s (e : list Z) :
  shape_ok digits Rank s → stats_type digits Rank e →
  (0 ∈ e ∧ extents_set digits Rank e s = Raised out_of_range s)
  ∨ ((0 ∉ e) ∧ (size_max < prod_list e)
     ∧ extents_set digits Rank e s = Raised overflow_error s)
  ∨ ((0 ∉ e) ∧ (prod_list e ≤ size_max)
     ∧ ∃ s', extents_set digits Rank e s = Done s'
             ∧ invariant digits Rank s'
             ∧ extents Rank s' = e
             ∧ priorities Rank s' = priorities Rank s).
Proof.
  intros Hs He.
  destruct (decide (0 ∈ e)) as [Hz|Hnz].
  { left. split; [done|]. unfold extents_set.
    by rewrite update_extents_zero. }
  right. destruct (decide (prod_list e ≤ size_max)) as [Hfit|Hover].
  - right. split; [done|]. split; [done|]. by apply extents_set_done.
  - left. split; [done|]. split; [lia|]. unfold extents_set.
    rewrite update_extents_nonzero by (done || apply He).
    by rewrite decide_False.
Qed.

Lemma priorities_set_done s (p : list Z) :
  shape_ok digits Rank s → p ≡ₚ iota Rank →
  ∃ s', priorities_set digits Rank p s = Done s'
        ∧ invariant digits Rank s'
        ∧ priorities Rank s' = p ∧ extents Rank s' = extents Rank s.
Proof.
  intros Hs Hp.
  destruct (update_priorities_shape s p Hs Hp) as (Hup & Hs1 & Hpr).
  destruct (recalculate_strides_ok _ Hs1) as (r' & Hre & Hs' & Hcached).
  eexists. unfold priorities_set. rewrite Hup. cbn [and_then].
  split; [exact Hre|]. split; [by split|]. by split.
Qed.

Lemma priorities_set_cases s (p : list Z) :
  shape_ok digits Rank s → stats_type digits Rank p →
  ((∃ x, x ∈ p ∧ Z.of_nat Rank ≤ x)
   ∧ priorities_set digits Rank p s = Raised out_of_range s)
  ∨ (Forall (fun x => x < Z.of_nat Rank) p ∧ ¬ p ≡ₚ iota Rank
     ∧ priorities_set digits Rank p s = Raised invalid_argument s)
  ∨ (p ≡ₚ iota Rank
     ∧ ∃ s', priorities_set digits Rank p s = Done s'
             ∧ invariant digits Rank s'
             ∧ priorities Rank s' = p
             ∧ extents Rank s' = extents Rank s).
Proof.
  intros Hs [Hlen Hsz].
  destruct (decide (Forall (fun x => x < Z.of_nat Rank) p)) as [Hlt|Hbad].
  - right. destruct (decide (p ≡ₚ iota Rank)) as [Hp|Hp].
    + right. split; [done|]. by apply priorities_set_done.
    + left. split; [done|]. split; [done|]. unfold priorities_set.
      rewrite update_priorities_in_range by done.
      by rewrite decide_False.
  - left. apply not_Forall_Exists in Hbad; [|intros x; apply _].
    apply Exists_exists in Hbad as (x & Hx & Hge). simpl in Hge.
    split; [exists x; split; [done|lia]|].
    unfold priorities_set.
    rewrite (update_priorities_range s p x) by (done || lia). done.
Qed.

Lemma rollback s (e : list Z) :
  shape_ok digits Rank s → length e = Rank →
  update_extents digits (extents Rank s)
    (set_extents (copy_into e (stats_extents s)) s) = Done s.
Proof.
  intros Hs Hlen.
  destruct (extents_sizes s Hs) as [Hl Hsz].
  rewrite update_extents_nonzero; [|done|].
  2:{ intros H0. pose proof (shape_extents_pos _ _ _ Hs) as Hpos.
      rewrite Forall_forall in Hpos. specialize (Hpos 0 H0). lia. }
  rewrite decide_True by apply (shape_extents_fit _ _ _ Hs).
  f_equal. unfold set_extents. cbn [stats_extents stats_priorities stats_strides].
  rewrite copy_into_twice by lia.
  unfold extents. rewrite copy_into_take_same. by destruct s.
Qed.

Lemma extents_and_priorities_cases s (e p : list Z) :
  shape_ok digits Rank s →
  stats_type digits Rank e → stats_type digits Rank p →
  (∃ x, extents_and_priorities digits Rank e p s = Raised x s
        ∧ (0 ∈ e ∨ size_max < prod_list e ∨ ¬ p ≡ₚ iota Rank))
  ∨ ((0 ∉ e) ∧ (prod_list e ≤ size_max) ∧ p ≡ₚ iota Rank
     ∧ ∃ s', extents_and_priorities digits Rank e p s = Done s'
             ∧ invariant digits Rank s'
             ∧ extents Rank s' = e ∧ priorities Rank s' = p
             ∧ recalculate_strides digits Rank
                 (set_priorities (copy_into p (stats_priorities s))
                    (set_extents (copy_into e (stats_extents s)) s))
               = Done s').
Proof.
  intros Hs He Hp. unfold extents_and_priorities.
  destruct (decide (0 ∈ e)) as [Hz|Hnz].
  { left. exists out_of_range. rewrite update_extents_zero by done.
    split; [done|by left]. }
  destruct (decide (prod_list e ≤ size_max)) as [Hfit|Hover].
  2:{ left. exists overflow_error.
      rewrite update_extents_nonzero by (done || apply He).
      rewrite decide_False by done. split; [done|right; left; lia]. }
  destruct (update_extents_shape s e Hs He Hnz Hfit) as (Hup & Hs1 & Hext).
  rewrite Hup. cbn [and_then].
  destruct (priorities_set_cases _ p Hs1 Hp)
    as [[(x & Hx & Hge) _]|[(Hlt & Hnp & _)|(Hperm & _)]].
  - left. exists out_of_range.
    rewrite (update_priorities_range _ p x) by done.
    cbn [catch_rethrow]. rewrite rollback by (done || apply He).
    split; [done|]. right; right. intros Hperm. rewrite Hperm in Hx.
    apply elem_of_seqZ in Hx. lia.
  - left. exists invalid_argument.
    rewrite update_priorities_in_range by (done || apply Hp).
    rewrite decide_False by done.
    cbn [catch_rethrow]. rewrite rollback by (done || apply He).
    split; [done|]. by right; right.
  - right. split; [done|]. split; [done|]. split; [done|].
    destruct (update_priorities_shape _ p Hs1 Hperm) as (Hup2 & Hs2 & Hpr).
    rewrite Hup2. cbn [catch_rethrow and_then].
    destruct (recalculate_strides_ok _ Hs2) as (r' & Hre & Hs' & Hcached).
    eexists. split; [exact Hre|]. split; [by split|].
    split; [done|]. split; [done|]. exact Hre.
Qed.

(** *** Every state of a live object satisfies the invariant *)

Lemma default_shape_ok : shape_ok digits Rank (indexed_base_default Rank).
Proof.
  pose proof (SizeTypeFacts.size_max_pos digits) as Hmax.
  unfold indexed_base_default. split; cbn [stats_extents stats_priorities stats_strides].
  - apply length_replicate.
  - unfold iota. rewrite length_seqZ. lia.
  - apply length_replicate.
  - unfold extents. cbn [stats_extents].
    apply Forall_take, Forall_replicate. lia.
  - unfold extents. cbn [stats_extents].
    rewrite take_replicate.
    assert (∀ n, prod_list (replicate n 1) = 1) as Hone.
    { induction n as [|n IH]; [done|].
      change (replicate (S n) 1) with (1 :: replicate n 1).
      rewrite prod_list_cons, IH. done. }
    rewrite Hone. lia.
  - unfold priorities. cbn [stats_priorities].
    destruct (decide (Rank = 0%nat)) as [H0|H0].
    { rewrite H0. done. }
    rewrite slots_pos_rank by lia.
    rewrite take_ge; [done|].
    unfold iota. rewrite length_seqZ. lia.
  - intros H0. unfold MultiArray.slots. by rewrite H0.
Qed.

Lemma construct_done (csize : Z) :
  is_size csize →
  ∃ s, construct digits Rank csize = Done s ∧ invariant digits Rank s.
Proof.
  intros Hc. unfold construct, resize_to_fit.
  set (new_size := if negb (dimensionality Rank =? 0) && negb (csize =? 0)
                   then csize else 1).
  set (e := if bool_decide (replicate Rank 1 = [])
            then replicate Rank 1 else <[0%nat := new_size]> (replicate Rank 1)).
  pose proof (SizeTypeFacts.size_max_pos digits) as Hmax.
  assert (0 < new_size ≤ size_max) as Hnew.
  { unfold new_size. destruct (negb _ && negb (csize =? 0)) eqn:Hb; [|lia].
    apply andb_true_iff in Hb as [_ Hb]. apply negb_true_iff in Hb.
    apply Z.eqb_neq in Hb. unfold SizeType.is_size in Hc. lia. }
  assert (e = match Rank with O => [] | S n => new_size :: replicate n 1 end)
    as He.
  { unfold e. destruct Rank; [done|]. done. }
  assert (∀ n, prod_list (replicate n 1) = 1) as Hone.
  { induction n as [|n IH]; [done|].
    change (replicate (S n) 1) with (1 :: replicate n 1).
    rewrite prod_list_cons, IH. done. }
  destruct (extents_set_done (indexed_base_default Rank) e)
    as (s & Hs & Hinv & _).
  - apply default_shape_ok.
  - rewrite He. destruct Rank as [|n]; [by split|]. split.
    + simpl. by rewrite length_replicate.
    + apply Forall_cons. split; [unfold SizeType.is_size; lia|].
      apply Forall_replicate. unfold SizeType.is_size. lia.
  - rewrite He. destruct Rank as [|n]; [apply not_elem_of_nil|].
    intros [?|Hin%elem_of_replicate]%elem_of_cons; lia.
  - rewrite He. destruct Rank as [|n]; [unfold prod_list; simpl; lia|].
    rewrite prod_list_cons, Hone. lia.
  - by exists s.
Qed.

Theorem reachable_invariant s :
  reachable digits Rank s → invariant digits Rank s.
Proof.
  induction 1 as [csize s Hc Hcon|e s s' _ IH He Hl|p s s' _ IH Hp Hl
                 |e p s s' _ IH He Hp Hl].
  - destruct (construct_done csize Hc) as (s0 & Hs0 & Hinv). congruence.
  - destruct IH as [Hs Hst].
    destruct (extents_set_cases s e Hs He)
      as [[_ Heq]|[(_ & _ & Heq)|(_ & _ & s1 & Heq & Hinv & _)]];
      rewrite Heq in Hl; destruct Hl as [Hl|[x Hl]]; simplify_eq;
      done || by split.
  - destruct IH as [Hs Hst].
    destruct (priorities_set_cases s p Hs Hp)
      as [[_ Heq]|[(_ & _ & Heq)|(_ & s1 & Heq & Hinv & _)]];
      rewrite Heq in Hl; destruct Hl as [Hl|[x Hl]]; simplify_eq;
      done || by split.
  - destruct IH as [Hs Hst].
    destruct (extents_and_priorities_cases s e p Hs He Hp)
      as [(x & Heq & _)|(_ & _ & _ & s1 & Heq & Hinv & _)];
      rewrite Heq in Hl; destruct Hl as [Hl|[y Hl]]; simplify_eq;
      done || by split.
Qed.

Lemma required_size_invariant s :
  invariant digits Rank s →
  required_size digits s = Normal (prod_list (extents Rank s)).
Proof.
  intros [Hs Hcached]. unfold required_size.
  pose proof (SizeTypeFacts.size_max_pos digits) as Hmax.
  destruct (decide (Rank = 0%nat)) as [H0|H0].
  - destruct (shape_rank0 _ _ _ Hs H0) as (He & Hp & Hst).
    rewrite He, Hp, Hst. unfold extents. rewrite H0.
    change (row_get [0] 0) with (@Normal Z 0). cbn [mbind outcome_bind].
    change (row_get [1] 0) with (@Normal Z 1). cbn [mbind outcome_bind].
    rewrite SizeTypeFacts.mul_small by lia. done.
  - destruct (priority_lookup s Hs 0) as [d Hd]; [lia|].
    pose proof (priority_range s Hs _ _ Hd) as Hrange.
    destruct (extent_lookup s Hs d Hrange) as [He Hepos].
    pose proof (row_get_priority s 0 d Hd) as Hget.
    change (Z.of_nat 0) with 0 in Hget.
    rewrite Hget. cbn [mbind outcome_bind].
    rewrite (row_get_lookup_Z _ _ _ (proj1 Hrange) He).
    cbn [mbind outcome_bind].
    rewrite (row_get_lookup_Z _ _ _ (proj1 Hrange) (Hcached 0%nat d Hd)).
    cbn [mbind outcome_bind].
    assert (extent_of s d * less_major_product Rank s 0
            = prod_list (extents Rank s)) as Heq.
    { rewrite <- (extents_by_priority s Hs).
      pose proof (drop_S _ _ _ Hd) as HP. rewrite drop_0 in HP.
      unfold less_major_product.
      set (rest := drop 1 (priorities Rank s)) in *.
      rewrite HP. done. }
    rewrite SizeTypeFacts.mul_small.
    + by rewrite Heq.
    + lia.
    + pose proof (prod_list_pos _ (shape_extents_pos _ _ _ Hs)).
      unfold less_major_product in *. nia.
    + rewrite Heq. apply (shape_extents_fit _ _ _ Hs).
Qed.

(** *** One step of the odometer *)

Section stepping.
Context (s : indexed_base) (Hs : shape_ok digits Rank s).

Lemma extent_in_extents (d : Z) :
  0 ≤ d < Z.of_nat Rank →
  extents Rank s !! Z.to_nat d = Some (extent_of s d)
  ∧ 0 < extent_of s d ≤ size_max.
Proof.
  intros Hd. destruct (extent_lookup s Hs d Hd) as [He Hpos].
  assert (extents Rank s !! Z.to_nat d = Some (extent_of s d)) as Hl.
  { unfold extents. rewrite lookup_take_lt by lia. done. }
  split; [done|]. split; [done|].
  destruct (extents_sizes s Hs) as [_ Hsz].
  rewrite Forall_lookup in Hsz. apply (Hsz _ _ Hl).
Qed.

Lemma valid_pack_lookup (idx : list Z) (d : Z) :
  valid_pack Rank s idx → 0 ≤ d < Z.of_nat Rank →
  ∃ v, idx !! Z.to_nat d = Some v ∧ 0 ≤ v < extent_of s d.
Proof.
  intros Hv Hd. destruct (extent_in_extents d Hd) as [He _].
  destruct (Forall2_lookup_r _ _ _ _ _ Hv He) as (v & Hl & Hb). eauto.
Qed.

Lemma valid_pack_length (idx : list Z) :
  valid_pack Rank s idx → length idx = Rank.
Proof.
  intros Hv. rewrite (Forall2_length _ _ _ Hv). by apply extents_length.
Qed.

Lemma valid_pack_insert (idx : list Z) (d v : Z) :
  valid_pack Rank s idx → 0 ≤ d < Z.of_nat Rank →
  0 ≤ v < extent_of s d → valid_pack Rank s (<[Z.to_nat d := v]> idx).
Proof.
  intros Hv Hd Hb. destruct (extent_in_extents d Hd) as [He _].
  unfold valid_pack.
  rewrite <- (list_insert_id (extents Rank s) _ _ He).
  by apply Forall2_insert.
Qed.

Lemma first_index_pack_valid : valid_pack Rank s (first_index_pack Rank).
Proof.
  unfold valid_pack, first_index_pack.
  apply Forall2_same_length_lookup_2.
  { rewrite length_replicate. symmetry. by apply extents_length. }
  intros i v e Hv He. apply lookup_replicate in Hv as [-> _].
  pose proof (shape_extents_pos _ _ _ Hs) as Hpos.
  rewrite Forall_lookup in Hpos. specialize (Hpos _ _ He). lia.
Qed.

(** The body of the loop of [advance_index_pack] at place [k]. *)
Lemma advance_body_eval (t : bool) (idx : list Z) (k : nat) (d v : Z) :
  valid_pack Rank s idx →
  priorities Rank s !! k = Some d → idx !! Z.to_nat d = Some v →
  advance_body digits s (t, idx) k =
    let v1 := SizeType.add digits v (b2z t) in
    let t' := v1 >=? extent_of s d in
    Normal (t', <[Z.to_nat d := SizeType.mul digits v1 (b2z (negb t'))]> idx).
Proof.
  intros Hv Hd Hl.
  pose proof (priority_range s Hs _ _ Hd) as Hrange.
  destruct (extent_lookup s Hs d Hrange) as [He _].
  pose proof (valid_pack_length idx Hv) as Hlen.
  unfold advance_body.
  rewrite (row_get_priority s k d Hd). cbn [mbind outcome_bind].
  rewrite (row_get_lookup_Z _ _ _ (proj1 Hrange) Hl).
  cbn [mbind outcome_bind].
  rewrite row_set_insert by lia. cbn [mbind outcome_bind].
  rewrite (row_get_lookup_Z
             (<[Z.to_nat d := SizeType.add digits v (b2z t)]> idx) d
             (SizeType.add digits v (b2z t)))
    by (lia || (apply list_lookup_insert_eq; lia)).
  cbn [mbind outcome_bind].
  rewrite (row_get_lookup_Z _ _ _ (proj1 Hrange) He).
  cbn [mbind outcome_bind].
  rewrite row_set_insert by (rewrite ?length_insert; lia).
  cbn [mbind outcome_bind]. cbv zeta.
  by rewrite list_insert_insert_eq.
Qed.

(** Without a carry the rest of the loop changes nothing. *)
Lemma advance_no_carry (ks : list nat) (idx : list Z) :
  valid_pack Rank s idx → Forall (fun k => (k < Rank)%nat) ks →
  for_each (advance_body digits s) (false, idx) ks = Normal (false, idx).
Proof.
  intros Hv. induction 1 as [|k ks Hk _ IH]; [done|].
  destruct (priority_lookup s Hs k Hk) as [d Hd].
  pose proof (priority_range s Hs _ _ Hd) as Hrange.
  destruct (valid_pack_lookup idx d Hv Hrange) as (v & Hl & Hb).
  destruct (extent_in_extents d Hrange) as [_ Hemax].
  cbn [for_each]. rewrite (advance_body_eval false idx k d v) by done.
  cbv zeta. cbn [mbind outcome_bind b2z].
  unfold SizeType.add. rewrite Z.add_0_r.
  rewrite SizeTypeFacts.wrap_small by lia.
  destruct (Z.geb_spec v (extent_of s d)) as [?|_]; [lia|].
  cbn [negb b2z]. rewrite SizeTypeFacts.mul_small by lia.
  rewrite Z.mul_1_r, list_insert_id by done. apply IH.
Qed.

(** With a carry the loop does what the odometer of the specification
    does on the dimensions found at the places [ks]. *)
Lemma advance_carry (ks : list nat) : ∀ (idx : list Z) (ds : list Z),
  valid_pack Rank s idx →
  Forall2 (fun k d => priorities Rank s !! k = Some d) ks ds →
  ∃ t, for_each (advance_body digits s) (true, idx) ks
         = Normal (t, odometer_advance ds (extents Rank s) idx)
       ∧ valid_pack Rank s (odometer_advance ds (extents Rank s) idx).
Proof.
  induction ks as [|k ks IH]; intros idx ds Hv Hks.
  - apply Forall2_nil_inv_l in Hks as ->. by exists true.
  - apply Forall2_cons_inv_l in Hks as (d & ds' & Hd & Hks & ->).
    pose proof (priority_range s Hs _ _ Hd) as Hrange.
    destruct (valid_pack_lookup idx d Hv Hrange) as (v & Hl & Hb).
    destruct (extent_in_extents d Hrange) as [He Hemax].
    cbn [for_each odometer_advance].
    rewrite (advance_body_eval true idx k d v) by done.
    cbv zeta. cbn [mbind outcome_bind b2z].
    rewrite Hl, He. cbn [default from_option id].
    unfold SizeType.add. rewrite SizeTypeFacts.wrap_small by lia.
    destruct (Z.geb_spec (v + 1) (extent_of s d)) as [Hge|Hlt].
    + rewrite (proj2 (Z.eqb_eq _ _)) by lia. cbn [negb b2z].
      rewrite SizeTypeFacts.mul_small by lia. rewrite Z.mul_0_r.
      apply IH; [|done]. apply valid_pack_insert; [done|done|lia].
    + destruct (Z.eqb_spec (v + 1) (extent_of s d)) as [?|_]; [lia|].
      cbn [negb b2z]. rewrite SizeTypeFacts.mul_small by lia.
      rewrite Z.mul_1_r.
      assert (valid_pack Rank s (<[Z.to_nat d := v + 1]> idx)) as Hv'.
      { apply valid_pack_insert; [done|done|lia]. }
      exists false. split; [|done].
      apply advance_no_carry; [done|].
      apply Forall_forall. intros k' Hk'.
      apply list_elem_of_lookup in Hk' as [i Hi].
      destruct (Forall2_lookup_l _ _ _ _ _ Hks Hi) as (d' & _ & Hd').
      apply lookup_lt_Some in Hd'.
      by rewrite (priorities_length s Hs) in Hd'.
Qed.

Lemma advance_index_pack_odometer (idx : list Z) :
  valid_pack Rank s idx →
  let next :=
    odometer_advance (reverse (priorities Rank s)) (extents Rank s) idx in
  (∃ t, advance_index_pack digits Rank s idx = Normal (t, next))
  ∧ valid_pack Rank s next.
Proof.
  intros Hv next. unfold advance_index_pack.
  destruct (advance_carry (reverse (seq 0 Rank)) idx
              (reverse (priorities Rank s)) Hv) as (t & Hrun & Hv').
  - apply Forall2_reverse.
    apply Forall2_same_length_lookup_2.
    { by rewrite length_seq, (priorities_length s Hs). }
    intros i k d Hk Hd. apply lookup_seq in Hk as [-> _]. done.
  - split; [by exists t|done].
Qed.
End stepping.

(** *** The loop of [apply] *)

Section visiting.
Context {A St : Type} (f : A → list Z → St → A * St).
Context (s : indexed_base) (Hs : shape_ok digits Rank s).

#[local] Abbreviation next :=
  (odometer_advance (reverse (priorities Rank s)) (extents Rank s)).

Lemma iter_next_valid (j : nat) (idx : list Z) :
  valid_pack Rank s idx → valid_pack Rank s (Nat.iter j next idx).
Proof.
  intros Hv. induction j as [|j IH]; [done|].
  cbn [Nat.iter]. by apply (advance_index_pack_odometer s Hs).
Qed.

Lemma apply_loop_visits (n : nat) : ∀ (cur : nat) (idx : list Z)
    (c : list A) (acc : St),
  valid_pack Rank s idx → (cur + n ≤ length c)%nat →
  apply_loop digits Rank f s n cur idx c acc =
    Normal
      (let '(xs, acc') :=
         visit f (zip (take n (drop cur c))
                      (map (fun j => Nat.iter j next idx) (seq 0 n))) acc in
       (take cur c ++ xs ++ drop (cur + n) c, acc')).
Proof.
  induction n as [|n IH]; intros cur idx c acc Hv Hlen.
  - rewrite take_0. cbn. by rewrite Nat.add_0_r, take_drop.
  - destruct (lookup_lt_is_Some_2 c cur) as [x Hx]; [lia|].
    cbn [apply_loop]. rewrite Hx.
    rewrite (drop_S _ _ _ Hx), firstn_cons.
    cbn [seq map zip_with visit].
    change (Nat.iter 0 next idx) with idx.
    rewrite <- seq_shift, map_map.
    rewrite (map_ext (fun j => Nat.iter (S j) next idx)
                     (fun j => Nat.iter j next (next idx)))
      by (intros j; apply Nat.iter_succ_r).
    destruct (f x idx acc) as [x' acc'].
    destruct (advance_index_pack_odometer s Hs idx Hv) as [[t Hadv] Hv'].
    rewrite Hadv. cbn [mbind outcome_bind snd].
    rewrite IH; [|done|rewrite length_insert; lia].
    rewrite drop_insert_lt by lia.
    destruct (visit f _ acc') as [xs acc''].
    f_equal. f_equal.
    rewrite take_insert_lt by lia.
    rewrite (take_S_r _ _ _ Hx).
    rewrite insert_app_r_alt by (rewrite length_take; lia).
    rewrite length_take, Nat.min_l by lia. rewrite Nat.sub_diag.
    cbn [list_insert insert]. rewrite <- app_assoc. cbn [app].
    rewrite drop_insert_lt by lia.
    by rewrite Nat.add_succ_r.
Qed.
End visiting.

(** *** The odometer moves to the adjacent offset *)

Section adjacency.
Context (s : indexed_base) (Hs : shape_ok digits Rank s).
Context (Hcached : strides_cached Rank s).

#[local] Abbreviation P := (priorities Rank s).
#[local] Abbreviation V := (places_product Rank s).

Lemma V_step (m : nat) (d : Z) :
  P !! m = Some d → V m = extent_of s d * V (S m).
Proof. intros Hd. unfold places_product. by rewrite (drop_S _ _ _ Hd). Qed.

Lemma V_pos (m : nat) : 0 < V m.
Proof.
  unfold places_product. apply prod_list_pos, Forall_map, Forall_forall.
  intros d Hd. apply (subseteq_drop m P) in Hd.
  apply list_elem_of_lookup in Hd as [k Hk].
  destruct (extent_lookup s Hs d (priority_range s Hs _ _ Hk)) as [_ ?]. done.
Qed.

Lemma V_rank : V Rank = 1.
Proof.
  unfold places_product.
  by rewrite drop_ge by (rewrite (priorities_length s Hs); lia).
Qed.

Lemma V_total : V O = prod_list (extents Rank s).
Proof. unfold places_product. rewrite drop_0. by apply extents_by_priority. Qed.

Lemma stride_of_place (k : nat) (d : Z) :
  P !! k = Some d → stride_of s d = V (S k).
Proof. intros Hd. unfold stride_of. by rewrite (Hcached k d Hd). Qed.

Lemma place_value_app (t ds1 ds2 : list Z) :
  place_value s t (ds1 ++ ds2) = place_value s t ds1 + place_value s t ds2.
Proof.
  unfold place_value. induction ds1 as [|d ds1 IH]; cbn [app foldr]; [lia|].
  rewrite IH. lia.
Qed.

Lemma place_value_insert_other (t ds : list Z) (d x : Z) :
  0 ≤ d → Forall (fun d' => 0 ≤ d' ∧ d' ≠ d) ds →
  place_value s (<[Z.to_nat d := x]> t) ds = place_value s t ds.
Proof.
  intros Hd. unfold place_value.
  induction 1 as [|d' ds [H0 Hne] _ IH]; cbn [foldr]; [done|].
  rewrite IH, list_lookup_insert_ne by lia. done.
Qed.

Lemma place_value_take_S (t : list Z) (m : nat) (d : Z) :
  P !! m = Some d →
  place_value s t (take (S m) P) =
  place_value s t (take m P) + default 0 (t !! Z.to_nat d) * V (S m).
Proof.
  intros Hd. rewrite (take_S_r _ _ _ Hd), place_value_app.
  unfold place_value at 2. cbn [foldr].
  rewrite (stride_of_place m d Hd). lia.
Qed.

Lemma earlier_places_differ (m : nat) (d : Z) :
  P !! m = Some d → Forall (fun d' => 0 ≤ d' ∧ d' ≠ d) (take m P).
Proof.
  intros Hd. apply Forall_forall. intros d' Hd'.
  apply list_elem_of_lookup in Hd' as [k Hk].
  apply lookup_take_Some in Hk as [Hk Hlt].
  pose proof (priority_range s Hs _ _ Hk). split; [lia|].
  intros ->. pose proof (priority_inj s Hs _ _ _ _ Hk Hd eq_refl). lia.
Qed.

(** The places before [m] hold at most [V O - V m]. *)
Lemma place_value_bound (t : list Z) : valid_pack Rank s t →
  ∀ m : nat, (m ≤ Rank)%nat →
    0 ≤ place_value s t (take m P) ≤ V O - V m.
Proof.
  intros Hv. induction m as [|m IH]; intros Hm.
  - rewrite take_0. unfold place_value. cbn [foldr]. lia.
  - destruct (priority_lookup s Hs m) as [d Hd]; [lia|].
    pose proof (priority_range s Hs _ _ Hd) as Hrange.
    destruct (valid_pack_lookup s Hs t d Hv Hrange) as (v & Hl & Hb).
    rewrite (place_value_take_S t m d Hd), Hl.
    change (default 0 (Some v)) with v.
    pose proof (V_step m d Hd). pose proof (V_pos (S m)).
    specialize (IH ltac:(lia)). nia.
Qed.

(** The odometer run over the places before [m], the least major first:
    it adds [V m] to what those places hold, modulo the whole range, and
    leaves the other places alone. *)
Lemma odometer_adds (m : nat) : ∀ t : list Z,
  (m ≤ Rank)%nat → valid_pack Rank s t →
  let t' := odometer_advance (reverse (take m P)) (extents Rank s) t in
  place_value s t' (take m P) = (place_value s t (take m P) + V m) mod V O
  ∧ ∀ d, 0 ≤ d → Forall (fun d' => 0 ≤ d' ∧ d' ≠ d) (take m P) →
         t' !! Z.to_nat d = t !! Z.to_nat d.
Proof.
  induction m as [|m IH]; intros t Hm Hv.
  - rewrite take_0. cbn. split; [|done].
    unfold place_value. cbn [foldr]. rewrite Z.add_0_l, Z.mod_same; [done|].
    pose proof (V_pos 0). lia.
  - destruct (priority_lookup s Hs m) as [d Hd]; [lia|].
    pose proof (priority_range s Hs _ _ Hd) as Hrange.
    destruct (valid_pack_lookup s Hs t d Hv Hrange) as (v & Hl & Hb).
    destruct (extent_in_extents s Hs d Hrange) as [He _].
    pose proof (V_step m d Hd) as Hstep. pose proof (V_pos (S m)) as HVpos.
    pose proof (earlier_places_differ m d Hd) as Hdiff.
    rewrite (take_S_r _ _ _ Hd), reverse_snoc. cbn [odometer_advance].
    rewrite Hl, He. cbn [default from_option id].
    rewrite <- (take_S_r _ _ _ Hd).
    destruct (Z.eqb_spec (v + 1) (extent_of s d)) as [Hcarry|Hstay].
    + assert (valid_pack Rank s (<[Z.to_nat d := 0]> t)) as Hv'.
      { apply (valid_pack_insert s Hs); [done|done|lia]. }
      destruct (IH (<[Z.to_nat d := 0]> t) ltac:(lia) Hv') as [Hsum Hkeep].
      cbv zeta in Hsum, Hkeep |- *. split.
      * rewrite (place_value_take_S _ m d Hd), Hsum, Hkeep by (lia || done).
        rewrite list_lookup_insert_eq
          by (rewrite (valid_pack_length s Hs t Hv); lia).
        cbn [default from_option id].
        rewrite place_value_insert_other by (lia || done).
        rewrite (place_value_take_S t m d Hd), Hl.
        change (default 0 (Some v)) with v.
        change (default 0 (Some 0)) with 0.
        replace (place_value s t (take m P) + v * V (S m) + V (S m))
          with (place_value s t (take m P) + V m) by nia.
        lia.
      * intros d' Hd' Hother.
        rewrite (take_S_r _ _ _ Hd) in Hother.
        apply Forall_app in Hother as [Hother Hne].
        apply Forall_singleton in Hne as [_ Hne].
        rewrite Hkeep by done. apply list_lookup_insert_ne. lia.
    + cbv zeta. split.
      * assert (valid_pack Rank s (<[Z.to_nat d := v + 1]> t)) as Hv'.
        { apply (valid_pack_insert s Hs); [done|done|lia]. }
        pose proof (place_value_bound _ Hv' (S m) Hm) as Hbound.
        rewrite (place_value_take_S _ m d Hd) in Hbound |- *.
        rewrite list_lookup_insert_eq in Hbound |- *
          by (rewrite (valid_pack_length s Hs t Hv); lia).
        change (default 0 (Some (v + 1))) with (v + 1) in Hbound |- *.
        rewrite place_value_insert_other in Hbound |- * by (lia || done).
        rewrite (place_value_take_S t m d Hd), Hl.
        change (default 0 (Some v)) with v.
        rewrite Z.mod_small; [lia|].
        pose proof (place_value_bound _ Hv m ltac:(lia)). nia.
      * intros d' Hd' Hother.
        rewrite (take_S_r _ _ _ Hd) in Hother.
        apply Forall_app in Hother as [Hother Hne].
        apply Forall_singleton in Hne as [_ Hne].
        apply list_lookup_insert_ne. lia.
Qed.
(** One step of the odometer adds one to the offset, modulo the number of
    elements the shape addresses. *)
Lemma odometer_next_offset (t : list Z) :
  valid_pack Rank s t →
  place_value s (odometer_advance (reverse P) (extents Rank s) t) P =
  (place_value s t P + 1) mod V O.
Proof.
  intros Hv.
  destruct (odometer_adds Rank t ltac:(lia) Hv) as [Hsum _].
  cbv zeta in Hsum.
  rewrite (take_ge P) in Hsum by (rewrite (priorities_length s Hs); lia).
  by rewrite V_rank in Hsum.
Qed.

Lemma place_value_zeros (ds : list Z) :
  place_value s (replicate Rank 0) ds = 0.
Proof.
  unfold place_value. induction ds as [|d ds IH]; cbn [foldr]; [done|].
  rewrite IH. destruct (replicate Rank 0 !! Z.to_nat d) as [x|] eqn:Hx.
  - apply lookup_replicate in Hx as [-> _]. cbn. lia.
  - cbn. lia.
Qed.

Lemma odometer_tuple_place_value (j : nat) :
  valid_pack Rank s (odometer_tuple Rank s j)
  ∧ place_value s (odometer_tuple Rank s j) P = Z.of_nat j mod V O.
Proof.
  pose proof (V_pos 0) as HV.
  induction j as [|j [IHv IH]].
  - split; [apply (first_index_pack_valid s Hs)|].
    change (odometer_tuple Rank s 0) with (replicate Rank 0).
    rewrite place_value_zeros. by rewrite Z.mod_0_l by lia.
  - change (odometer_tuple Rank s (S j))
      with (odometer_advance (reverse P) (extents Rank s)
              (odometer_tuple Rank s j)).
    split.
    + by apply (advance_index_pack_odometer s Hs).
    + rewrite odometer_next_offset by done. rewrite IH.
      rewrite Zplus_mod_idemp_l. f_equal. lia.
Qed.

Lemma stride_of_pos (d : Z) : 0 ≤ d < Z.of_nat Rank → 0 < stride_of s d.
Proof.
  intros Hd.
  assert (d ∈ P) as Hin.
  { rewrite (shape_priorities_perm _ _ _ Hs). apply elem_of_seqZ. lia. }
  apply list_elem_of_lookup in Hin as [k Hk].
  rewrite (stride_of_place k d Hk). apply V_pos.
Qed.

Lemma place_value_nonneg (t : list Z) (n k : Z) :
  valid_pack Rank s t → 0 ≤ n → n + k ≤ Z.of_nat Rank →
  0 ≤ place_value s t (seqZ n k).
Proof.
  intros Hv Hn Hk. unfold place_value.
  assert (Forall (fun d => 0 ≤ d < Z.of_nat Rank) (seqZ n k)) as Hall.
  { apply Forall_forall. intros d Hd%elem_of_seqZ. lia. }
  induction Hall as [|d ds Hd _ IH]; cbn [foldr]; [done|].
  destruct (valid_pack_lookup s Hs t d Hv Hd) as (v & -> & Hb).
  change (default 0 (Some v)) with v.
  pose proof (stride_of_pos d Hd). nia.
Qed.

(** [indexes_to_offset] on a valid pack: no product and no partial sum
    wraps, so the result is the exact sum. *)
Lemma inner_product_exact (t : list Z) : valid_pack Rank s t →
  ∀ (k n : nat) (acc : Z), (n + k = Rank)%nat → 0 ≤ acc →
    acc + place_value s t (seqZ (Z.of_nat n) (Z.of_nat k)) ≤ size_max →
    inner_product_from digits acc (drop n t) (drop n (stats_strides s))
    = Normal (acc + place_value s t (seqZ (Z.of_nat n) (Z.of_nat k))).
Proof.
  intros Hv. induction k as [|k IH]; intros n acc Hnk Hacc Hfit.
  - rewrite drop_ge by (rewrite (valid_pack_length s Hs t Hv); lia).
    cbn. by rewrite Z.add_0_r.
  - assert (0 ≤ Z.of_nat n < Z.of_nat Rank) as Hd by lia.
    destruct (valid_pack_lookup s Hs t _ Hv Hd) as (v & Hl & Hb).
    rewrite Nat2Z.id in Hl.
    pose proof (stride_of_pos _ Hd) as Hst.
    assert (stats_strides s !! n = Some (stride_of s (Z.of_nat n))) as Hsl.
    { unfold stride_of in *. rewrite Nat2Z.id in *.
      destruct (stats_strides s !! n); [done|]. cbn in Hst. lia. }
    rewrite (drop_S _ _ _ Hl), (drop_S _ _ _ Hsl).
    rewrite seqZ_cons in Hfit |- * by lia.
    unfold place_value in Hfit |- *. cbn [foldr] in Hfit |- *.
    fold (place_value s t (seqZ (Z.succ (Z.of_nat n)) (Z.pred (Z.of_nat (S k)))))
      in Hfit |- *.
    rewrite Nat2Z.id, Hl in Hfit |- *.
    change (default 0 (Some v)) with v in Hfit |- *.
    replace (Z.succ (Z.of_nat n)) with (Z.of_nat (S n)) in Hfit |- * by lia.
    replace (Z.pred (Z.of_nat (S k))) with (Z.of_nat k) in Hfit |- * by lia.
    pose proof (place_value_nonneg t (Z.of_nat (S n)) (Z.of_nat k) Hv) as Hnn.
    specialize (Hnn ltac:(lia) ltac:(lia)).
    cbn [inner_product_from].
    rewrite SizeTypeFacts.mul_small by nia.
    unfold SizeType.add. rewrite SizeTypeFacts.wrap_small by nia.
    rewrite IH by (lia || nia). f_equal. lia.
Qed.

Lemma place_value_perm (t ds1 ds2 : list Z) :
  ds1 ≡ₚ ds2 → place_value s t ds1 = place_value s t ds2.
Proof.
  unfold place_value.
  induction 1 as [|d ds1 ds2 _ IH|d d' ds|ds1 ds2 ds3 _ IH1 _ IH2];
    cbn [foldr]; try lia; congruence.
Qed.

Lemma indexes_to_offset_exact (t : list Z) :
  valid_pack Rank s t →
  indexes_to_offset digits s t = Normal (place_value s t P).
Proof.
  intros Hv. unfold indexes_to_offset.
  pose proof (place_value_bound t Hv Rank ltac:(lia)) as Hbound.
  rewrite (take_ge P) in Hbound by (rewrite (priorities_length s Hs); lia).
  rewrite V_rank, V_total in Hbound.
  pose proof (shape_extents_fit _ _ _ Hs) as Hfit.
  rewrite (place_value_perm t P (iota Rank)) in Hbound |- *
    by apply (shape_priorities_perm _ _ _ Hs).
  unfold iota in *.
  pose proof (inner_product_exact t Hv Rank 0 0) as Hip.
  rewrite !drop_0, Z.add_0_l in Hip. apply Hip; [lia|lia|].
  change (Z.of_nat 0) with 0. lia.
Qed.
(** The places from [m] on hold less than [V m]. *)
Lemma lower_places_bound (t : list Z) : valid_pack Rank s t →
  ∀ (k m : nat), (m + k = Rank)%nat →
    0 ≤ place_value s t (drop m P) ≤ V m - 1.
Proof.
  intros Hv. induction k as [|k IH]; intros m Hm.
  - rewrite drop_ge by (rewrite (priorities_length s Hs); lia).
    replace m with Rank by lia. rewrite V_rank. unfold place_value. cbn. lia.
  - destruct (priority_lookup s Hs m) as [d Hd]; [lia|].
    pose proof (priority_range s Hs _ _ Hd) as Hrange.
    destruct (valid_pack_lookup s Hs t d Hv Hrange) as (v & Hl & Hb).
    rewrite (drop_S _ _ _ Hd). unfold place_value. cbn [foldr].
    fold (place_value s t (drop (S m) P)).
    rewrite Hl, (stride_of_place m d Hd).
    change (default 0 (Some v)) with v.
    pose proof (V_step m d Hd). pose proof (V_pos (S m)).
    specialize (IH (S m) ltac:(lia)). nia.
Qed.

(** The places before [m] hold a multiple of [V m]. *)
Lemma upper_places_multiple (t : list Z) : valid_pack Rank s t →
  ∀ m : nat, (m ≤ Rank)%nat →
    ∃ q, 0 ≤ q ∧ place_value s t (take m P) = q * V m.
Proof.
  intros Hv. induction m as [|m IH]; intros Hm.
  - exists 0. rewrite take_0. unfold place_value. cbn. lia.
  - destruct (priority_lookup s Hs m) as [d Hd]; [lia|].
    pose proof (priority_range s Hs _ _ Hd) as Hrange.
    destruct (valid_pack_lookup s Hs t d Hv Hrange) as (v & Hl & Hb).
    destruct (IH ltac:(lia)) as (q & Hq & Heq).
    exists (q * extent_of s d + v). split; [nia|].
    rewrite (place_value_take_S t m d Hd), Heq, Hl.
    change (default 0 (Some v)) with v.
    rewrite (V_step m d Hd). lia.
Qed.

(** A coordinate is a digit of the offset in the mixed radix of the
    extents. *)
Lemma coordinate_is_digit (t : list Z) (m : nat) (d : Z) :
  valid_pack Rank s t → P !! m = Some d →
  t !! Z.to_nat d =
    Some ((place_value s t P / V (S m)) mod extent_of s d).
Proof.
  intros Hv Hd.
  pose proof (lookup_lt_Some _ _ _ Hd) as Hm.
  rewrite (priorities_length s Hs) in Hm.
  pose proof (priority_range s Hs _ _ Hd) as Hrange.
  destruct (valid_pack_lookup s Hs t d Hv Hrange) as (v & Hl & Hb).
  destruct (upper_places_multiple t Hv m ltac:(lia)) as (q & Hq & Hup).
  pose proof (lower_places_bound t Hv (Rank - S m) (S m) ltac:(lia)) as Hlow.
  pose proof (V_pos (S m)) as HV. pose proof (V_step m d Hd) as Hstep.
  assert (place_value s t P
          = (q * extent_of s d + v) * V (S m)
            + place_value s t (drop (S m) P)) as Hsplit.
  { rewrite <- (take_drop (S m) P) at 1.
    rewrite place_value_app, (place_value_take_S t m d Hd), Hup, Hl.
    change (default 0 (Some v)) with v. rewrite Hstep. lia. }
  rewrite Hl. f_equal. rewrite Hsplit.
  rewrite Z.div_add_l by lia. rewrite Z.div_small by lia.
  rewrite Z.add_0_r, Z.add_comm, Z.mod_add by lia.
  symmetry. apply Z.mod_small. lia.
Qed.

Lemma place_value_injective (t1 t2 : list Z) :
  valid_pack Rank s t1 → valid_pack Rank s t2 →
  place_value s t1 P = place_value s t2 P → t1 = t2.
Proof.
  intros Hv1 Hv2 Heq. apply list_eq. intros i.
  destruct (decide (i < Rank)%nat) as [Hi|Hi].
  - assert (Z.of_nat i ∈ P) as Hin.
    { rewrite (shape_priorities_perm _ _ _ Hs). apply elem_of_seqZ. lia. }
    apply list_elem_of_lookup in Hin as [m Hm].
    pose proof (coordinate_is_digit t1 m _ Hv1 Hm) as H1.
    pose proof (coordinate_is_digit t2 m _ Hv2 Hm) as H2.
    rewrite Nat2Z.id in H1, H2. by rewrite H1, H2, Heq.
  - rewrite !(proj2 (lookup_ge_None _ _));
      rewrite ?(valid_pack_length s Hs _ Hv1),
              ?(valid_pack_length s Hs _ Hv2); done || lia.
Qed.

(** The offset of a valid pack lies inside the shape. *)
Lemma offset_in_shape (t : list Z) :
  valid_pack Rank s t →
  ∃ off, indexes_to_offset digits s t = Normal off
         ∧ 0 ≤ off < prod_list (extents Rank s).
Proof.
  intros Hv. exists (place_value s t P).
  split; [by apply indexes_to_offset_exact|].
  pose proof (place_value_bound t Hv Rank ltac:(lia)) as Hb.
  rewrite (take_ge P) in Hb by (rewrite (priorities_length s Hs); lia).
  rewrite V_rank, V_total in Hb. lia.
Qed.
End adjacency.

(** The [j]-th coordinate tuple of the odometer addresses offset [j]: the
    odometer walks the elements in the order of their offsets. *)
Theorem odometer_tuple_offset s (j : nat) :
  reachable digits Rank s → Z.of_nat j < prod_list (extents Rank s) →
  valid_pack Rank s (odometer_tuple Rank s j)
  ∧ indexes_to_offset digits s (odometer_tuple Rank s j)
    = Normal (Z.of_nat j).
Proof.
  intros Hr Hj. destruct (reachable_invariant s Hr) as [Hs Hcached].
  destruct (odometer_tuple_place_value s Hs Hcached j) as [Hv Hpv].
  split; [done|].
  rewrite (indexes_to_offset_exact s Hs Hcached) by done.
  rewrite Hpv, (V_total s Hs), Z.mod_small by lia. done.
Qed.

(** *** The claims about the shape state *)

(** C3.  In every state a [multiarray] can reach (after construction and
    after each call of [extents], [priorities] or
    [extents_and_priorities]), the cached stride of the dimension at any
    place of the priority list is the product of the extents of the
    dimensions after it (the less major ones), and [required_size()]
    returns the exact product of the current extents, which is 1 for
    rank 0. *)
Theorem strides_cached_invariant s :
  reachable digits Rank s →
  strides_cached Rank s
  ∧ required_size digits s = Normal (prod_list (extents Rank s))
  ∧ (Rank = 0%nat → required_size digits s = Normal 1).
Proof.
  intros Hr. pose proof (reachable_invariant s Hr) as Hinv.
  split; [apply Hinv|]. split; [by apply required_size_invariant|].
  intros H0. rewrite required_size_invariant by done.
  unfold extents. by rewrite H0.
Qed.

(** C5.  [extents_and_priorities(e, p)] is atomic: whenever it throws, the
    state left behind is the state before the call, so [extents()],
    [priorities()], [required_size()] and every offset are unchanged; in
    particular a priority list that fails validation makes the call throw
    with the extents rolled back.  When it returns, [extents() == e],
    [priorities() == p], and the strides are those of one recalculation
    on the two new rows. *)
Theorem extents_and_priorities_atomic s (e p : list Z) :
  reachable digits Rank s →
  stats_type digits Rank e → stats_type digits Rank p →
  (∀ x s', extents_and_priorities digits Rank e p s = Raised x s' →
     s' = s
     ∧ extents Rank s' = extents Rank s
     ∧ priorities Rank s' = priorities Rank s
     ∧ required_size digits s' = required_size digits s
     ∧ ∀ idx checked,
         get_offset digits Rank s' idx checked
         = get_offset digits Rank s idx checked)
  ∧ (¬ p ≡ₚ iota Rank →
     ∃ x, extents_and_priorities digits Rank e p s = Raised x s)
  ∧ (∀ s', extents_and_priorities digits Rank e p s = Done s' →
     extents Rank s' = e ∧ priorities Rank s' = p
     ∧ recalculate_strides digits Rank
         (set_priorities (copy_into p (stats_priorities s))
            (set_extents (copy_into e (stats_extents s)) s)) = Done s')
  ∧ extents_and_priorities digits Rank e p s ≠ Undef.
Proof.
  intros Hr He Hp. destruct (reachable_invariant s Hr) as [Hs _].
  destruct (extents_and_priorities_cases s e p Hs He Hp)
    as [(x & Heq & Hwhy)|(Hnz & Hfit & Hperm & s1 & Heq & _ & He1 & Hp1 & Hre)];
    rewrite Heq.
  - split; [|split; [|split]]; try done.
    + intros y s' Hy. by simplify_eq.
    + intros _. by exists x.
  - split; [|split; [|split]]; try done.
    intros s' Hd. by simplify_eq.
Qed.

(** C6.  [extents(e)] throws [std::out_of_range] exactly when some entry
    of [e] is zero; otherwise it throws [std::overflow_error] exactly when
    the exact product of the entries exceeds the largest [size_type]
    value; otherwise it commits and [extents() == e]. *)
Theorem extents_setter_validation s (e : list Z) :
  reachable digits Rank s → stats_type digits Rank e →
  ((∃ s', extents_set digits Rank e s = Raised out_of_range s') ↔ 0 ∈ e)
  ∧ ((0 ∉ e) →
     ((∃ s', extents_set digits Rank e s = Raised overflow_error s')
      ↔ size_max < prod_list e))
  ∧ ((0 ∉ e) → prod_list e ≤ size_max →
     ∃ s', extents_set digits Rank e s = Done s' ∧ extents Rank s' = e).
Proof.
  intros Hr He. destruct (reachable_invariant s Hr) as [Hs _].
  destruct (extents_set_cases s e Hs He)
    as [[Hz Heq]|[(Hnz & Hover & Heq)|(Hnz & Hfit & s1 & Heq & _ & He1 & _)]];
    rewrite Heq.
  - split; [|split]; try done. split; [done|]. intros _. by exists s.
  - split; [|split].
    + split; [|done]. by intros [s' ?].
    + intros _. split; [done|]. intros _. by exists s.
    + intros _ ?. lia.
  - split; [|split].
    + split; [|done]. by intros [s' ?].
    + intros _. split; [by intros [s' ?]|lia].
    + intros _ _. by exists s1.
Qed.

(** C7.  [priorities(p)] throws [std::out_of_range] if some entry of [p]
    is at least the rank; throws [std::invalid_argument] if every entry is
    in range but [p] repeats a value or omits one of [0 .. rank-1]; and
    otherwise returns, after which [priorities()] is exactly [p]. *)
Theorem priorities_setter_validation s (p : list Z) :
  reachable digits Rank s → stats_type digits Rank p →
  ((∃ x, x ∈ p ∧ Z.of_nat Rank ≤ x) →
     priorities_set digits Rank p s = Raised out_of_range s)
  ∧ (Forall (fun x => x < Z.of_nat Rank) p →
     (¬ NoDup p ∨ ∃ v, 0 ≤ v < Z.of_nat Rank ∧ v ∉ p) →
     priorities_set digits Rank p s = Raised invalid_argument s)
  ∧ (Forall (fun x => x < Z.of_nat Rank) p →
     NoDup p → (∀ v, 0 ≤ v < Z.of_nat Rank → v ∈ p) →
     ∃ s', priorities_set digits Rank p s = Done s'
           ∧ priorities Rank s' = p).
Proof.
  intros Hr Hp. destruct (reachable_invariant s Hr) as [Hs _].
  assert (Forall (fun x => x < Z.of_nat Rank) p →
          Forall (fun x => 0 ≤ x < Z.of_nat Rank) p) as Hrange.
  { intros Hlt. destruct Hp as [_ Hsz].
    rewrite Forall_forall in *. intros x Hx.
    specialize (Hlt x Hx). destruct (Hsz x Hx). lia. }
  destruct (priorities_set_cases s p Hs Hp)
    as [[(x & Hx & Hge) Heq]|[(Hlt & Hnp & Heq)
                             |(Hperm & s1 & Heq & _ & Hp1 & _)]];
    rewrite Heq.
  - split; [done|]. split.
    + intros Hlt. rewrite Forall_forall in Hlt. specialize (Hlt x Hx). lia.
    + intros Hlt. rewrite Forall_forall in Hlt. specialize (Hlt x Hx). lia.
  - split; [|split; [done|]].
    + intros (x & Hx & Hge). rewrite Forall_forall in Hlt.
      specialize (Hlt x Hx). lia.
    + intros _ Hnd Hall. exfalso.
      apply (not_permutation_iff p (proj1 Hp) (Hrange Hlt)) in Hnp.
      destruct Hnp as [?|(v & Hv & Hnot)]; [done|]. by apply Hnot, Hall.
  - split; [|split].
    + intros (x & Hx & Hge). rewrite Hperm in Hx.
      apply elem_of_seqZ in Hx. lia.
    + intros Hlt Hbad. exfalso.
      by apply (not_permutation_iff p (proj1 Hp) (Hrange Hlt)) in Hbad.
    + intros _ _ _. by exists s1.
Qed.

(** C4.  [apply(f)] calls [f] exactly [min(required_size(), size())]
    times, on the elements at positions 0, 1, 2, ... of the container in
    that order, and the coordinates handed over with call number [j] are
    the [j]-th tuple of the odometer sequence of the specification under
    the current extents and priorities (all zeros first; then increment
    the least-major coordinate, reset and carry when it reaches its
    extent). *)
Theorem apply_visits_in_odometer_order {A St : Type}
    (f : A → list Z → St → A * St) s (c : list A) (acc : St) :
  reachable digits Rank s →
  ∃ n : nat,
    (∃ rs, required_size digits s = Normal rs
           ∧ Z.of_nat n = Z.min rs (Z.of_nat (length c)))
    ∧ let calls := zip (take n c) (map (odometer_tuple Rank s) (seq 0 n)) in
      length calls = n
      ∧ apply digits Rank f s c acc =
          Normal (let '(xs, acc') := visit f calls acc in
                  (xs ++ drop n c, acc')).
Proof.
  intros Hr. pose proof (reachable_invariant s Hr) as Hinv.
  pose proof (required_size_invariant s Hinv) as Hrs.
  destruct Hinv as [Hs _].
  pose proof (prod_list_pos _ (shape_extents_pos _ _ _ Hs)) as Hpos.
  set (rs := prod_list (extents Rank s)) in *.
  exists (Z.to_nat (Z.min rs (Z.of_nat (length c)))).
  set (n := Z.to_nat (Z.min rs (Z.of_nat (length c)))).
  assert (n ≤ length c)%nat as Hn by lia.
  split; [exists rs; split; [done|lia]|].
  cbv zeta. split.
  - rewrite length_zip_with, length_take, length_map, length_seq. lia.
  - unfold apply. rewrite Hrs. cbn [mbind outcome_bind]. fold n.
    rewrite (apply_loop_visits f s Hs n 0 (first_index_pack Rank) c acc);
      [|by apply first_index_pack_valid|lia].
    rewrite drop_0, take_0. cbn [app]. done.
Qed.

(** *** Element access through the adapter *)

Lemma bad_index_test (l1 : list Z) : ∀ l2 : list Z,
  (length l1 ≤ length l2)%nat → Forall (fun v => 0 ≤ v) l1 →
  existsb (fun '(i, e) => i >=? e) (zip l1 l2) = false
  ↔ Forall2 (fun v e => 0 ≤ v < e) l1 (take (length l1) l2).
Proof.
  induction l1 as [|v l1 IH]; intros [|e l2] Hlen Hnn; cbn [length] in Hlen;
    try lia.
  - split; [by constructor|done].
  - split; [by constructor|done].
  - apply Forall_cons in Hnn as [Hv Hnn].
    cbn [zip_with existsb length]. rewrite firstn_cons.
    rewrite orb_false_iff, (IH l2) by (lia || done).
    rewrite Forall2_cons. destruct (Z.geb_spec v e); split; intros [? ?];
      (split; [lia || done|done]).
Qed.

Lemma throw_for_bad_indexes_valid s (idx : list Z) :
  shape_ok digits Rank s → Forall is_size idx → length idx = Rank →
  (valid_pack Rank s idx ∧ throw_for_bad_indexes Rank s idx = Normal tt)
  ∨ (¬ valid_pack Rank s idx
     ∧ throw_for_bad_indexes Rank s idx = Throw out_of_range).
Proof.
  intros Hs Hsz Hlen. unfold throw_for_bad_indexes.
  rewrite (proj2 (Nat.eqb_eq _ _) Hlen). cbn [negb].
  assert (Forall (fun v => 0 ≤ v) idx) as Hnn.
  { eapply Forall_impl; [exact Hsz|]. by intros v [? _]. }
  pose proof (bad_index_test idx (stats_extents s)) as Htest.
  rewrite Hlen in Htest. fold (extents Rank s) in Htest.
  specialize (Htest ltac:(rewrite (shape_extents_len _ _ _ Hs);
                          apply slots_ge) Hnn).
  destruct (existsb _ _) eqn:Hex.
  - right. split; [|done]. intros Hv. apply Htest in Hv. done.
  - left. split; [|done]. by apply Htest.
Qed.

Lemma container_ref_no_throw {A : Type} (c : list A) (off : Z) (e : exception) :
  container_ref c off ≠ Throw e.
Proof.
  unfold container_ref. destruct (off <? 0); [done|].
  by destruct (c !! Z.to_nat off).
Qed.

(** X1.  The checked accessor of the adapter, [at]: it throws
    [std::length_error] exactly when the number of indices is not the rank,
    and [std::out_of_range] exactly when the number is right and some index
    is not below its current extent.  On an in-range tuple the checked and
    the unchecked accessor compute the same offset, which lies below
    [required_size()]; they return the container's element there when the
    container is that long. *)
Theorem checked_element_bounds {A : Type} s (c : list A) (idx : list Z) :
  reachable digits Rank s → Forall is_size idx →
  (element_checked digits Rank s c idx = Throw length_error
   ↔ length idx ≠ Rank)
  ∧ (element_checked digits Rank s c idx = Throw out_of_range
     ↔ length idx = Rank ∧ ¬ valid_pack Rank s idx)
  ∧ (valid_pack Rank s idx →
     ∃ off, 0 ≤ off < prod_list (extents Rank s)
            ∧ required_size digits s = Normal (prod_list (extents Rank s))
            ∧ get_offset digits Rank s idx true = Normal off
            ∧ get_offset digits Rank s idx false = Normal off
            ∧ element_checked digits Rank s c idx = element digits Rank s c idx
            ∧ ∀ x, c !! Z.to_nat off = Some x →
                   element digits Rank s c idx = Normal x).
Proof.
  intros Hr Hsz. pose proof (reachable_invariant s Hr) as Hinv.
  pose proof (required_size_invariant s Hinv) as Hrs.
  destruct Hinv as [Hs Hcached].
  unfold element_checked, element, get_offset.
  destruct (decide (length idx = Rank)) as [Hlen|Hlen].
  - destruct (throw_for_bad_indexes_valid s idx Hs Hsz Hlen)
      as [[Hv Hok]|[Hbad Hth]].
    + destruct (offset_in_shape s Hs Hcached idx Hv) as (off & Hoff & Hb).
      rewrite Hok, Hoff. cbn [mbind outcome_bind].
      split; [|split].
      * split; [|done]. intros Hc. by apply container_ref_no_throw in Hc.
      * split; [|by intros [_ ?]].
        intros Hc. by apply container_ref_no_throw in Hc.
      * intros _. exists off. repeat (split; [done|]).
        intros x Hx. unfold container_ref.
        destruct (Z.ltb_spec off 0); [lia|]. by rewrite Hx.
    + rewrite Hth. cbn [mbind outcome_bind]. split; [|split]; done.
  - unfold throw_for_bad_indexes.
    rewrite (proj2 (Nat.eqb_neq _ _) Hlen). cbn [negb mbind outcome_bind].
    split; [|split]; try done.
    + split; [done|]. by intros [? _].
    + intros Hv. rewrite (valid_pack_length s Hs idx Hv) in Hlen. done.
Qed.

(** X2.  Under any reachable shape the offset mapping is a bijection
    between the in-range index tuples and [0 .. required_size() - 1]: two
    different in-range tuples never address the same element, and every
    offset below [required_size()] is addressed by an in-range tuple. *)
Theorem offsets_are_a_bijection s :
  reachable digits Rank s →
  (∀ t1 t2, valid_pack Rank s t1 → valid_pack Rank s t2 →
     indexes_to_offset digits s t1 = indexes_to_offset digits s t2 →
     t1 = t2)
  ∧ (∀ j, 0 ≤ j < prod_list (extents Rank s) →
     ∃ t, valid_pack Rank s t ∧ indexes_to_offset digits s t = Normal j).
Proof.
  intros Hr. destruct (reachable_invariant s Hr) as [Hs Hcached]. split.
  - intros t1 t2 Hv1 Hv2 Heq.
    rewrite !(indexes_to_offset_exact s Hs Hcached) in Heq by done.
    apply (place_value_injective s Hs Hcached); congruence.
  - intros j Hj.
    destruct (odometer_tuple_offset s (Z.to_nat j) Hr) as [Hv Hoff]; [lia|].
    exists (odometer_tuple Rank s (Z.to_nat j)).
    split; [done|]. rewrite Hoff. f_equal. lia.
Qed.

(** X3.  What [apply] hands to the visitor belongs together: the
    coordinates passed with the element at container position [j] are
    in range, and both accessors return that very element for them. *)
Theorem apply_coordinates_address_element {A : Type} s (c : list A)
    (j : nat) (x : A) :
  reachable digits Rank s → c !! j = Some x →
  Z.of_nat j < prod_list (extents Rank s) →
  valid_pack Rank s (odometer_tuple Rank s j)
  ∧ element digits Rank s c (odometer_tuple Rank s j) = Normal x
  ∧ element_checked digits Rank s c (odometer_tuple Rank s j) = Normal x.
Proof.
  intros Hr Hx Hj. destruct (reachable_invariant s Hr) as [Hs Hcached].
  destruct (odometer_tuple_offset s j Hr Hj) as [Hv Hoff].
  split; [done|].
  assert (container_ref c (Z.of_nat j) = Normal x) as Href.
  { unfold container_ref. destruct (Z.ltb_spec (Z.of_nat j) 0); [lia|].
    by rewrite Nat2Z.id, Hx. }
  unfold element, element_checked, get_offset.
  destruct (throw_for_bad_indexes_valid s (odometer_tuple Rank s j) Hs)
    as [[_ Hok]|[Hbad _]];
    [| |rewrite Hok, Hoff; cbn [mbind outcome_bind]; by rewrite Href|done].
  - destruct (extents_sizes s Hs) as [_ Hsz].
    apply Forall_forall. intros v Hv'.
    apply list_elem_of_lookup in Hv' as [i Hi].
    destruct (Forall2_lookup_l _ _ _ _ _ Hv Hi) as (e & He & Hb).
    rewrite Forall_lookup in Hsz. destruct (Hsz _ _ He). split; lia.
  - by apply (valid_pack_length s Hs).
Qed.

(** *** The setters on a state that already has the requested rows *)

Lemma recalculate_strides_same s :
  invariant digits Rank s → recalculate_strides digits Rank s = Done s.
Proof.
  intros [Hs Hcached].
  destruct (recalculate_strides_ok s Hs) as (r' & Hre & Hs' & Hcached').
  rewrite Hre. f_equal.
  assert (r' = stats_strides s) as ->; [|by destruct s].
  destruct (decide (Rank = 0%nat)) as [H0|H0].
  - destruct (shape_rank0 _ _ _ Hs' H0) as (_ & _ & H1).
    destruct (shape_rank0 _ _ _ Hs H0) as (_ & _ & H2).
    cbn [stats_strides set_strides] in H1. congruence.
  - apply list_eq. intros i.
    destruct (decide (i < Rank)%nat) as [Hi|Hi].
    + assert (Z.of_nat i ∈ priorities Rank s) as Hin.
      { rewrite (shape_priorities_perm _ _ _ Hs). apply elem_of_seqZ. lia. }
      apply list_elem_of_lookup in Hin as [k Hk].
      pose proof (Hcached k _ Hk) as H1. pose proof (Hcached' k _ Hk) as H2.
      rewrite Nat2Z.id in H1, H2. cbn [stats_strides set_strides] in H2.
      rewrite H1, H2. done.
    + pose proof (shape_strides_len _ _ _ Hs) as L1.
      pose proof (shape_strides_len _ _ _ Hs') as L2.
      cbn [stats_strides set_strides] in L2.
      rewrite slots_pos_rank in L1, L2 by lia.
      rewrite !(proj2 (lookup_ge_None _ _)) by lia. done.
Qed.

(** X4.  Asking for what is already there changes nothing: on any
    reachable state [extents( extents() )], [priorities( priorities() )]
    and [extents_and_priorities( extents(), priorities() )] return and
    leave the state, strides included, as it was.  Moreover [extents(e)]
    never changes the priorities and [priorities(p)] never changes the
    extents. *)
Theorem setters_keep_what_they_do_not_set s :
  reachable digits Rank s →
  extents_set digits Rank (extents Rank s) s = Done s
  ∧ priorities_set digits Rank (priorities Rank s) s = Done s
  ∧ extents_and_priorities digits Rank (extents Rank s) (priorities Rank s) s
    = Done s
  ∧ (∀ e s', stats_type digits Rank e →
       extents_set digits Rank e s = Done s' →
       priorities Rank s' = priorities Rank s)
  ∧ (∀ p s', stats_type digits Rank p →
       priorities_set digits Rank p s = Done s' →
       extents Rank s' = extents Rank s).
Proof.
  intros Hr. pose proof (reachable_invariant s Hr) as Hinv.
  pose proof Hinv as [Hs Hcached].
  pose proof (extents_sizes s Hs) as Hes.
  assert (update_extents digits (extents Rank s) s = Done s) as Hue.
  { pose proof (rollback s (extents Rank s) Hs (extents_length s Hs)) as Hrb.
    unfold extents at 2 in Hrb. rewrite copy_into_take_same in Hrb.
    replace (set_extents (stats_extents s) s) with s in Hrb by (by destruct s).
    exact Hrb. }
  assert (update_priorities Rank (priorities Rank s) s = Done s) as Hup.
  { destruct (update_priorities_shape s (priorities Rank s) Hs
                (shape_priorities_perm _ _ _ Hs)) as (Hup & _ & _).
    rewrite Hup. f_equal. unfold priorities at 1.
    rewrite copy_into_take_same. by destruct s. }
  split; [|split; [|split; [|split]]].
  - unfold extents_set. rewrite Hue. cbn [and_then].
    by apply recalculate_strides_same.
  - unfold priorities_set. rewrite Hup. cbn [and_then].
    by apply recalculate_strides_same.
  - unfold extents_and_priorities. rewrite Hue. cbn [and_then].
    rewrite Hup. cbn [catch_rethrow and_then].
    by apply recalculate_strides_same.
  - intros e s' He Heq.
    destruct (extents_set_cases s e Hs He)
      as [[_ H1]|[(_ & _ & H1)|(_ & _ & s1 & H1 & _ & _ & Hp)]];
      rewrite H1 in Heq; by simplify_eq.
  - intros p s' Hp Heq.
    destruct (priorities_set_cases s p Hs Hp)
      as [[_ H1]|[(_ & _ & H1)|(_ & s1 & H1 & _ & _ & He)]];
      rewrite H1 in Heq; by simplify_eq.
Qed.

(** X5.  The shape kept by every reachable state: one extent and one
    priority per dimension, every extent at least 1, the exact product of
    the extents representable in [size_type], and the priorities a
    reordering of [0 .. Rank-1]; so [required_size()] is never zero. *)
Theorem reachable_shape s :
  reachable digits Rank s →
  length (extents Rank s) = Rank
  ∧ length (priorities Rank s) = Rank
  ∧ Forall (fun e => 1 ≤ e ≤ size_max) (extents Rank s)
  ∧ 1 ≤ prod_list (extents Rank s) ≤ size_max
  ∧ priorities Rank s ≡ₚ iota Rank
  ∧ NoDup (priorities Rank s)
  ∧ ∃ rs, required_size digits s = Normal rs ∧ 1 ≤ rs.
Proof.
  intros Hr. pose proof (reachable_invariant s Hr) as Hinv.
  pose proof Hinv as [Hs _].
  pose proof (prod_list_pos _ (shape_extents_pos _ _ _ Hs)) as Hpos.
  split; [by apply extents_length|]. split; [by apply priorities_length|].
  split.
  { destruct (extents_sizes s Hs) as [_ Hsz].
    pose proof (shape_extents_pos _ _ _ Hs) as Hp.
    rewrite Forall_forall in *. intros e He.
    specialize (Hp e He). destruct (Hsz e He). lia. }
  split; [pose proof (shape_extents_fit _ _ _ Hs); lia|].
  split; [apply (shape_priorities_perm _ _ _ Hs)|].
  split; [by apply priorities_NoDup|].
  exists (prod_list (extents Rank s)).
  split; [by apply required_size_invariant|lia].
Qed.

(** *** Row-major and column-major order *)

Lemma valid_pack_sizes s (idx : list Z) :
  shape_ok digits Rank s → valid_pack Rank s idx → Forall is_size idx.
Proof.
  intros Hs Hv. destruct (extents_sizes s Hs) as [_ Hsz].
  apply Forall_forall. intros v Hin.
  apply list_elem_of_lookup in Hin as [i Hi].
  destruct (Forall2_lookup_l _ _ _ _ _ Hv Hi) as (e & He & Hb).
  rewrite Forall_lookup in Hsz. destruct (Hsz _ _ He). split; lia.
Qed.

Lemma valid_pack_accepted s (idx : list Z) :
  shape_ok digits Rank s → valid_pack Rank s idx →
  throw_for_bad_indexes Rank s idx = Normal tt.
Proof.
  intros Hs Hv.
  destruct (throw_for_bad_indexes_valid s idx Hs) as [[_ Hok]|[Hbad _]];
    [by apply (valid_pack_sizes s)|by apply (valid_pack_length s Hs)|done|done].
Qed.


Lemma extents_by_position s :
  shape_ok digits Rank s → map (extent_of s) (iota Rank) = extents Rank s.
Proof.
  intros Hs. apply list_eq. intros i.
  change (map (extent_of s) (iota Rank)) with (extent_of s <$> iota Rank).
  rewrite list_lookup_fmap. unfold iota.
  destruct (decide (i < Rank)%nat) as [Hi|Hi].
  - rewrite lookup_seqZ_lt by lia. simpl.
    destruct (extent_lookup s Hs (Z.of_nat i)) as [Hl _]; [lia|].
    rewrite Nat2Z.id in Hl. unfold extents.
    rewrite lookup_take_lt by done. rewrite Hl. by rewrite Z.add_0_l.
  - rewrite lookup_seqZ_ge by lia. simpl. symmetry.
    apply lookup_ge_None. rewrite (extents_length s Hs). lia.
Qed.

(** The offset as a sum over the dimensions in their own order, when the
    stride of dimension [i] is [g i]. *)
Lemma place_value_by_position s (t : list Z) (g : nat → Z) :
  (∀ i, (i < Rank)%nat → stride_of s (Z.of_nat i) = g i) →
  length t = Rank →
  ∀ k n : nat, (n + k = Rank)%nat →
    place_value s t (seqZ (Z.of_nat n) (Z.of_nat k))
    = foldr Z.add 0 (zip_with Z.mul (drop n t) (map g (seq n k))).
Proof.
  intros Hg Hlen. induction k as [|k IH]; intros n Hnk.
  - rewrite drop_ge by lia. done.
  - destruct (lookup_lt_is_Some_2 t n) as [v Hl]; [lia|].
    rewrite (drop_S _ _ _ Hl). rewrite seqZ_cons by lia.
    cbn [seq map zip_with foldr]. unfold place_value. cbn [foldr].
    fold (place_value s t (seqZ (Z.succ (Z.of_nat n)) (Z.pred (Z.of_nat (S k))))).
    rewrite Nat2Z.id, Hl. change (default 0 (Some v)) with v.
    replace (Z.succ (Z.of_nat n)) with (Z.of_nat (S n)) by lia.
    replace (Z.pred (Z.of_nat (S k))) with (Z.of_nat k) by lia.
    rewrite IH by lia. rewrite Hg by lia. done.
Qed.

Lemma row_major_strides_by_position (E : list Z) :
  ArrayMD.row_major_strides E
  = map (fun i => prod_list (drop (S i) E)) (seq 0 (length E)).
Proof.
  induction E as [|e E IH]; [done|].
  cbn [ArrayMD.row_major_strides length seq map]. f_equal.
  rewrite IH, <- seq_shift, map_map. done.
Qed.

Lemma column_major_strides_by_position (E : list Z) : ∀ pre : list Z,
  ArrayMD.column_major_strides (prod_list pre) E
  = map (fun i => prod_list (take i (pre ++ E)))
        (seq (length pre) (length E)).
Proof.
  induction E as [|e E IH]; intros pre; [done|].
  cbn [ArrayMD.column_major_strides length seq map]. f_equal.
  - by rewrite take_app_length.
  - replace (prod_list pre * e) with (prod_list (pre ++ [e])).
    2:{ rewrite prod_list_app, prod_list_cons.
        change (prod_list []) with 1. lia. }
    rewrite IH, length_app, <- app_assoc. cbn [length app].
    by replace (length pre + 1)%nat with (S (length pre)) by lia.
Qed.

Lemma stride_row_major s (i : nat) :
  invariant digits Rank s → priorities Rank s = iota Rank → (i < Rank)%nat →
  stride_of s (Z.of_nat i) = prod_list (drop (S i) (extents Rank s)).
Proof.
  intros [Hs Hc] HP Hi.
  assert (priorities Rank s !! i = Some (Z.of_nat i)) as Hk.
  { rewrite HP. unfold iota. rewrite lookup_seqZ_lt by lia. f_equal; lia. }
  rewrite (stride_of_place s Hc i _ Hk). unfold places_product.
  rewrite HP, <- (extents_by_position s Hs).
  change (map (extent_of s) (iota Rank)) with (extent_of s <$> iota Rank).
  by rewrite <- fmap_drop.
Qed.

(** In row-major order the offset is the row-major sum. *)
Lemma row_major_state_offset s (idx : list Z) :
  invariant digits Rank s → priorities Rank s = iota Rank →
  valid_pack Rank s idx →
  indexes_to_offset digits s idx
  = Normal (ArrayMD.row_major_offset (extents Rank s) idx).
Proof.
  intros Hinv HP Hv. pose proof Hinv as [Hs Hc].
  rewrite (indexes_to_offset_exact s Hs Hc) by done. f_equal.
  rewrite HP. unfold iota.
  pose proof (place_value_by_position s idx
                (fun i => prod_list (drop (S i) (extents Rank s)))
                (fun i Hi => stride_row_major s i Hinv HP Hi)
                (valid_pack_length s Hs idx Hv) Rank 0 ltac:(lia)) as Hpv.
  rewrite drop_0 in Hpv. change (Z.of_nat 0) with 0 in Hpv. rewrite Hpv.
  unfold ArrayMD.row_major_offset.
  rewrite row_major_strides_by_position, (extents_length s Hs).
  done.
Qed.

Lemma stride_column_major s (i : nat) :
  invariant digits Rank s → priorities Rank s = reverse (iota Rank) →
  (i < Rank)%nat →
  stride_of s (Z.of_nat i) = prod_list (take i (extents Rank s)).
Proof.
  intros [Hs Hc] HP Hi.
  assert (length (iota Rank) = Rank) as Hlen.
  { unfold iota. rewrite length_seqZ. lia. }
  assert (priorities Rank s !! (Rank - 1 - i)%nat = Some (Z.of_nat i)) as Hk.
  { rewrite HP, reverse_lookup by lia. rewrite Hlen.
    replace (Rank - S (Rank - 1 - i))%nat with i by lia.
    unfold iota. rewrite lookup_seqZ_lt by lia. f_equal; lia. }
  rewrite (stride_of_place s Hc _ _ Hk). unfold places_product.
  rewrite HP, drop_reverse, Hlen.
  replace (Rank - S (Rank - 1 - i))%nat with i by lia.
  rewrite <- (extents_by_position s Hs).
  change (map (extent_of s) (iota Rank)) with (extent_of s <$> iota Rank).
  rewrite <- fmap_take.
  change (map (extent_of s) (reverse (take i (iota Rank))))
    with (extent_of s <$> reverse (take i (iota Rank))).
  rewrite fmap_reverse. apply prod_list_perm, reverse_Permutation.
Qed.

Lemma column_major_priorities :
  Z.of_nat Rank ≤ size_max →
  map (fun i => SizeType.wrap digits
                  (SizeType.wrap digits (dimensionality Rank - 1) - Z.of_nat i))
      (seq 0 Rank)
  = reverse (iota Rank).
Proof.
  intros HR. apply list_eq. intros i.
  assert (length (iota Rank) = Rank) as Hlen.
  { unfold iota. rewrite length_seqZ. lia. }
  match goal with |- map ?f ?l !! _ = _ => change (map f l) with (f <$> l) end.
  rewrite list_lookup_fmap.
  destruct (decide (i < Rank)%nat) as [Hi|Hi].
  - rewrite lookup_seq_lt, reverse_lookup by lia. rewrite Hlen.
    unfold iota. rewrite lookup_seqZ_lt by lia. cbn [fmap option_fmap option_map].
    f_equal. unfold dimensionality.
    rewrite !SizeTypeFacts.wrap_small; rewrite ?SizeTypeFacts.wrap_small; lia.
  - rewrite lookup_seq_ge by lia. symmetry. apply lookup_ge_None.
    rewrite length_reverse. lia.
Qed.

(** X6.  [use_row_major_order()] always succeeds on a live object, keeps
    the extents, makes the priorities [0, 1, ..., Rank-1], and from then on
    the offset of an in-range tuple is the row-major one: the sum of each
    index times the product of the extents after its dimension, the layout
    of a built-in nested array (and of [array_md]) with those extents. *)
Theorem row_major_order_layout s :
  reachable digits Rank s →
  ∃ s', use_row_major_order digits Rank s = Done s'
    ∧ priorities Rank s' = iota Rank
    ∧ extents Rank s' = extents Rank s
    ∧ required_size digits s' = required_size digits s
    ∧ ∀ idx, valid_pack Rank s idx →
        get_offset digits Rank s' idx true
        = Normal (ArrayMD.row_major_offset (extents Rank s) idx)
        ∧ get_offset digits Rank s' idx false
          = Normal (ArrayMD.row_major_offset (extents Rank s) idx).
Proof.
  intros Hr. pose proof (reachable_invariant s Hr) as Hinv.
  pose proof Hinv as [Hs Hc].
  destruct (priorities_set_done s (iota Rank) Hs) as (s' & Heq & Hinv' & HP & HE);
    [done|].
  exists s'. split; [exact Heq|]. split; [done|]. split; [done|].
  split. { rewrite !required_size_invariant by done. by rewrite HE. }
  intros idx Hv. pose proof Hinv' as [Hs' Hc'].
  assert (valid_pack Rank s' idx) as Hv'.
  { unfold valid_pack. by rewrite HE. }
  assert (indexes_to_offset digits s' idx
          = Normal (ArrayMD.row_major_offset (extents Rank s) idx)) as Hoff.
  { rewrite (row_major_state_offset s' idx Hinv' HP Hv'). by rewrite HE. }
  split; [|exact Hoff].
  unfold get_offset. by rewrite (valid_pack_accepted s' idx Hs' Hv').
Qed.

(** X7.  [use_column_major_order()] always succeeds on a live object,
    keeps the extents, makes the priorities [Rank-1, ..., 1, 0], and from
    then on the offset of an in-range tuple is the column-major one: the
    sum of each index times the product of the extents before its
    dimension. *)
Theorem column_major_order_layout s :
  reachable digits Rank s → Z.of_nat Rank ≤ size_max →
  ∃ s', use_column_major_order digits Rank s = Done s'
    ∧ priorities Rank s' = reverse (iota Rank)
    ∧ extents Rank s' = extents Rank s
    ∧ required_size digits s' = required_size digits s
    ∧ ∀ idx, valid_pack Rank s idx →
        get_offset digits Rank s' idx true
        = Normal (ArrayMD.column_major_offset (extents Rank s) idx)
        ∧ get_offset digits Rank s' idx false
          = Normal (ArrayMD.column_major_offset (extents Rank s) idx).
Proof.
  intros Hr HR. pose proof (reachable_invariant s Hr) as Hinv.
  pose proof Hinv as [Hs Hc]. unfold use_column_major_order.
  rewrite (column_major_priorities HR).
  destruct (priorities_set_done s (reverse (iota Rank)) Hs)
    as (s' & Heq & Hinv' & HP & HE); [apply reverse_Permutation|].
  exists s'. split; [exact Heq|]. split; [done|]. split; [done|].
  split. { rewrite !required_size_invariant by done. by rewrite HE. }
  intros idx Hv. pose proof Hinv' as [Hs' Hc'].
  assert (valid_pack Rank s' idx) as Hv'.
  { unfold valid_pack. by rewrite HE. }
  assert (indexes_to_offset digits s' idx
          = Normal (ArrayMD.column_major_offset (extents Rank s) idx)) as Hoff.
  { rewrite (indexes_to_offset_exact s' Hs' Hc') by done. f_equal.
    rewrite (place_value_perm s' idx _ (iota Rank))
      by (rewrite HP; apply reverse_Permutation).
    unfold iota.
    pose proof (place_value_by_position s' idx
                  (fun i => prod_list (take i (extents Rank s')))
                  (fun i Hi => stride_column_major s' i Hinv' HP Hi)
                  (valid_pack_length s' Hs' idx Hv') Rank 0 ltac:(lia)) as Hpv.
    rewrite drop_0 in Hpv. change (Z.of_nat 0) with 0 in Hpv. rewrite Hpv.
    unfold ArrayMD.column_major_offset.
    change 1 with (prod_list []) at 1.
    rewrite column_major_strides_by_position, <- HE, (extents_length s' Hs').
    done. }
  split; [|exact Hoff].
  unfold get_offset. by rewrite (valid_pack_accepted s' idx Hs' Hv').
Qed.

(** X8.  Each coordinate of an in-range tuple can be read back from its
    offset: divide the offset by the cached stride of the dimension and
    reduce modulo its extent.  This holds under every priority order. *)
Theorem coordinates_from_offset s (idx : list Z) (off : Z) :
  reachable digits Rank s → valid_pack Rank s idx →
  indexes_to_offset digits s idx = Normal off →
  ∀ d : nat, (d < Rank)%nat →
    ∃ e st, extents Rank s !! d = Some e ∧ stats_strides s !! d = Some st
      ∧ 0 < e ∧ 0 < st
      ∧ idx !! d = Some ((off / st) mod e).
Proof.
  intros Hr Hv Hoff d Hd. destruct (reachable_invariant s Hr) as [Hs Hc].
  rewrite (indexes_to_offset_exact s Hs Hc) in Hoff by done.
  injection Hoff as <-.
  assert (Z.of_nat d ∈ priorities Rank s) as Hin.
  { rewrite (shape_priorities_perm _ _ _ Hs). apply elem_of_seqZ. lia. }
  apply list_elem_of_lookup in Hin as [m Hm].
  destruct (extent_lookup s Hs (Z.of_nat d)) as [He Hepos]; [lia|].
  pose proof (Hc m _ Hm) as Hst.
  pose proof (coordinate_is_digit s Hs Hc idx m _ Hv Hm) as Hdigit.
  rewrite Nat2Z.id in He, Hst, Hdigit.
  exists (extent_of s (Z.of_nat d)), (less_major_product Rank s m).
  split. { unfold extents. by rewrite lookup_take_lt. }
  split; [done|]. split; [done|].
  split; [apply (V_pos s Hs (S m))|]. exact Hdigit.
Qed.

(** *** The constructors and [fill] *)

Lemma prod_list_ones (n : nat) : prod_list (replicate n 1) = 1.
Proof.
  induction n as [|n IH]; [done|].
  change (replicate (S n) 1) with (1 :: replicate n 1).
  rewrite prod_list_cons, IH. done.
Qed.

Lemma zero_tail_offset (n : nat) : ∀ strides : list Z,
  foldr Z.add 0 (zip_with Z.mul (replicate n 0) strides) = 0.
Proof.
  induction n as [|n IH]; intros [|st strides]; try done.
  cbn [replicate zip_with foldr]. rewrite IH. lia.
Qed.

Lemma container_ref_lookup {A : Type} (c : list A) (j : nat) (x : A) :
  c !! j = Some x → container_ref c (Z.of_nat j) = Normal x.
Proof.
  intros Hx. unfold container_ref.
  destruct (Z.ltb_spec (Z.of_nat j) 0); [lia|]. by rewrite Nat2Z.id, Hx.
Qed.

(** X9.  What a constructor of [multiarray] establishes from a container
    of [csize] elements: it never throws; the extents are
    [{ csize, 1, ..., 1 }], with 1 in place of [csize] for an empty
    container; the priorities are row-major; [required_size()] is the first
    extent (1 for rank 0); and, for a positive rank, the tuple
    [(i, 0, ..., 0)] addresses the container's element [i]. *)
Theorem construct_shape (csize : Z) :
  is_size csize →
  ∃ s, construct digits Rank csize = Done s
    ∧ extents Rank s
      = match Rank with
        | O => []
        | S n => (if csize =? 0 then 1 else csize) :: replicate n 1
        end
    ∧ priorities Rank s = iota Rank
    ∧ required_size digits s
      = Normal (if Rank is O then 1 else if csize =? 0 then 1 else csize)
    ∧ ∀ (A : Type) (c : list A) (i : nat) (x : A),
        Z.of_nat (length c) = csize → Rank ≠ 0%nat → c !! i = Some x →
        element_checked digits Rank s c
          (Z.of_nat i :: replicate (Rank - 1) 0) = Normal x
        ∧ element digits Rank s c
            (Z.of_nat i :: replicate (Rank - 1) 0) = Normal x.
Proof.
  intros Hc. unfold construct, resize_to_fit.
  set (new_size := if negb (dimensionality Rank =? 0) && negb (csize =? 0)
                   then csize else 1).
  set (e := if bool_decide (replicate Rank 1 = [])
            then replicate Rank 1 else <[0%nat := new_size]> (replicate Rank 1)).
  set (first := if csize =? 0 then 1 else csize).
  pose proof (SizeTypeFacts.size_max_pos digits) as Hmax.
  assert (0 < first ≤ size_max) as Hfirst.
  { unfold first. destruct (Z.eqb_spec csize 0); [lia|].
    unfold SizeType.is_size in Hc. lia. }
  assert (e = match Rank with O => [] | S n => first :: replicate n 1 end)
    as He.
  { unfold e, new_size, first, dimensionality. destruct Rank as [|n]; [done|].
    rewrite bool_decide_eq_false_2 by done.
    replace (Z.of_nat (S n) =? 0) with false by (symmetry; apply Z.eqb_neq; lia).
    by destruct (csize =? 0). }
  destruct (extents_set_done (indexed_base_default Rank) e)
    as (s & Heq & Hinv & HE & HP).
  - apply default_shape_ok.
  - rewrite He. destruct Rank as [|n]; [by split|]. split.
    + simpl. by rewrite length_replicate.
    + apply Forall_cons. split; [unfold SizeType.is_size; lia|].
      apply Forall_replicate. unfold SizeType.is_size. lia.
  - rewrite He. destruct Rank as [|n]; [apply not_elem_of_nil|].
    intros [?|Hin%elem_of_replicate]%elem_of_cons; lia.
  - rewrite He. destruct Rank as [|n]; [unfold prod_list; simpl; lia|].
    rewrite prod_list_cons, prod_list_ones. lia.
  - exists s. split; [exact Heq|]. rewrite He in HE.
    assert (priorities Rank s = iota Rank) as HP'.
    { rewrite HP. unfold priorities, indexed_base_default.
      cbn [stats_priorities].
      destruct (decide (Rank = 0%nat)) as [H0|H0]; [by rewrite H0|].
      rewrite slots_pos_rank by lia. rewrite take_ge; [done|].
      unfold iota. rewrite length_seqZ. lia. }
    split; [exact HE|]. split; [exact HP'|]. split.
    { rewrite (required_size_invariant s Hinv), HE.
      destruct Rank as [|n]; [done|].
      rewrite prod_list_cons, prod_list_ones. f_equal. fold first. lia. }
    intros A c i x Hlen HR Hx. pose proof Hinv as [Hs Hcached].
    destruct Rank as [|n] eqn:HRank; [done|]. rewrite <- HRank in *.
    replace (Rank - 1)%nat with n by lia.
    assert (first = csize) as Hfc.
    { unfold first. destruct (Z.eqb_spec csize 0) as [H0|]; [|done].
      apply lookup_lt_Some in Hx. lia. }
    assert (valid_pack Rank s (Z.of_nat i :: replicate n 0)) as Hv.
    { unfold valid_pack. rewrite HE. fold first. apply Forall2_cons.
      split; [apply lookup_lt_Some in Hx; lia|].
      apply Forall2_replicate. lia. }
    assert (indexes_to_offset digits s (Z.of_nat i :: replicate n 0)
            = Normal (Z.of_nat i)) as Hoff.
    { rewrite (row_major_state_offset s _ Hinv HP' Hv), HE. f_equal.
      rewrite SliceFacts.row_major_offset_cons, prod_list_ones.
      unfold ArrayMD.row_major_offset. rewrite zero_tail_offset. lia. }
    unfold element_checked, element, get_offset.
    rewrite (valid_pack_accepted s _ Hs Hv), Hoff. cbn [mbind outcome_bind].
    by rewrite (container_ref_lookup c i x Hx).
Qed.

(** X10.  [fill(v)] on a live object: it returns, keeps the length of the
    container, stores [v] at every position below [required_size()] that
    the container has, and leaves the positions from [required_size()] on
    as they were.  When the container holds at least [required_size()]
    elements, both accessors then return [v] for every in-range tuple. *)
Theorem fill_then_read {A : Type} s (c : list A) (v : A) :
  reachable digits Rank s →
  ∃ c', fill digits s c v = Normal c'
    ∧ length c' = length c
    ∧ (∀ j : nat, Z.of_nat j < prod_list (extents Rank s) →
         (j < length c)%nat → c' !! j = Some v)
    ∧ (∀ j : nat, prod_list (extents Rank s) ≤ Z.of_nat j →
         c' !! j = c !! j)
    ∧ (prod_list (extents Rank s) ≤ Z.of_nat (length c) →
       ∀ idx, valid_pack Rank s idx →
         element_checked digits Rank s c' idx = Normal v
         ∧ element digits Rank s c' idx = Normal v).
Proof.
  intros Hr. pose proof (reachable_invariant s Hr) as Hinv.
  pose proof Hinv as [Hs Hcached].
  pose proof (prod_list_pos _ (shape_extents_pos _ _ _ Hs)) as Hpos.
  unfold fill. rewrite (required_size_invariant s Hinv).
  cbn [mbind outcome_bind].
  set (n := Z.to_nat (Z.min (prod_list (extents Rank s)) (Z.of_nat (length c)))).
  assert (n ≤ length c)%nat as Hn by lia.
  assert (∀ j : nat, Z.of_nat j < prod_list (extents Rank s) →
            (j < length c)%nat →
            (replicate n v ++ drop n c) !! j = Some v) as Hfilled.
  { intros j Hj Hlt. rewrite lookup_app_l by (rewrite length_replicate; lia).
    apply lookup_replicate_2. lia. }
  eexists. split; [done|]. split; [|split; [exact Hfilled|split]].
  - rewrite length_app, length_replicate, length_drop. lia.
  - intros j Hj. rewrite lookup_app_r by (rewrite length_replicate; lia).
    rewrite length_replicate, lookup_drop. f_equal. lia.
  - intros Hfit idx Hv.
    destruct (offset_in_shape s Hs Hcached idx Hv) as (off & Hoff & Hb).
    unfold element_checked, element, get_offset.
    rewrite (valid_pack_accepted s idx Hs Hv), Hoff.
    cbn [mbind outcome_bind].
    replace off with (Z.of_nat (Z.to_nat off)) by lia.
    rewrite (container_ref_lookup _ (Z.to_nat off) v); [done|].
    apply Hfilled; lia.
Qed.

(** *** The return value of [advance_index_pack] *)

Lemma odometer_advance_other (ds ext : list Z) : ∀ (idx : list Z) (j : nat),
  Forall (fun d => Z.to_nat d ≠ j) ds →
  odometer_advance ds ext idx !! j = idx !! j.
Proof.
  induction ds as [|d ds IH]; intros idx j Hne; [done|].
  apply Forall_cons in Hne as [Hd Hne]. cbn [odometer_advance].
  destruct (_ =? _).
  - rewrite IH by done. by rewrite list_lookup_insert_ne.
  - by rewrite list_lookup_insert_ne.
Qed.

(** The flag the loop ends with: set when every coordinate was reset,
    clear when some coordinate was incremented. *)
Lemma advance_carry_flag s (ks : list nat) :
  shape_ok digits Rank s → ∀ (idx ds : list Z),
  valid_pack Rank s idx →
  Forall2 (fun k d => priorities Rank s !! k = Some d) ks ds → NoDup ds →
  ∃ t, for_each (advance_body digits s) (true, idx) ks
         = Normal (t, odometer_advance ds (extents Rank s) idx)
       ∧ (t = true →
          Forall (fun d => odometer_advance ds (extents Rank s) idx
                             !! Z.to_nat d = Some 0) ds)
       ∧ (t = false →
          ∃ d v, d ∈ ds
                 ∧ odometer_advance ds (extents Rank s) idx !! Z.to_nat d
                   = Some v
                 ∧ 0 < v).
Proof.
  intros Hs. induction ks as [|k ks IH]; intros idx ds Hv Hks Hnd.
  - apply Forall2_nil_inv_l in Hks as ->. exists true.
    split; [done|]. split; [by constructor|done].
  - apply Forall2_cons_inv_l in Hks as (d & ds' & Hd & Hks & ->).
    apply NoDup_cons in Hnd as [Hnotin Hnd].
    pose proof (priority_range s Hs _ _ Hd) as Hrange.
    destruct (valid_pack_lookup s Hs idx d Hv Hrange) as (v & Hl & Hb).
    destruct (extent_in_extents s Hs d Hrange) as [He Hemax].
    pose proof (valid_pack_length s Hs idx Hv) as Hlen.
    assert (Forall (fun d' => Z.to_nat d' ≠ Z.to_nat d) ds') as Hother.
    { apply Forall_forall. intros d' Hd' Heq.
      pose proof Hd' as Hin.
      apply list_elem_of_lookup in Hd' as [i Hi].
      destruct (Forall2_lookup_r _ _ _ _ _ Hks Hi) as (k' & _ & Hk').
      pose proof (priority_range s Hs _ _ Hk').
      assert (d' = d) as -> by lia. done. }
    cbn [for_each odometer_advance].
    rewrite (advance_body_eval s Hs true idx k d v) by done.
    cbv zeta. cbn [mbind outcome_bind b2z].
    rewrite Hl, He. cbn [default from_option id].
    unfold SizeType.add. rewrite SizeTypeFacts.wrap_small by lia.
    destruct (Z.geb_spec (v + 1) (extent_of s d)) as [Hge|Hlt].
    + rewrite (proj2 (Z.eqb_eq _ _)) by lia. cbn [negb b2z].
      rewrite SizeTypeFacts.mul_small by lia. rewrite Z.mul_0_r.
      destruct (IH (<[Z.to_nat d := 0]> idx) ds') as (t & Hrun & Ht & Hf);
        [apply (valid_pack_insert s Hs); [done|done|lia]|done|done|].
      exists t. split; [done|]. split.
      * intros Htrue. apply Forall_cons. split; [|by apply Ht].
        rewrite odometer_advance_other by done.
        apply list_lookup_insert_eq. lia.
      * intros Hfalse. destruct (Hf Hfalse) as (d' & v' & Hin & Hl' & Hpos).
        exists d', v'. split; [by apply elem_of_cons; right|done].
    + destruct (Z.eqb_spec (v + 1) (extent_of s d)) as [?|_]; [lia|].
      cbn [negb b2z]. rewrite SizeTypeFacts.mul_small by lia.
      rewrite Z.mul_1_r.
      assert (valid_pack Rank s (<[Z.to_nat d := v + 1]> idx)) as Hv'.
      { apply (valid_pack_insert s Hs); [done|done|lia]. }
      exists false. split; [|split; [done|]].
      * apply (advance_no_carry s Hs); [done|].
        apply Forall_forall. intros k' Hk'.
        apply list_elem_of_lookup in Hk' as [i Hi].
        destruct (Forall2_lookup_l _ _ _ _ _ Hks Hi) as (d' & _ & Hd').
        apply lookup_lt_Some in Hd'.
        by rewrite (priorities_length s Hs) in Hd'.
      * intros _. exists d, (v + 1). split; [apply elem_of_cons; by left|].
        split; [apply list_lookup_insert_eq; lia|lia].
Qed.

(** X11.  [advance_index_pack] on an in-range tuple: it returns, the new
    tuple is in range and addresses the next offset, wrapping from the last
    offset to 0; and the flag it returns is [true] exactly when the new
    tuple is [first_index_pack()], which happens exactly when the old one
    addressed the last element. *)
Theorem advance_index_pack_wraps s (idx : list Z) :
  reachable digits Rank s → valid_pack Rank s idx →
  ∃ (t : bool) (next : list Z) (off : Z),
    advance_index_pack digits Rank s idx = Normal (t, next)
    ∧ valid_pack Rank s next
    ∧ indexes_to_offset digits s idx = Normal off
    ∧ indexes_to_offset digits s next
      = Normal ((off + 1) mod prod_list (extents Rank s))
    ∧ (t = true ↔ next = first_index_pack Rank)
    ∧ (t = true ↔ off + 1 = prod_list (extents Rank s)).
Proof.
  intros Hr Hv. destruct (reachable_invariant s Hr) as [Hs Hc].
  set (next := odometer_advance (reverse (priorities Rank s))
                 (extents Rank s) idx).
  destruct (advance_index_pack_odometer s Hs idx Hv) as [_ Hv']. fold next in Hv'.
  destruct (advance_carry_flag s (reverse (seq 0 Rank)) Hs idx
              (reverse (priorities Rank s)) Hv) as (t & Hrun & Ht & Hf).
  { apply Forall2_reverse.
    apply Forall2_same_length_lookup_2.
    { by rewrite length_seq, (priorities_length s Hs). }
    intros i k d Hk Hd. apply lookup_seq in Hk as [-> _]. done. }
  { rewrite reverse_Permutation. apply (priorities_NoDup s Hs). }
  fold next in Hrun, Ht, Hf.
  pose proof (odometer_next_offset s Hs Hc idx Hv) as Hnext. fold next in Hnext.
  rewrite (V_total s Hs) in Hnext.
  destruct (offset_in_shape s Hs Hc idx Hv) as (off & Hoff & Hb).
  pose proof Hoff as Hpv.
  rewrite (indexes_to_offset_exact s Hs Hc) in Hpv by done.
  injection Hpv as Hpv. rewrite Hpv in Hnext.
  assert (t = true ↔ next = first_index_pack Rank) as Hflag.
  { split.
    - intros Htrue. specialize (Ht Htrue). rewrite Forall_forall in Ht.
      apply list_eq. intros j. unfold first_index_pack.
      destruct (decide (j < Rank)%nat) as [Hj|Hj].
      + rewrite lookup_replicate_2 by done.
        assert (Z.of_nat j ∈ reverse (priorities Rank s)) as Hin.
        { rewrite elem_of_reverse, (shape_priorities_perm _ _ _ Hs).
          apply elem_of_seqZ. lia. }
        specialize (Ht _ Hin). by rewrite Nat2Z.id in Ht.
      + rewrite !(proj2 (lookup_ge_None _ _)); [done| |].
        * rewrite length_replicate. lia.
        * rewrite (valid_pack_length s Hs next Hv'). lia.
    - intros Hz. destruct t; [done|].
      destruct (Hf eq_refl) as (d & v & Hin & Hl & Hpos).
      rewrite Hz in Hl. unfold first_index_pack in Hl.
      apply lookup_replicate in Hl as [-> _]. lia. }
  exists t, next, off. split; [exact Hrun|]. split; [done|].
  split; [done|]. split.
  { rewrite (indexes_to_offset_exact s Hs Hc) by done. by rewrite Hnext. }
  split; [done|]. rewrite Hflag. split.
  - intros Hz. rewrite Hz in Hnext. unfold first_index_pack in Hnext.
    rewrite (place_value_zeros s) in Hnext.
    destruct (decide (off + 1 = prod_list (extents Rank s))); [done|].
    rewrite Z.mod_small in Hnext by lia. lia.
  - intros Hlast.
    apply (place_value_injective s Hs Hc); [done| |].
    { apply (first_index_pack_valid s Hs). }
    unfold first_index_pack. rewrite (place_value_zeros s), Hnext, Hlast.
    apply Z_mod_same_full.
Qed.

(** *** The unchecked accessor on tuples of the wrong length *)

Lemma wrap_is_size (x : Z) : is_size (SizeType.wrap digits x).
Proof.
  unfold SizeType.is_size, SizeType.wrap, SizeType.size_max.
  pose proof (Z.mod_pos_bound x (SizeType.modulus digits)
                (SizeTypeFacts.modulus_pos digits)). lia.
Qed.

Lemma inner_product_is_size (l : list Z) : ∀ (acc : Z) (strides : list Z) (r : Z),
  is_size acc → inner_product_from digits acc l strides = Normal r →
  is_size r.
Proof.
  induction l as [|i l IH]; intros acc [|st strides] r Hacc Hr;
    cbn [inner_product_from] in Hr; try done; try by simplify_eq.
  eapply IH; [|exact Hr]. apply wrap_is_size.
Qed.

Lemma inner_product_app (l1 : list Z) : ∀ (acc : Z) (l2 strides : list Z),
  inner_product_from digits acc (l1 ++ l2) strides
  = acc' ← inner_product_from digits acc l1 strides;
    inner_product_from digits acc' l2 (drop (length l1) strides).
Proof.
  induction l1 as [|i l1 IH]; intros acc l2 strides; [done|].
  destruct strides as [|st strides]; [done|].
  cbn [app inner_product_from length drop]. apply IH.
Qed.

Lemma inner_product_zeros (n : nat) : ∀ (acc : Z) (strides : list Z),
  is_size acc → (n ≤ length strides)%nat →
  inner_product_from digits acc (replicate n 0) strides = Normal acc.
Proof.
  induction n as [|n IH]; intros acc [|st strides] Hacc Hlen;
    cbn [length] in Hlen; try done; try lia.
  cbn [replicate inner_product_from].
  assert (SizeType.add digits acc (SizeType.mul digits 0 st) = acc) as ->.
  { unfold SizeType.add, SizeType.mul. rewrite Z.mul_0_l.
    rewrite (SizeTypeFacts.wrap_small digits 0)
      by (pose proof (SizeTypeFacts.size_max_pos digits); lia).
    rewrite Z.add_0_r. by apply SizeTypeFacts.wrap_small. }
  apply IH; [done|lia].
Qed.

Lemma inner_product_long (l : list Z) : ∀ (acc : Z) (strides : list Z),
  (length strides < length l)%nat →
  inner_product_from digits acc l strides = Undefined.
Proof.
  induction l as [|i l IH]; intros acc [|st strides] Hlen;
    cbn [length] in Hlen; try done; try lia.
  cbn [inner_product_from]. apply IH. lia.
Qed.

Lemma inner_product_no_throw (l : list Z) : ∀ (acc : Z) (strides : list Z)
    (e : exception),
  inner_product_from digits acc l strides ≠ Throw e.
Proof.
  induction l as [|i l IH]; intros acc [|st strides] e; try done.
  cbn [inner_product_from]. apply IH.
Qed.

(** X22.  The unchecked accessor [operator ()] of the adapter checks
    nothing: it never throws, whatever the tuple.  Given fewer indices
    than the rank it addresses the element of the tuple completed with
    zeros; given more indices than the index table has places it reads
    past the strides, which is undefined. *)
Theorem unchecked_element_arity {A : Type} s (c : list A) (idx : list Z) :
  reachable digits Rank s →
  (∀ e, element digits Rank s c idx ≠ Throw e)
  ∧ ((length idx ≤ Rank)%nat →
     get_offset digits Rank s idx false
     = get_offset digits Rank s (idx ++ replicate (Rank - length idx) 0) false
     ∧ element digits Rank s c idx
       = element digits Rank s c (idx ++ replicate (Rank - length idx) 0))
  ∧ ((slots < length idx)%nat →
     element digits Rank s c idx = Undefined).
Proof.
  intros Hr. destruct (reachable_invariant s Hr) as [Hs _].
  pose proof (shape_strides_len _ _ _ Hs) as Hlen.
  pose proof slots_ge as Hslots.
  unfold element, get_offset, indexes_to_offset. cbn [mbind outcome_bind].
  split; [|split].
  - intros e He.
    destruct (inner_product_from digits 0 idx (stats_strides s)) as [off| |] eqn:Hoff;
      cbn [mbind outcome_bind] in He; try done.
    + by apply container_ref_no_throw in He.
    + by apply inner_product_no_throw in Hoff.
  - intros Hle.
    assert (inner_product_from digits 0 idx (stats_strides s)
            = inner_product_from digits 0
                (idx ++ replicate (Rank - length idx) 0) (stats_strides s))
      as Heq; [|by rewrite Heq].
    rewrite inner_product_app.
    destruct (inner_product_from digits 0 idx (stats_strides s)) as [off| |] eqn:Hoff;
      cbn [mbind outcome_bind]; try done.
    symmetry. apply inner_product_zeros.
    + eapply inner_product_is_size; [|exact Hoff].
      pose proof (SizeTypeFacts.size_max_pos digits).
      unfold SizeType.is_size. lia.
    + rewrite length_drop. lia.
  - intros Hlong. rewrite inner_product_long by lia. done.
Qed.

(** X24.  Neither accessor of the adapter looks at the size of the
    container: [at] checks the indices against the extents only.  When an
    in-range tuple has an offset at or beyond the end of the container both
    accessors are undefined, and such a tuple exists whenever the container
    holds fewer than [required_size()] elements. *)
Theorem access_beyond_container {A : Type} s (c : list A) :
  reachable digits Rank s →
  (∀ idx off, valid_pack Rank s idx →
     get_offset digits Rank s idx true = Normal off →
     Z.of_nat (length c) ≤ off →
     element_checked digits Rank s c idx = Undefined
     ∧ element digits Rank s c idx = Undefined)
  ∧ (Z.of_nat (length c) < prod_list (extents Rank s) →
     ∃ idx, valid_pack Rank s idx
            ∧ element_checked digits Rank s c idx = Undefined
            ∧ element digits Rank s c idx = Undefined).
Proof.
  intros Hr. destruct (reachable_invariant s Hr) as [Hs Hcached].
  assert (∀ off, Z.of_nat (length c) ≤ off → container_ref c off = Undefined)
    as Hout.
  { intros off Hoff. unfold container_ref.
    destruct (Z.ltb_spec off 0); [done|].
    by rewrite (proj2 (lookup_ge_None c (Z.to_nat off))) by lia. }
  assert (∀ idx off, valid_pack Rank s idx →
            get_offset digits Rank s idx true = Normal off →
            Z.of_nat (length c) ≤ off →
            element_checked digits Rank s c idx = Undefined
            ∧ element digits Rank s c idx = Undefined) as Hboth.
  { intros idx off Hv Hoff Hge. unfold element_checked, element.
    assert (get_offset digits Rank s idx false = Normal off) as Hoff'.
    { unfold get_offset in Hoff |- *.
      by rewrite (valid_pack_accepted s idx Hs Hv) in Hoff. }
    rewrite Hoff, Hoff'. cbn [mbind outcome_bind].
    by rewrite Hout. }
  split; [exact Hboth|]. intros Hshort.
  destruct (odometer_tuple_offset s (length c) Hr Hshort) as [Hv Hoff].
  exists (odometer_tuple Rank s (length c)). split; [done|].
  apply (Hboth _ (Z.of_nat (length c))); [done| |lia].
  unfold get_offset. by rewrite (valid_pack_accepted s _ Hs Hv).
Qed.

End facts.

(** *** The claims at a sample object *)

(** The sample index state is the one a constructor builds from ten
    elements. *)
Lemma ten_by_one_reachable : reachable 8 2 Samples.ten_by_one.
Proof.
  apply (reach_construct 8 2 10); [by vm_compute|reflexivity].
Defined.

Lemma stats_3_4 : stats_type 8 2 [3; 4].
Proof. split; [reflexivity|]. repeat constructor; by vm_compute. Defined.

Lemma stats_1_0 : stats_type 8 2 [1; 0].
Proof. split; [reflexivity|]. repeat constructor; by vm_compute. Defined.

Lemma stats_1_1 : stats_type 8 2 [1; 1].
Proof. split; [reflexivity|]. repeat constructor; by vm_compute. Defined.

(** C3 at the sample index state. *)
Lemma strides_cached_invariant_witness :
  strides_cached 2 Samples.ten_by_one
  ∧ required_size 8 Samples.ten_by_one
    = Normal (prod_list (extents 2 Samples.ten_by_one))
  ∧ (2%nat = 0%nat → required_size 8 Samples.ten_by_one = Normal 1).
Proof.
  exact (strides_cached_invariant 8 2 Samples.ten_by_one ten_by_one_reachable).
Defined.

(** C4 at the sample index state, a container of three elements and the
    logging visitor. *)
Lemma apply_visits_in_odometer_order_witness :
  ∃ n : nat,
    (∃ rs, required_size 8 Samples.ten_by_one = Normal rs
           ∧ Z.of_nat n = Z.min rs (Z.of_nat (length [5; 6; 7])))
    ∧ let calls :=
        zip (take n [5; 6; 7])
            (map (odometer_tuple 2 Samples.ten_by_one) (seq 0 n)) in
      length calls = n
      ∧ apply 8 2 Samples.log_call Samples.ten_by_one [5; 6; 7] [] =
          Normal (let '(xs, acc') := visit Samples.log_call calls [] in
                  (xs ++ drop n [5; 6; 7], acc')).
Proof.
  exact (apply_visits_in_odometer_order 8 2 Samples.log_call
           Samples.ten_by_one [5; 6; 7] [] ten_by_one_reachable).
Defined.

(** C5 at the sample index state, with extents [{3, 4}] and the invalid
    priorities [{1, 1}]. *)
Lemma extents_and_priorities_atomic_witness :
  (∀ x s', extents_and_priorities 8 2 [3; 4] [1; 1] Samples.ten_by_one
           = Raised x s' →
     s' = Samples.ten_by_one
     ∧ extents 2 s' = extents 2 Samples.ten_by_one
     ∧ priorities 2 s' = priorities 2 Samples.ten_by_one
     ∧ required_size 8 s' = required_size 8 Samples.ten_by_one
     ∧ ∀ idx checked,
         get_offset 8 2 s' idx checked
         = get_offset 8 2 Samples.ten_by_one idx checked)
  ∧ (¬ [1; 1] ≡ₚ iota 2 →
     ∃ x, extents_and_priorities 8 2 [3; 4] [1; 1] Samples.ten_by_one
          = Raised x Samples.ten_by_one)
  ∧ (∀ s', extents_and_priorities 8 2 [3; 4] [1; 1] Samples.ten_by_one
           = Done s' →
     extents 2 s' = [3; 4] ∧ priorities 2 s' = [1; 1]
     ∧ recalculate_strides 8 2
         (set_priorities (copy_into [1; 1] (stats_priorities Samples.ten_by_one))
            (set_extents (copy_into [3; 4] (stats_extents Samples.ten_by_one))
               Samples.ten_by_one)) = Done s')
  ∧ extents_and_priorities 8 2 [3; 4] [1; 1] Samples.ten_by_one ≠ Undef.
Proof.
  exact (extents_and_priorities_atomic 8 2 Samples.ten_by_one [3; 4] [1; 1]
           ten_by_one_reachable stats_3_4 stats_1_1).
Defined.

(** C6 at the sample index state and the extents [{3, 4}]. *)
Lemma extents_setter_validation_witness :
  ((∃ s', extents_set 8 2 [3; 4] Samples.ten_by_one = Raised out_of_range s')
   ↔ 0 ∈ [3; 4])
  ∧ ((0 ∉ [3; 4]) →
     ((∃ s', extents_set 8 2 [3; 4] Samples.ten_by_one
             = Raised overflow_error s')
      ↔ SizeType.size_max 8 < prod_list [3; 4]))
  ∧ ((0 ∉ [3; 4]) → prod_list [3; 4] ≤ SizeType.size_max 8 →
     ∃ s', extents_set 8 2 [3; 4] Samples.ten_by_one = Done s'
           ∧ extents 2 s' = [3; 4]).
Proof.
  exact (extents_setter_validation 8 2 Samples.ten_by_one [3; 4]
           ten_by_one_reachable stats_3_4).
Defined.

(** C7 at the sample index state and the priorities [{1, 0}]. *)
Lemma priorities_setter_validation_witness :
  ((∃ x, x ∈ [1; 0] ∧ Z.of_nat 2 ≤ x) →
     priorities_set 8 2 [1; 0] Samples.ten_by_one
     = Raised out_of_range Samples.ten_by_one)
  ∧ (Forall (fun x => x < Z.of_nat 2) [1; 0] →
     (¬ NoDup [1; 0] ∨ ∃ v, 0 ≤ v < Z.of_nat 2 ∧ v ∉ [1; 0]) →
     priorities_set 8 2 [1; 0] Samples.ten_by_one
     = Raised invalid_argument Samples.ten_by_one)
  ∧ (Forall (fun x => x < Z.of_nat 2) [1; 0] →
     NoDup [1; 0] → (∀ v, 0 ≤ v < Z.of_nat 2 → v ∈ [1; 0]) →
     ∃ s', priorities_set 8 2 [1; 0] Samples.ten_by_one = Done s'
           ∧ priorities 2 s' = [1; 0]).
Proof.
  exact (priorities_setter_validation 8 2 Samples.ten_by_one [1; 0]
           ten_by_one_reachable stats_1_0).
Defined.

(** *** Further properties at sample objects *)

(** The 3 by 4 index state is reached by [extents( 3, 4 )]. *)
Lemma three_by_four_reachable : reachable 8 2 Samples.three_by_four.
Proof.
  apply (reach_extents 8 2 [3; 4] Samples.ten_by_one);
    [exact ten_by_one_reachable|exact stats_3_4|left; reflexivity].
Defined.

Lemma sizes_1_2 : Forall (SizeType.is_size 8) [1; 2].
Proof. repeat constructor; by vm_compute. Defined.

Lemma valid_1_2 : valid_pack 2 Samples.three_by_four [1; 2].
Proof.
  unfold valid_pack. change (extents 2 Samples.three_by_four) with [3; 4].
  constructor; [lia|]. constructor; [lia|]. constructor.
Defined.

Lemma valid_2_3 : valid_pack 2 Samples.three_by_four [2; 3].
Proof.
  unfold valid_pack. change (extents 2 Samples.three_by_four) with [3; 4].
  constructor; [lia|]. constructor; [lia|]. constructor.
Defined.

Lemma rank_2_fits : Z.of_nat 2 ≤ SizeType.size_max 8.
Proof. by vm_compute. Defined.

Lemma size_10 : SizeType.is_size 8 10.
Proof. by vm_compute. Defined.

Lemma five_below_twelve :
  Z.of_nat 5 < prod_list (extents 2 Samples.three_by_four).
Proof. by vm_compute. Defined.

Lemma offset_1_2 :
  indexes_to_offset 8 Samples.three_by_four [1; 2] = Normal 6.
Proof. reflexivity. Defined.

Lemma fifth_of_twelve : Samples.twelve !! 5%nat = Some 5.
Proof. reflexivity. Defined.

Lemma one_below_two : (1 < 2)%nat.
Proof. lia. Defined.

(** X1 at the 3 by 4 index state, twelve elements and the tuple [(1, 2)]. *)
Lemma checked_element_bounds_witness :
  (element_checked 8 2 Samples.three_by_four Samples.twelve [1; 2] =
   Throw length_error ↔ length [1; 2] ≠ 2%nat)
  ∧ (element_checked 8 2 Samples.three_by_four Samples.twelve [1; 2] =
     Throw out_of_range
     ↔ length [1; 2] = 2%nat
       ∧ ¬ valid_pack 2 Samples.three_by_four [1; 2])
    ∧ (valid_pack 2 Samples.three_by_four [1; 2]
       → ∃ off : Z,
           0 <= off < prod_list (extents 2 Samples.three_by_four)
           ∧ required_size 8 Samples.three_by_four =
             Normal (prod_list (extents 2 Samples.three_by_four))
             ∧ get_offset 8 2 Samples.three_by_four [1; 2] true =
               Normal off
               ∧ get_offset 8 2 Samples.three_by_four [1; 2] false =
                 Normal off
                 ∧ element_checked 8 2 Samples.three_by_four
                     Samples.twelve [1; 2] =
                   element 8 2 Samples.three_by_four Samples.twelve
                     [1; 2]
                   ∧ ∀ x : Z,
                       Samples.twelve !! Z.to_nat off = Some x
                       → element 8 2 Samples.three_by_four
                           Samples.twelve [1; 2] =
                         Normal x).
Proof.
  exact (checked_element_bounds 8 2 Samples.three_by_four Samples.twelve
           [1; 2] three_by_four_reachable sizes_1_2).
Defined.

(** X2 at the 3 by 4 index state. *)
Lemma offsets_are_a_bijection_witness :
  (∀ t1 t2 : list Z,
     valid_pack 2 Samples.three_by_four t1
     → valid_pack 2 Samples.three_by_four t2
       → indexes_to_offset 8 Samples.three_by_four t1 =
         indexes_to_offset 8 Samples.three_by_four t2 → 
         t1 = t2)
  ∧ ∀ j : Z,
      0 <= j < prod_list (extents 2 Samples.three_by_four)
      → ∃ t : list Z,
          valid_pack 2 Samples.three_by_four t
          ∧ indexes_to_offset 8 Samples.three_by_four t = Normal j.
Proof.
  exact (offsets_are_a_bijection 8 2 Samples.three_by_four
           three_by_four_reachable).
Defined.

(** X3 at the 3 by 4 index state and position 5 of twelve elements. *)
Lemma apply_coordinates_address_element_witness :
  valid_pack 2 Samples.three_by_four
    (odometer_tuple 2 Samples.three_by_four 5)
  ∧ element 8 2 Samples.three_by_four Samples.twelve
      (odometer_tuple 2 Samples.three_by_four 5) =
    Normal 5
    ∧ element_checked 8 2 Samples.three_by_four Samples.twelve
        (odometer_tuple 2 Samples.three_by_four 5) =
      Normal 5.
Proof.
  exact (apply_coordinates_address_element 8 2 Samples.three_by_four
           Samples.twelve 5 5 three_by_four_reachable fifth_of_twelve
           five_below_twelve).
Defined.

(** X4 at the 3 by 4 index state. *)
Lemma setters_keep_what_they_do_not_set_witness :
  extents_set 8 2 (extents 2 Samples.three_by_four)
    Samples.three_by_four =
  Done Samples.three_by_four
  ∧ priorities_set 8 2 (priorities 2 Samples.three_by_four)
      Samples.three_by_four =
    Done Samples.three_by_four
    ∧ extents_and_priorities 8 2 (extents 2 Samples.three_by_four)
        (priorities 2 Samples.three_by_four) Samples.three_by_four =
      Done Samples.three_by_four
      ∧ (∀ (e : list Z) (s' : indexed_base),
           stats_type 8 2 e
           → extents_set 8 2 e Samples.three_by_four = Done s'
             → priorities 2 s' = priorities 2 Samples.three_by_four)
        ∧ ∀ (p : list Z) (s' : indexed_base),
            stats_type 8 2 p
            → priorities_set 8 2 p Samples.three_by_four = Done s'
              → extents 2 s' = extents 2 Samples.three_by_four.
Proof.
  exact (setters_keep_what_they_do_not_set 8 2 Samples.three_by_four
           three_by_four_reachable).
Defined.

(** X5 at the 3 by 4 index state. *)
Lemma reachable_shape_witness :
  length (extents 2 Samples.three_by_four) = 2%nat
  ∧ length (priorities 2 Samples.three_by_four) = 2%nat
    ∧ Forall (λ e : Z, 1 <= e <= SizeType.size_max 8)
        (extents 2 Samples.three_by_four)
      ∧ 1 <= prod_list (extents 2 Samples.three_by_four) <=
        SizeType.size_max 8
        ∧ priorities 2 Samples.three_by_four ≡ₚ iota 2
          ∧ NoDup (priorities 2 Samples.three_by_four)
            ∧ ∃ rs : Z,
                required_size 8 Samples.three_by_four = Normal rs
                ∧ 1 <= rs.
Proof.
  exact (reachable_shape 8 2 Samples.three_by_four three_by_four_reachable).
Defined.

(** X6 at the 3 by 4 index state. *)
Lemma row_major_order_layout_witness :
  ∃ s' : indexed_base,
    use_row_major_order 8 2 Samples.three_by_four = Done s'
    ∧ priorities 2 s' = iota 2
      ∧ extents 2 s' = extents 2 Samples.three_by_four
        ∧ required_size 8 s' = required_size 8 Samples.three_by_four
          ∧ ∀ idx : list Z,
              valid_pack 2 Samples.three_by_four idx
              → get_offset 8 2 s' idx true =
                Normal
                  (ArrayMD.row_major_offset
                     (extents 2 Samples.three_by_four) idx)
                ∧ get_offset 8 2 s' idx false =
                  Normal
                    (ArrayMD.row_major_offset
                       (extents 2 Samples.three_by_four) idx).
Proof.
  exact (row_major_order_layout 8 2 Samples.three_by_four
           three_by_four_reachable).
Defined.

(** X7 at the 3 by 4 index state. *)
Lemma column_major_order_layout_witness :
  ∃ s' : indexed_base,
    use_column_major_order 8 2 Samples.three_by_four = Done s'
    ∧ priorities 2 s' = reverse (iota 2)
      ∧ extents 2 s' = extents 2 Samples.three_by_four
        ∧ required_size 8 s' = required_size 8 Samples.three_by_four
          ∧ ∀ idx : list Z,
              valid_pack 2 Samples.three_by_four idx
              → get_offset 8 2 s' idx true =
                Normal
                  (ArrayMD.column_major_offset
                     (extents 2 Samples.three_by_four) idx)
                ∧ get_offset 8 2 s' idx false =
                  Normal
                    (ArrayMD.column_major_offset
                       (extents 2 Samples.three_by_four) idx).
Proof.
  exact (column_major_order_layout 8 2 Samples.three_by_four
           three_by_four_reachable rank_2_fits).
Defined.

(** X8 at the 3 by 4 index state, the tuple [(1, 2)] and its offset 6. *)
Lemma coordinates_from_offset_witness :
  ∃ e st : Z,
    extents 2 Samples.three_by_four !! 1%nat = Some e
    ∧ stats_strides Samples.three_by_four !! 1%nat = Some st
      ∧ 0 < e ∧ 0 < st ∧ [1; 2] !! 1%nat = Some ((6 / st) mod e).
Proof.
  exact (coordinates_from_offset 8 2 Samples.three_by_four [1; 2] 6
           three_by_four_reachable valid_1_2 offset_1_2 1 one_below_two).
Defined.

(** X9 for a container of ten elements and rank 2. *)
Lemma construct_shape_witness :
  ∃ s : indexed_base,
    construct 8 2 10 = Done s
    ∧ extents 2 s = (if 10 =? 0 then 1 else 10) :: replicate 1 1
      ∧ priorities 2 s = iota 2
        ∧ required_size 8 s = Normal (if 10 =? 0 then 1 else 10)
          ∧ ∀ (A : Type) (c : list A) (i : nat) (x : A),
              Z.of_nat (length c) = 10
              → 2%nat ≠ 0%nat
                → c !! i = Some x
                  → element_checked 8 2 s c
                      (Z.of_nat i :: replicate (2 - 1) 0) =
                    Normal x
                    ∧ element 8 2 s c
                        (Z.of_nat i :: replicate (2 - 1) 0) =
                      Normal x.
Proof.
  exact (construct_shape 8 2 10 size_10).
Defined.

(** X10 at the 3 by 4 index state, twelve elements and the value 7. *)
Lemma fill_then_read_witness :
  ∃ c' : list Z,
    fill 8 Samples.three_by_four Samples.twelve 7 = Normal c'
    ∧ length c' = length Samples.twelve
      ∧ (∀ j : nat,
           Z.of_nat j < prod_list (extents 2 Samples.three_by_four)
           → (j < length Samples.twelve)%nat → c' !! j = Some 7)
        ∧ (∀ j : nat,
             prod_list (extents 2 Samples.three_by_four) <= Z.of_nat j
             → c' !! j = Samples.twelve !! j)
          ∧ (prod_list (extents 2 Samples.three_by_four) <=
             Z.of_nat (length Samples.twelve)
             → ∀ idx : list Z,
                 valid_pack 2 Samples.three_by_four idx
                 → element_checked 8 2 Samples.three_by_four c' idx =
                   Normal 7
                   ∧ element 8 2 Samples.three_by_four c' idx =
                     Normal 7).
Proof.
  exact (fill_then_read 8 2 Samples.three_by_four Samples.twelve 7
           three_by_four_reachable).
Defined.

(** X11 at the 3 by 4 index state and its last tuple [(2, 3)]. *)
Lemma advance_index_pack_wraps_witness :
  ∃ (t : bool) (next : list Z) (off : Z),
    advance_index_pack 8 2 Samples.three_by_four [2; 3] =
    Normal (t, next)
    ∧ valid_pack 2 Samples.three_by_four next
      ∧ indexes_to_offset 8 Samples.three_by_four [2; 3] = Normal off
        ∧ indexes_to_offset 8 Samples.three_by_four next =
          Normal
            ((off + 1) mod prod_list (extents 2 Samples.three_by_four))
          ∧ (t = true ↔ next = first_index_pack 2)
            ∧ (t = true
               ↔ off + 1 = prod_list (extents 2 Samples.three_by_four)).
Proof.
  exact (advance_index_pack_wraps 8 2 Samples.three_by_four [2; 3]
           three_by_four_reachable valid_2_3).
Defined.

(** X22 at the 3 by 4 index state, twelve elements and the short tuple [(1)]. *)
Lemma unchecked_element_arity_witness :
  (∀ e : exception,
     element 8 2 Samples.three_by_four Samples.twelve [1] ≠ Throw e)
  ∧ ((length [1%Z] <= 2)%nat
     → get_offset 8 2 Samples.three_by_four [1] false =
       get_offset 8 2 Samples.three_by_four
         ([1] ++ replicate (2 - length [1]) 0) false
       ∧ element 8 2 Samples.three_by_four Samples.twelve [1] =
         element 8 2 Samples.three_by_four Samples.twelve
           ([1] ++ replicate (2 - length [1]) 0))
    ∧ ((slots 2 < length [1%Z])%nat
       → element 8 2 Samples.three_by_four Samples.twelve [1] =
         Undefined).
Proof.
  exact (unchecked_element_arity 8 2 Samples.three_by_four Samples.twelve
           [1] three_by_four_reachable).
Defined.

(** X24 at the 3 by 4 index state over a container of three elements. *)
Lemma access_beyond_container_witness :
  (∀ (idx : list Z) (off : Z),
     valid_pack 2 Samples.three_by_four idx
     → get_offset 8 2 Samples.three_by_four idx true = Normal off
       → Z.of_nat (length [5; 6; 7]) <= off
         → element_checked 8 2 Samples.three_by_four [5; 6; 7] idx =
           Undefined
           ∧ element 8 2 Samples.three_by_four [5; 6; 7] idx = Undefined)
  ∧ (Z.of_nat (length [5; 6; 7]) <
     prod_list (extents 2 Samples.three_by_four)
     → ∃ idx : list Z,
         valid_pack 2 Samples.three_by_four idx
         ∧ element_checked 8 2 Samples.three_by_four [5; 6; 7] idx =
           Undefined
           ∧ element 8 2 Samples.three_by_four [5; 6; 7] idx = Undefined).
Proof.
  exact (access_beyond_container 8 2 Samples.three_by_four [5; 6; 7]
           three_by_four_reachable).
Defined.
End MultiArrayFacts.
